(** * GTMatrix update path: a shallow embedding of [GTMatrix_Update.c]

    The development models the put / accumulate path of the distributed
    matrix: the per-destination transfer [GTM_updateBlockToProcess], the
    geometric decomposition and access-mode dispatch of [GTM_updateBlock],
    and the batch epoch functions [GTM_startBatchUpdate],
    [GTM_execBatchUpdate] and [GTM_stopBatchUpdate].

    Conventions.
    - A C [int] is a [Z] between [INT_MIN] and [INT_MAX].  The two
      validations, the offset [dst_pos] and the shift of the source
      pointer are written with the wrap-around of a 32-bit two's
      complement [int] ([int_add], [int_sub], [int_mul]).  The other
      [int] expressions (the last row and column of the rectangle, block
      indices, ranks, the extents of an intersection, the index of a
      cached descriptor, counters) are written exactly.  [/] and [%] are
      the truncating [Z.quot] and [Z.rem].
    - An array is a list read with [a.[i]]; reading outside the array
      (undefined in C) yields a default value, writing outside is a no-op.
    - A pointer to a handle is an [option]: [None] is [NULL].
    - Calls into MPI are not executed but logged, in call order, in the
      field [mpi_log] of the handle; the log is the observable behaviour
      of the one-sided layer.
    - [assert] aborts the run ([Aborts]). *)

From Stdlib Require Import ZArith Lia.
From stdpp Require Import base option list list_numbers.

Local Open Scope Z_scope.

(** ** Values exchanged with MPI and with the callers *)

(** Result codes of [GTMatrix_Retval.h] that this file returns. *)
Inductive retval : Set :=
  | GTM_SUCCESS
  | GTM_NULL_PTR
  | GTM_INVALID_BLOCK
  | GTM_IN_BATCHED_GET
  | GTM_IN_BATCHED_PUT
  | GTM_IN_BATCHED_ACC
  | GTM_NO_BATCHED_PUT
  | GTM_NO_BATCHED_ACC.

Inductive MPI_Op : Set := MPI_REPLACE | MPI_SUM.

(** Access modes of [GTMatrix_Typedef.h].  [GTM_updateBlock] compares
    its [access_mode] with these three constants only, and every caller
    in this file passes one of them. *)
Inductive access_mode : Set :=
  | BLOCKING_ACCESS
  | NONBLOCKING_ACCESS
  | BATCH_ACCESS.

(** A transfer descriptor: an entry of one of the two caches built at
    matrix creation, or a one-off vector type
    [MPI_Type_vector(count, blocklength, stride, gtm->datatype, _)]. *)
Inductive MPI_Datatype : Set :=
  | sb_stride (block_dt_id : Z)
  | sb_nostride (block_dt_id : Z)
  | type_vector (count blocklength stride : Z).

(** The MPI calls made by this file, with the arguments that vary. *)
Inductive MPI_Call : Set :=
  | MPI_Win_lock (lock_type rank : Z)
  | MPI_Win_unlock (rank : Z)
  | MPI_Type_vector (count blocklength stride : Z)
  | MPI_Type_commit (dt : MPI_Datatype)
  | MPI_Type_free (dt : MPI_Datatype)
  | MPI_Accumulate (src_buf : Z) (src_dt : MPI_Datatype)
                   (dst_rank dst_pos : Z) (dst_dt : MPI_Datatype) (op : MPI_Op).

Global Instance retval_eq_dec : EqDecision retval.
Proof. solve_decision. Defined.
Global Instance MPI_Op_eq_dec : EqDecision MPI_Op.
Proof. solve_decision. Defined.
Global Instance MPI_Datatype_eq_dec : EqDecision MPI_Datatype.
Proof. solve_decision. Defined.
Global Instance MPI_Call_eq_dec : EqDecision MPI_Call.
Proof. solve_decision. Defined.

(** ** The handle *)

(** One queued update: one index of the parallel arrays [ops],
    [row_starts], [row_nums], [col_starts], [col_nums], [src_bufs] and
    [src_buf_lds] of a request vector. *)
Record GTM_Req : Set := mkReq {
  req_op : MPI_Op;
  req_row_start : Z;
  req_row_num : Z;
  req_col_start : Z;
  req_col_num : Z;
  req_src_buf : Z;
  req_src_buf_ld : Z
}.

(** A request vector is its first [curr_size] entries. *)
Definition GTM_Req_Vector : Set := list GTM_Req.

Definition curr_size (req_vec : GTM_Req_Vector) : Z := Z.of_nat (length req_vec).

(** The fields of [struct GTMatrix] read or written by the update path. *)
Record GTMatrix : Set := mkGTM {
  nrows : Z;
  ncols : Z;
  r_blocks : Z;
  c_blocks : Z;
  r_displs : list Z;
  c_displs : list Z;
  ld_local : Z;
  unit_size : Z;
  acc_lock_type : Z;
  my_rank : Z;
  comm_size : Z;
  max_nb_acc : Z;
  nb_op_cnt : Z;
  nb_op_proc_cnt : list Z;
  req_vec : list GTM_Req_Vector;
  in_batch_get : Z;
  in_batch_put : Z;
  in_batch_acc : Z;
  mpi_log : list MPI_Call
}.

Definition GTMatrix_t : Set := option GTMatrix.

Definition set_nb_op_cnt (v : Z) (g : GTMatrix) : GTMatrix :=
  mkGTM (nrows g) (ncols g) (r_blocks g) (c_blocks g) (r_displs g) (c_displs g)
        (ld_local g) (unit_size g) (acc_lock_type g) (my_rank g) (comm_size g)
        (max_nb_acc g) v (nb_op_proc_cnt g) (req_vec g)
        (in_batch_get g) (in_batch_put g) (in_batch_acc g) (mpi_log g).

Definition set_nb_op_proc_cnt (v : list Z) (g : GTMatrix) : GTMatrix :=
  mkGTM (nrows g) (ncols g) (r_blocks g) (c_blocks g) (r_displs g) (c_displs g)
        (ld_local g) (unit_size g) (acc_lock_type g) (my_rank g) (comm_size g)
        (max_nb_acc g) (nb_op_cnt g) v (req_vec g)
        (in_batch_get g) (in_batch_put g) (in_batch_acc g) (mpi_log g).

Definition set_req_vec (v : list GTM_Req_Vector) (g : GTMatrix) : GTMatrix :=
  mkGTM (nrows g) (ncols g) (r_blocks g) (c_blocks g) (r_displs g) (c_displs g)
        (ld_local g) (unit_size g) (acc_lock_type g) (my_rank g) (comm_size g)
        (max_nb_acc g) (nb_op_cnt g) (nb_op_proc_cnt g) v
        (in_batch_get g) (in_batch_put g) (in_batch_acc g) (mpi_log g).

Definition set_in_batch_put (v : Z) (g : GTMatrix) : GTMatrix :=
  mkGTM (nrows g) (ncols g) (r_blocks g) (c_blocks g) (r_displs g) (c_displs g)
        (ld_local g) (unit_size g) (acc_lock_type g) (my_rank g) (comm_size g)
        (max_nb_acc g) (nb_op_cnt g) (nb_op_proc_cnt g) (req_vec g)
        (in_batch_get g) v (in_batch_acc g) (mpi_log g).

Definition set_in_batch_acc (v : Z) (g : GTMatrix) : GTMatrix :=
  mkGTM (nrows g) (ncols g) (r_blocks g) (c_blocks g) (r_displs g) (c_displs g)
        (ld_local g) (unit_size g) (acc_lock_type g) (my_rank g) (comm_size g)
        (max_nb_acc g) (nb_op_cnt g) (nb_op_proc_cnt g) (req_vec g)
        (in_batch_get g) (in_batch_put g) v (mpi_log g).

Definition set_mpi_log (v : list MPI_Call) (g : GTMatrix) : GTMatrix :=
  mkGTM (nrows g) (ncols g) (r_blocks g) (c_blocks g) (r_displs g) (c_displs g)
        (ld_local g) (unit_size g) (acc_lock_type g) (my_rank g) (comm_size g)
        (max_nb_acc g) (nb_op_cnt g) (nb_op_proc_cnt g) (req_vec g)
        (in_batch_get g) (in_batch_put g) (in_batch_acc g) v.

(** ** The C type [int] *)

Definition INT_MIN : Z := -2147483648.
Definition INT_MAX : Z := 2147483647.

(** [x] is the value of an [int]. *)
Definition fits_int (x : Z) : Prop := INT_MIN ≤ x ≤ INT_MAX.

(** The [int] left by an operation whose exact result is [x]: the
    representative of [x] modulo [2^32] between [INT_MIN] and [INT_MAX]. *)
Definition wrap_int (x : Z) : Z :=
  (x + 2147483648) mod 4294967296 - 2147483648.

Definition int_add (a b : Z) : Z := wrap_int (a + b).
Definition int_sub (a b : Z) : Z := wrap_int (a - b).
Definition int_mul (a b : Z) : Z := wrap_int (a * b).

(** ** Arrays indexed by an [int] *)

(** [arr_get d a i] is [a[i]]; outside the array it is the default [d]. *)
Definition arr_get {A : Type} (d : A) (a : list A) (i : Z) : A :=
  if decide (0 ≤ i) then default d (a !! Z.to_nat i) else d.

(** [a[i] = v]; outside the array nothing is written. *)
Definition arr_set {A : Type} (a : list A) (i : Z) (v : A) : list A :=
  if decide (0 ≤ i) then <[Z.to_nat i := v]> a else a.

(** Arrays of [int] read as [a.[i]]. *)
Notation "a .[ i ]" := (arr_get 0 a i) (at level 1, format "a .[ i ]").

(** ** The state monad of a call on a non-null handle *)

Inductive outcome (S A : Type) : Type :=
  | Returns (a : A) (s : S)
  | Aborts (s : S).
Arguments Returns {S A} a s.
Arguments Aborts {S A} s.

Definition M (A : Type) : Type := GTMatrix → outcome GTMatrix A.

Global Instance M_ret : MRet M := λ A a g, Returns a g.
Global Instance M_bind : MBind M := λ A B f m g,
  match m g with
  | Returns a g' => f a g'
  | Aborts g' => Aborts g'
  end.

Definition get : M GTMatrix := λ g, Returns g g.
Definition modify (f : GTMatrix → GTMatrix) : M unit := λ g, Returns tt (f g).
Definition mpi (c : MPI_Call) : M unit :=
  modify (λ g, set_mpi_log (mpi_log g ++ [c]) g).
Definition assert (b : bool) : M unit :=
  λ g, if b then Returns tt g else Aborts g.

(** A loop whose body may leave the enclosing function: the body yields
    the code to return, and any code but [GTM_SUCCESS] ends the loop. *)
Fixpoint for_each {A : Type} (l : list A) (body : A → M retval) : M retval :=
  match l with
  | [] => mret GTM_SUCCESS
  | x :: l' =>
      ret ← body x;
      if decide (ret = GTM_SUCCESS) then for_each l' body else mret ret
  end.

(** [for (i = lo; i <= hi; i++)] *)
Definition for_range (lo hi : Z) (body : Z → M retval) : M retval :=
  for_each (seqZ lo (hi - lo + 1)) body.

(** [if (gtm == NULL) return GTM_NULL_PTR;] followed by a body that runs
    on the handle. *)
Definition with_handle (gtm : GTMatrix_t) (body : M retval)
  : outcome GTMatrix_t retval :=
  match gtm with
  | None => Returns GTM_NULL_PTR None
  | Some g =>
      match body g with
      | Returns ret g' => Returns ret (Some g')
      | Aborts g' => Aborts (Some g')
      end
  end.

(** ** Collaborators declared in headers that are not part of this file *)

(** Modelled from the spec: [getRectIntersection] of [utils.h], whose
    body is missing.  "Intersect that destination's owned tile bounds
    with the requested rectangle": both rectangles are given by their
    first and last row and column (inclusive), and the result is the flag
    [need_to_fetch] (1 when the rectangles meet) with the first and last
    row and column of the intersection. *)
Definition getRectIntersection
    (r_s0 r_e0 c_s0 c_e0 r_s1 r_e1 c_s1 c_e1 : Z) : Z * Z * Z * Z * Z :=
  let r_s := Z.max r_s0 r_s1 in
  let r_e := Z.min r_e0 r_e1 in
  let c_s := Z.max c_s0 c_s1 in
  let c_e := Z.min c_e0 c_e1 in
  (if (r_s <=? r_e) && (c_s <=? c_e) then 1 else 0, r_s, r_e, c_s, c_e).

(** Modelled from the spec: [GTM_resetReqVector], whose body is missing
    ("queue.reset(destRank)": the queue is cleared). *)
Definition GTM_resetReqVector (req_vec : GTM_Req_Vector) : GTM_Req_Vector := [].

(** Modelled from the spec: [GTM_waitNB] of [GTMatrix_Other.h], whose
    body is missing ("flushOutstanding(gtm)": "wait for completion of all
    outstanding operations against every destination with a nonzero
    counter, release every held epoch, and reset all counters to zero").
    Completion and release at a destination are the one call
    [MPI_Win_unlock]. *)
Definition GTM_waitNB : M retval :=
  gtm ← get;
  let cnt := nb_op_proc_cnt gtm in
  let busy := filter (λ i, cnt.[i] ≠ 0) (seqZ 0 (Z.of_nat (length cnt))) in
  modify (λ g, set_mpi_log (mpi_log g ++ (MPI_Win_unlock <$> busy)) g);;
  modify (set_nb_op_proc_cnt ((λ _, 0) <$> cnt));;
  modify (set_nb_op_cnt 0);;
  mret GTM_SUCCESS.

(** ** The functions of [GTMatrix_Update.c] *)

Section GTMatrix_Update.

(** The small-block bound of [GTMatrix_Typedef.h]; its value is not
    fixed by this file. *)
Variable MPI_DT_SB_DIM_MAX : Z.

(** The result code of a push on a request vector, given the vector and
    the request: the storage of the vectors, on which it depends, is
    not part of this file. *)
Variable push_result : GTM_Req_Vector → GTM_Req → retval.

(** Modelled from the spec: [GTM_pushToReqVector], whose body is missing
    ("queue.push(destRank, operator, subRect, sourcePtr, sourceStride) ->
    Result"; storage is out of scope).  The call sees the queue only and
    returns the code [push_result]; a request that is accepted
    ([GTM_SUCCESS]) is appended after the queued ones, a request that is
    not accepted is not stored. *)
Definition GTM_pushToReqVector (req_vec : GTM_Req_Vector) (op : MPI_Op)
    (row_start row_num col_start col_num : Z) (src_buf src_buf_ld : Z)
  : retval * GTM_Req_Vector :=
  let req := mkReq op row_start row_num col_start col_num src_buf src_buf_ld in
  let ret := push_result req_vec req in
  (ret, if decide (ret = GTM_SUCCESS) then req_vec ++ [req] else req_vec).

(** The index into a destination's exposed region of the first element
    of a block (the two statements that compute [dst_pos]). *)
Definition dst_pos_of (gtm : GTMatrix) (dst_rank row_start col_start : Z) : Z :=
  let dst_rowblk := Z.quot dst_rank (c_blocks gtm) in
  let dst_colblk := Z.rem dst_rank (c_blocks gtm) in
  let dst_blk_ld := ld_local gtm in
  let dst_row_start := (r_displs gtm).[dst_rowblk] in
  let dst_col_start := (c_displs gtm).[dst_colblk] in
  int_add (int_mul (int_sub row_start dst_row_start) dst_blk_ld)
          (int_sub col_start dst_col_start).

(** The sanity check of [GTM_updateBlockToProcess]: [true] when the block
    is refused. *)
Definition block_refused (gtm : GTMatrix)
    (dst_rank row_start row_num col_start col_num : Z) : bool :=
  let row_end := int_add row_start row_num in
  let col_end := int_add col_start col_num in
  let dst_rowblk := Z.quot dst_rank (c_blocks gtm) in
  let dst_colblk := Z.rem dst_rank (c_blocks gtm) in
  let dst_row_start := (r_displs gtm).[dst_rowblk] in
  let dst_col_start := (c_displs gtm).[dst_colblk] in
  let dst_row_end := (r_displs gtm).[dst_rowblk + 1] in
  let dst_col_end := (c_displs gtm).[dst_colblk + 1] in
  (row_start <? dst_row_start) || (col_start <? dst_col_start) ||
  (row_end >? dst_row_end) || (col_end >? dst_col_end) ||
  (int_mul row_num col_num =? 0).

(** The MPI calls of one accepted transfer, in call order. *)
Definition transfer_calls (gtm : GTMatrix) (dst_rank : Z) (op : MPI_Op)
    (row_start row_num col_start col_num : Z) (src_buf src_buf_ld : Z)
  : list MPI_Call :=
  let dst_blk_ld := ld_local gtm in
  let dst_pos := dst_pos_of gtm dst_rank row_start col_start in
  if (row_num <=? MPI_DT_SB_DIM_MAX) && (col_num <=? MPI_DT_SB_DIM_MAX) then
    let block_dt_id := (row_num - 1) * MPI_DT_SB_DIM_MAX + (col_num - 1) in
    let dst_dt := sb_stride block_dt_id in
    if decide (col_num = src_buf_ld) then
      let rcv_dt_ns := sb_nostride block_dt_id in
      [MPI_Accumulate src_buf rcv_dt_ns dst_rank dst_pos dst_dt op]
    else if decide (ld_local gtm = src_buf_ld) then
      [MPI_Accumulate src_buf dst_dt dst_rank dst_pos dst_dt op]
    else
      let rcv_dt := type_vector row_num col_num src_buf_ld in
      [MPI_Type_vector row_num col_num src_buf_ld;
       MPI_Type_commit rcv_dt;
       MPI_Accumulate src_buf rcv_dt dst_rank dst_pos dst_dt op;
       MPI_Type_free rcv_dt]
  else
    let dst_dt := type_vector row_num col_num dst_blk_ld in
    let rcv_dt := type_vector row_num col_num src_buf_ld in
    [MPI_Type_vector row_num col_num dst_blk_ld;
     MPI_Type_vector row_num col_num src_buf_ld;
     MPI_Type_commit dst_dt;
     MPI_Type_commit rcv_dt;
     MPI_Accumulate src_buf rcv_dt dst_rank dst_pos dst_dt op;
     MPI_Type_free dst_dt;
     MPI_Type_free rcv_dt].

Definition GTM_updateBlockToProcess (dst_rank : Z) (op : MPI_Op)
    (row_start row_num col_start col_num : Z) (src_buf src_buf_ld : Z)
  : M retval :=
  gtm ← get;
  if block_refused gtm dst_rank row_start row_num col_start col_num
  then mret GTM_INVALID_BLOCK
  else
    modify (λ g, set_mpi_log
      (mpi_log g ++ transfer_calls gtm dst_rank op row_start row_num
                      col_start col_num src_buf src_buf_ld) g);;
    mret GTM_SUCCESS.

(** The two searches of one boundary table made by one loop of
    [GTM_updateBlock]: the block that holds [first] and the block that
    holds [last], starting from the initial values [0] and [-1]. *)
Definition find_blocks (displs : list Z) (blocks first last : Z) : Z * Z :=
  foldl (λ '(s_blk, e_blk) i,
           (if (displs.[i] <=? first) && (first <? displs.[i + 1])
            then i else s_blk,
            if (displs.[i] <=? last) && (last <? displs.[i + 1])
            then i else e_blk))
        (0, -1) (seqZ 0 blocks).

(** What one iteration of the double loop computes before it dispatches. *)
Record SubUpdate : Set := mkSub {
  need_to_fetch : Z;
  dst_rank : Z;
  blk_r_s : Z;
  blk_r_num : Z;
  blk_c_s : Z;
  blk_c_num : Z;
  blk_ptr : Z
}.

Definition resolve_block (gtm : GTMatrix)
    (row_start row_num col_start col_num : Z) (src_buf src_buf_ld : Z)
    (blk_r blk_c : Z) : SubUpdate :=
  let row_end := row_start + row_num - 1 in
  let col_end := col_start + col_num - 1 in
  let dst_r_s := (r_displs gtm).[blk_r] in
  let dst_r_e := (r_displs gtm).[blk_r + 1] - 1 in
  let dst_c_s := (c_displs gtm).[blk_c] in
  let dst_c_e := (c_displs gtm).[blk_c + 1] - 1 in
  let dst_rank := blk_r * c_blocks gtm + blk_c in
  let '(need_to_fetch, blk_r_s, blk_r_e, blk_c_s, blk_c_e) :=
    getRectIntersection dst_r_s dst_r_e dst_c_s dst_c_e
                        row_start row_end col_start col_end in
  let blk_r_num := blk_r_e - blk_r_s + 1 in
  let blk_c_num := blk_c_e - blk_c_s + 1 in
  let row_dist := blk_r_s - row_start in
  let col_dist := blk_c_s - col_start in
  let blk_ptr :=
    src_buf + int_mul (int_add (int_mul row_dist src_buf_ld) col_dist)
                      (unit_size gtm) in
  mkSub need_to_fetch dst_rank blk_r_s blk_r_num blk_c_s blk_c_num blk_ptr.

(** The three [if (access_mode == ...)] branches. *)
Definition nb_issue (op : MPI_Op) (u : SubUpdate) (src_buf_ld : Z) : M retval :=
  gtm ← get;
  (if decide ((nb_op_proc_cnt gtm).[dst_rank u] = 0)
   then mpi (MPI_Win_lock (acc_lock_type gtm) (dst_rank u))
   else mret tt);;
  ret ← GTM_updateBlockToProcess (dst_rank u) op (blk_r_s u) (blk_r_num u)
          (blk_c_s u) (blk_c_num u) (blk_ptr u) src_buf_ld;
  modify (λ g, set_nb_op_proc_cnt
    (arr_set (nb_op_proc_cnt g) (dst_rank u)
             ((nb_op_proc_cnt g).[dst_rank u] + 1)) g);;
  modify (λ g, set_nb_op_cnt (nb_op_cnt g + 1) g);;
  mret ret.

Definition nb_throttle : M unit :=
  gtm ← get;
  if decide (max_nb_acc gtm ≤ nb_op_cnt gtm) then GTM_waitNB;; mret tt
  else mret tt.

Definition dispatch (op : MPI_Op) (u : SubUpdate) (src_buf_ld : Z)
    (mode : access_mode) : M retval :=
  match mode with
  | BLOCKING_ACCESS =>
      gtm ← get;
      mpi (MPI_Win_lock (acc_lock_type gtm) (dst_rank u));;
      ret ← GTM_updateBlockToProcess (dst_rank u) op (blk_r_s u) (blk_r_num u)
              (blk_c_s u) (blk_c_num u) (blk_ptr u) src_buf_ld;
      mpi (MPI_Win_unlock (dst_rank u));;
      mret ret
  | NONBLOCKING_ACCESS =>
      ret ← nb_issue op u src_buf_ld;
      nb_throttle;;
      mret ret
  | BATCH_ACCESS =>
      gtm ← get;
      let '(ret, v) :=
        GTM_pushToReqVector (arr_get [] (req_vec gtm) (dst_rank u)) op
          (blk_r_s u) (blk_r_num u) (blk_c_s u) (blk_c_num u)
          (blk_ptr u) src_buf_ld in
      modify (λ g, set_req_vec (arr_set (req_vec g) (dst_rank u) v) g);;
      mret ret
  end.

(** The outer validation: [true] when the rectangle is refused. *)
Definition rect_refused (gtm : GTMatrix)
    (row_start row_num col_start col_num : Z) : bool :=
  (row_start <? 0) || (col_start <? 0) ||
  (int_add row_start row_num >? nrows gtm) ||
  (int_add col_start col_num >? ncols gtm) ||
  (int_mul row_num col_num =? 0).

Definition GTM_updateBlock (gtm : GTMatrix_t) (op : MPI_Op)
    (row_start row_num col_start col_num : Z) (src_buf src_buf_ld : Z)
    (mode : access_mode) : outcome GTMatrix_t retval :=
  with_handle gtm (
    gtm ← get;
    if rect_refused gtm row_start row_num col_start col_num
    then mret GTM_INVALID_BLOCK
    else
      let row_end := row_start + row_num - 1 in
      let col_end := col_start + col_num - 1 in
      let '(s_blk_r, e_blk_r) :=
        find_blocks (r_displs gtm) (r_blocks gtm) row_start row_end in
      let '(s_blk_c, e_blk_c) :=
        find_blocks (c_displs gtm) (c_blocks gtm) col_start col_end in
      for_range s_blk_r e_blk_r (λ blk_r,
        for_range s_blk_c e_blk_c (λ blk_c,
          let u := resolve_block gtm row_start row_num col_start col_num
                                 src_buf src_buf_ld blk_r blk_c in
          assert (need_to_fetch u =? 1);;
          dispatch op u src_buf_ld mode))).

Definition GTM_startBatchUpdate (gtm : GTMatrix_t) : outcome GTMatrix_t retval :=
  with_handle gtm (
    gtm ← get;
    if decide (in_batch_get gtm ≠ 0) then mret GTM_IN_BATCHED_GET
    else if decide (in_batch_put gtm ≠ 0) then mret GTM_IN_BATCHED_PUT
    else if decide (in_batch_acc gtm ≠ 0) then mret GTM_IN_BATCHED_ACC
    else
      modify (λ g, set_req_vec
        (foldl (λ vecs i, arr_set vecs i (GTM_resetReqVector (arr_get [] vecs i)))
               (req_vec g) (seqZ 0 (comm_size g))) g);;
      modify (set_in_batch_put 1);;
      modify (set_in_batch_acc 1);;
      mret GTM_SUCCESS).

(** Replay of one destination's queue, lines 226 to 245. *)
Definition replay_queue (dst_rank : Z) (vec : GTM_Req_Vector) : M retval :=
  if decide (0 < curr_size vec) then
    gtm ← get;
    mpi (MPI_Win_lock (acc_lock_type gtm) dst_rank);;
    ret ← for_each vec (λ req,
            GTM_updateBlockToProcess dst_rank (req_op req)
              (req_row_start req) (req_row_num req)
              (req_col_start req) (req_col_num req)
              (req_src_buf req) (req_src_buf_ld req));
    if decide (ret = GTM_SUCCESS)
    then mpi (MPI_Win_unlock dst_rank);; mret GTM_SUCCESS
    else mret ret
  else mret GTM_SUCCESS.

(** The body of the round-robin loop, lines 222 to 248. *)
Definition exec_destination (_dst_rank : Z) : M retval :=
  gtm ← get;
  let dst_rank := Z.rem _dst_rank (comm_size gtm) in
  let vec := arr_get [] (req_vec gtm) dst_rank in
  ret ← replay_queue dst_rank vec;
  if decide (ret = GTM_SUCCESS) then
    modify (λ g, set_req_vec
      (arr_set (req_vec g) dst_rank (GTM_resetReqVector vec)) g);;
    mret GTM_SUCCESS
  else mret ret.

(** The handle is dereferenced without a test, so the function is
    modelled on a non-null handle. *)
Definition GTM_execBatchUpdate : M retval :=
  gtm ← get;
  if decide (in_batch_put gtm = 0) then mret GTM_NO_BATCHED_PUT
  else if decide (in_batch_acc gtm = 0) then mret GTM_NO_BATCHED_ACC
  else for_each (seqZ (my_rank gtm) (comm_size gtm)) exec_destination.

Definition GTM_stopBatchUpdate (gtm : GTMatrix_t) : outcome GTMatrix_t retval :=
  with_handle gtm (
    gtm ← get;
    if decide (in_batch_put gtm = 0) then mret GTM_NO_BATCHED_PUT
    else if decide (in_batch_acc gtm = 0) then mret GTM_NO_BATCHED_ACC
    else
      modify (set_in_batch_put 0);;
      modify (set_in_batch_acc 0);;
      mret GTM_SUCCESS).

(** The wrappers that add a request to the queues. *)
Definition GTM_addPutBlockRequest (gtm : GTMatrix_t)
    (row_start row_num col_start col_num : Z) (src_buf src_buf_ld : Z)
  : outcome GTMatrix_t retval :=
  match gtm with
  | None => Returns GTM_NULL_PTR None
  | Some _ =>
      GTM_updateBlock gtm MPI_REPLACE row_start row_num col_start col_num
                      src_buf src_buf_ld BATCH_ACCESS
  end.

Definition GTM_addAccBlockRequest (gtm : GTMatrix_t)
    (row_start row_num col_start col_num : Z) (src_buf src_buf_ld : Z)
  : outcome GTMatrix_t retval :=
  match gtm with
  | None => Returns GTM_NULL_PTR None
  | Some _ =>
      GTM_updateBlock gtm MPI_SUM row_start row_num col_start col_num
                      src_buf src_buf_ld BATCH_ACCESS
  end.

(** The blocking and the non-blocking wrappers. *)
Definition GTM_putBlock (gtm : GTMatrix_t)
    (row_start row_num col_start col_num : Z) (src_buf src_buf_ld : Z)
  : outcome GTMatrix_t retval :=
  match gtm with
  | None => Returns GTM_NULL_PTR None
  | Some _ =>
      GTM_updateBlock gtm MPI_REPLACE row_start row_num col_start col_num
                      src_buf src_buf_ld BLOCKING_ACCESS
  end.

Definition GTM_accBlock (gtm : GTMatrix_t)
    (row_start row_num col_start col_num : Z) (src_buf src_buf_ld : Z)
  : outcome GTMatrix_t retval :=
  match gtm with
  | None => Returns GTM_NULL_PTR None
  | Some _ =>
      GTM_updateBlock gtm MPI_SUM row_start row_num col_start col_num
                      src_buf src_buf_ld BLOCKING_ACCESS
  end.

Definition GTM_putBlockNB (gtm : GTMatrix_t)
    (row_start row_num col_start col_num : Z) (src_buf src_buf_ld : Z)
  : outcome GTMatrix_t retval :=
  match gtm with
  | None => Returns GTM_NULL_PTR None
  | Some _ =>
      GTM_updateBlock gtm MPI_REPLACE row_start row_num col_start col_num
                      src_buf src_buf_ld NONBLOCKING_ACCESS
  end.

Definition GTM_accBlockNB (gtm : GTMatrix_t)
    (row_start row_num col_start col_num : Z) (src_buf src_buf_ld : Z)
  : outcome GTMatrix_t retval :=
  match gtm with
  | None => Returns GTM_NULL_PTR None
  | Some _ =>
      GTM_updateBlock gtm MPI_SUM row_start row_num col_start col_num
                      src_buf src_buf_ld NONBLOCKING_ACCESS
  end.

(** The put and the accumulate names of the three epoch functions. *)
Definition GTM_startBatchPut (gtm : GTMatrix_t) : outcome GTMatrix_t retval :=
  GTM_startBatchUpdate gtm.
Definition GTM_startBatchAcc (gtm : GTMatrix_t) : outcome GTMatrix_t retval :=
  GTM_startBatchUpdate gtm.
Definition GTM_execBatchPut : M retval := GTM_execBatchUpdate.
Definition GTM_execBatchAcc : M retval := GTM_execBatchUpdate.
Definition GTM_stopBatchPut (gtm : GTMatrix_t) : outcome GTMatrix_t retval :=
  GTM_stopBatchUpdate gtm.
Definition GTM_stopBatchAcc (gtm : GTMatrix_t) : outcome GTMatrix_t retval :=
  GTM_stopBatchUpdate gtm.

(** ** Vocabulary of the properties *)

(** The list of sub-updates that the double loop of [GTM_updateBlock]
    walks through, in loop order. *)
Definition GTM_subUpdates (gtm : GTMatrix)
    (row_start row_num col_start col_num : Z) (src_buf src_buf_ld : Z)
  : list SubUpdate :=
  let row_end := row_start + row_num - 1 in
  let col_end := col_start + col_num - 1 in
  let '(s_blk_r, e_blk_r) :=
    find_blocks (r_displs gtm) (r_blocks gtm) row_start row_end in
  let '(s_blk_c, e_blk_c) :=
    find_blocks (c_displs gtm) (c_blocks gtm) col_start col_end in
  blk_r ← seqZ s_blk_r (e_blk_r - s_blk_r + 1);
  blk_c ← seqZ s_blk_c (e_blk_c - s_blk_c + 1);
  [resolve_block gtm row_start row_num col_start col_num
                 src_buf src_buf_ld blk_r blk_c].

(** A boundary table of [blocks] blocks over [total] rows or columns:
    it starts at 0, ends at [total], and every block is non-empty. *)
Definition displs_valid (displs : list Z) (blocks total : Z) : bool :=
  (0 <? blocks) && (displs.[0] =? 0) && (displs.[blocks] =? total) &&
  forallb (λ i, displs.[i] <? displs.[i + 1]) (seqZ 0 blocks).

Definition tables_valid (gtm : GTMatrix) : bool :=
  displs_valid (r_displs gtm) (r_blocks gtm) (nrows gtm) &&
  displs_valid (c_displs gtm) (c_blocks gtm) (ncols gtm).

(** Element [(r, c)] of the matrix belongs to the sub-rectangle of [u]. *)
Definition covers (r c : Z) (u : SubUpdate) : bool :=
  (blk_r_s u <=? r) && (r <? blk_r_s u + blk_r_num u) &&
  (blk_c_s u <=? c) && (c <? blk_c_s u + blk_c_num u).

Definition in_rect (row_start row_num col_start col_num r c : Z) : bool :=
  (row_start <=? r) && (r <? row_start + row_num) &&
  (col_start <=? c) && (c <? col_start + col_num).

Definition count {A : Type} (p : A → bool) (l : list A) : nat :=
  length (List.filter p l).

(** The sub-rectangle of [u] lies in the tile of block row [blk_r] and
    block column [blk_c], and [u] is addressed to the owner of that tile. *)
Definition in_tile_of (gtm : GTMatrix) (blk_r blk_c : Z) (u : SubUpdate) : Prop :=
  dst_rank u = blk_r * c_blocks gtm + blk_c ∧
  (r_displs gtm).[blk_r] ≤ blk_r_s u ∧
  blk_r_s u + blk_r_num u ≤ (r_displs gtm).[blk_r + 1] ∧
  (c_displs gtm).[blk_c] ≤ blk_c_s u ∧
  blk_c_s u + blk_c_num u ≤ (c_displs gtm).[blk_c + 1].

(** The exposed region of [dst_rank] stores its tile row after row, each
    row [ld_local] elements after the one before: the layout is sound
    when a row of the tile is no longer than [ld_local]. *)
Definition tile_fits_stride (gtm : GTMatrix) (dst_rank : Z) : bool :=
  (c_displs gtm).[Z.rem dst_rank (c_blocks gtm) + 1]
  - (c_displs gtm).[Z.rem dst_rank (c_blocks gtm)] <=? ld_local gtm.

(** The targets [(dst_rank, dst_pos)] of the one-sided operations of a log. *)
Definition accumulate_targets (log : list MPI_Call) : list (Z * Z) :=
  omap (λ c, match c with
             | MPI_Accumulate _ _ dst_rank dst_pos _ _ => Some (dst_rank, dst_pos)
             | _ => None
             end) log.

(** The effect of one call on whether the epoch of [rank] is open. *)
Definition epoch_step (rank : Z) (held : bool) (c : MPI_Call) : bool :=
  match c with
  | MPI_Win_lock _ r => if decide (r = rank) then true else held
  | MPI_Win_unlock r => if decide (r = rank) then false else held
  | _ => held
  end.

(** Whether the log leaves the epoch of [rank] open: its last lock or
    unlock of that rank is a lock. *)
Definition epoch_open (log : list MPI_Call) (rank : Z) : bool :=
  foldl (epoch_step rank) false log.

(** The calls that replay one queued request at [dst_rank]. *)
Definition replay_calls (gtm : GTMatrix) (dst_rank : Z) (req : GTM_Req)
  : list MPI_Call :=
  transfer_calls gtm dst_rank (req_op req) (req_row_start req) (req_row_num req)
    (req_col_start req) (req_col_num req) (req_src_buf req) (req_src_buf_ld req).

Definition req_refused (gtm : GTMatrix) (dst_rank : Z) (req : GTM_Req) : bool :=
  block_refused gtm dst_rank (req_row_start req) (req_row_num req)
                (req_col_start req) (req_col_num req).

(** The queue of destination [d]. *)
Definition queue (g : GTMatrix) (d : Z) : GTM_Req_Vector :=
  arr_get [] (req_vec g) d.

(** Every request queued for [d] passes the sanity check at [d]. *)
Definition accepted (g : GTMatrix) (d : Z) : bool :=
  forallb (λ req, negb (req_refused g d req)) (queue g d).

(** The requests of a queue that come before its first refused one. *)
Fixpoint accepted_prefix (g : GTMatrix) (d : Z) (vec : GTM_Req_Vector)
  : GTM_Req_Vector :=
  match vec with
  | [] => []
  | req :: vec' =>
      if req_refused g d req then [] else req :: accepted_prefix g d vec'
  end.

(** The calls of a complete visit of destination [d]: nothing when its
    queue is empty, else a lock, the replay of the queue from its first
    request to its last, and an unlock. *)
Definition visit_calls (g : GTMatrix) (d : Z) : list MPI_Call :=
  match queue g d with
  | [] => []
  | vec => [MPI_Win_lock (acc_lock_type g) d]
           ++ concat (replay_calls g d <$> vec) ++ [MPI_Win_unlock d]
  end.

(** The ranks in round-robin order: from the caller's own rank up to the
    last rank, then from rank 0 up to the rank before the caller's. *)
Definition round_robin (g : GTMatrix) : list Z :=
  seqZ (my_rank g) (comm_size g - my_rank g) ++ seqZ 0 (my_rank g).

(** A batch epoch in which a request of no rows has reached the queue
    of rank 1, after a good request. *)
Definition gtm_stuck : GTMatrix :=
  mkGTM 4 4 2 2 [0; 2; 4] [0; 2; 4] 2 8 1 1 4 3 0 [0; 0; 0; 0]
        [[]; [mkReq MPI_SUM 0 1 2 1 1000 1; mkReq MPI_SUM 0 0 2 2 2000 2];
         [mkReq MPI_SUM 2 2 0 2 3000 2]; []] 0 1 1 [].

(** A batch epoch with two requests for rank 0 and one for rank 3. *)
Definition gtm_queued : GTMatrix :=
  mkGTM 4 4 2 2 [0; 2; 4] [0; 2; 4] 2 8 1 1 4 3 0 [0; 0; 0; 0]
        [[mkReq MPI_REPLACE 0 2 0 2 1000 4; mkReq MPI_SUM 1 1 1 1 2000 1];
         []; []; [mkReq MPI_REPLACE 2 2 2 2 1080 4]] 0 1 1 [].

(** The spec's scenario: a 4 x 4 matrix split 2 x 2 into four 2 x 2
    tiles, seen from rank 1, idle. *)
Definition gtm_4x4 : GTMatrix :=
  mkGTM 4 4 2 2 [0; 2; 4] [0; 2; 4] 2 8 1 1 4 3 0 [0; 0; 0; 0]
        [[]; []; []; []] 0 0 0 [].

(** The search of one block by the scanning loop: the last index of [l]
    at which [p] holds, [init] when there is none. *)
Definition last_match (p : Z → bool) (init : Z) (l : list Z) : Z :=
  foldl (λ acc i, if p i then i else acc) init l.

(** Block [i] of the table holds row or column [x]. *)
Definition holds (displs : list Z) (x i : Z) : bool :=
  (displs.[i] <=? x) && (x <? displs.[i + 1]).

(** [x] lies on the segment that starts at [lo] and ends at [hi]
    (inclusive), measured as the loop body does: start and length. *)
Definition seg_covers (lo hi x : Z) : bool :=
  (lo <=? x) && (x <? lo + (hi - lo + 1)).

(** The queued form of a sub-update. *)
Definition req_of (op : MPI_Op) (src_buf_ld : Z) (u : SubUpdate) : GTM_Req :=
  mkReq op (blk_r_s u) (blk_r_num u) (blk_c_s u) (blk_c_num u)
        (blk_ptr u) src_buf_ld.

(** The queues after the sub-updates of [us] have been pushed in order. *)
Definition push_all (op : MPI_Op) (src_buf_ld : Z)
    (vecs : list GTM_Req_Vector) (us : list SubUpdate) : list GTM_Req_Vector :=
  foldl (λ vecs u, arr_set vecs (dst_rank u)
                     (arr_get [] vecs (dst_rank u) ++ [req_of op src_buf_ld u]))
        vecs us.

(** The bookkeeping of the non-blocking mode is consistent when the
    outstanding counters are non-negative and the epochs left open by
    the log are those of the destinations with a non-zero counter. *)
Definition nb_consistent (g : GTMatrix) : Prop :=
  ∀ r, 0 ≤ (nb_op_proc_cnt g).[r] ∧
       epoch_open (mpi_log g) r = negb ((nb_op_proc_cnt g).[r] =? 0).

(** The queues after those of the ranks [ds] have been cleared. *)
Definition clear_queues (vecs : list GTM_Req_Vector) (ds : list Z)
  : list GTM_Req_Vector :=
  foldl (λ vecs d, arr_set vecs d []) vecs ds.

(** The same matrix cut into three block rows of which the second is
    empty: a boundary table that is monotonic but not valid. *)
Definition gtm_empty_block : GTMatrix :=
  mkGTM 4 4 3 2 [0; 2; 2; 4] [0; 2; 4] 2 8 1 1 6 3 0 [0; 0; 0; 0; 0; 0]
        [[]; []; []; []; []; []] 0 0 0 [].

(** Two non-blocking operations outstanding, one at rank 0 and one at
    rank 1, with a flush threshold of three. *)
Definition gtm_busy : GTMatrix :=
  mkGTM 4 4 2 2 [0; 2; 4] [0; 2; 4] 2 8 1 1 4 3 2 [1; 1; 0; 0]
        [[]; []; []; []] 0 0 0 [MPI_Win_lock 1 0; MPI_Win_lock 1 1].

(** Request vectors whose storage never runs out: every push is
    accepted. *)
Definition push_always (vec : GTM_Req_Vector) (req : GTM_Req) : retval :=
  GTM_SUCCESS.

(** Request vectors that hold one request at most: a push on a vector
    that is not empty is refused. *)
Definition push_once (vec : GTM_Req_Vector) (req : GTM_Req) : retval :=
  if decide (vec = []) then GTM_SUCCESS else GTM_NULL_PTR.

(** A 65536 x 65536 matrix held by a single process: its tile has
    [2^32] elements. *)
Definition gtm_65536 : GTMatrix :=
  mkGTM 65536 65536 1 1 [0; 65536] [0; 65536] 65536 8 1 0 1 3 0 [0]
        [[]] 0 0 0 [].

(** The 4 x 4 matrix of [gtm_4x4] with a stride of one element, shorter
    than the two columns of a tile. *)
Definition gtm_narrow : GTMatrix :=
  mkGTM 4 4 2 2 [0; 2; 4] [0; 2; 4] 1 8 1 1 4 3 0 [0; 0; 0; 0]
        [[]; []; []; []] 0 0 0 [].

(** ** Vocabulary of the further properties *)

(** The handle a run ends with, whether it returns or aborts. *)
Definition final {S A : Type} (o : outcome S A) : S :=
  match o with
  | Returns _ s => s
  | Aborts s => s
  end.

(** The one-sided operations of a log, in call order. *)
Definition one_sided (log : list MPI_Call) : list MPI_Call :=
  List.filter (λ c, match c with
                    | MPI_Accumulate _ _ _ _ _ _ => true
                    | _ => false
                    end) log.

(** The descriptors a log creates, commits and frees, in call order. *)
Definition created (log : list MPI_Call) : list MPI_Datatype :=
  omap (λ c, match c with
             | MPI_Type_vector count blocklength stride =>
                 Some (type_vector count blocklength stride)
             | _ => None
             end) log.

Definition committed (log : list MPI_Call) : list MPI_Datatype :=
  omap (λ c, match c with MPI_Type_commit dt => Some dt | _ => None end) log.

Definition freed (log : list MPI_Call) : list MPI_Datatype :=
  omap (λ c, match c with MPI_Type_free dt => Some dt | _ => None end) log.

(** The locks and unlocks of a log, in call order. *)
Definition syncs (log : list MPI_Call) : list MPI_Call :=
  List.filter (λ c, match c with
                    | MPI_Win_lock _ _ | MPI_Win_unlock _ => true
                    | _ => false
                    end) log.

(** The calls of one sub-update in blocking mode. *)
Definition blocking_calls (gtm : GTMatrix) (op : MPI_Op) (src_buf_ld : Z)
    (u : SubUpdate) : list MPI_Call :=
  [MPI_Win_lock (acc_lock_type gtm) (dst_rank u)]
  ++ transfer_calls gtm (dst_rank u) op (blk_r_s u) (blk_r_num u)
                    (blk_c_s u) (blk_c_num u) (blk_ptr u) src_buf_ld
  ++ [MPI_Win_unlock (dst_rank u)].

(** The one-sided operations of one sub-update. *)
Definition sub_ops (gtm : GTMatrix) (op : MPI_Op) (src_buf_ld : Z)
    (u : SubUpdate) : list MPI_Call :=
  one_sided (transfer_calls gtm (dst_rank u) op (blk_r_s u) (blk_r_num u)
               (blk_c_s u) (blk_c_num u) (blk_ptr u) src_buf_ld).

(** The sum of the per-destination counters. *)
Definition sum_cnt (cnt : list Z) : Z := foldr Z.add 0 cnt.

(** The flow control of the non-blocking mode is in order when the
    bookkeeping is consistent, the global counter is the sum of the
    per-destination counters, and it is below the threshold. *)
Definition nb_bounded (g : GTMatrix) : Prop :=
  nb_consistent g ∧ nb_op_cnt g = sum_cnt (nb_op_proc_cnt g) ∧
  nb_op_cnt g < max_nb_acc g.

(** The fields of the handle that describe the matrix, the group and the
    configuration. *)
Definition layout (g : GTMatrix)
  : Z * Z * Z * Z * list Z * list Z * Z * Z * Z * Z * Z * Z :=
  (nrows g, ncols g, r_blocks g, c_blocks g, r_displs g, c_displs g,
   ld_local g, unit_size g, acc_lock_type g, my_rank g, comm_size g,
   max_nb_acc g).

(** The three batch flags. *)
Definition batch_flags (g : GTMatrix) : Z * Z * Z :=
  (in_batch_get g, in_batch_put g, in_batch_acc g).

(** The address, in the caller's buffer of leading dimension
    [src_buf_ld] that holds the rectangle starting at
    [(row_start, col_start)], of matrix element [(r, c)]. *)
Definition src_addr (gtm : GTMatrix) (src_buf src_buf_ld row_start col_start r c : Z)
  : Z :=
  src_buf + ((r - row_start) * src_buf_ld + (c - col_start)) * unit_size gtm.

(** The number of elements of the sub-rectangle of [u]. *)
Definition area (u : SubUpdate) : Z := blk_r_num u * blk_c_num u.

(** ** Running the monad *)

Ltac run :=
  repeat (progress (cbv beta delta
    [mbind M_bind mret M_ret get modify mpi assert with_handle] iota)).

Lemma for_each_cons {A : Type} (x : A) (l : list A) (body : A → M retval) g :
  for_each (x :: l) body g =
  match body x g with
  | Returns ret g' =>
      if decide (ret = GTM_SUCCESS) then for_each l body g' else Returns ret g'
  | Aborts g' => Aborts g'
  end.
Proof.
  simpl. unfold mbind, M_bind. destruct (body x g) as [ret g'|g']; [|done].
  by case_decide.
Qed.

Lemma for_each_app {A : Type} (l1 l2 : list A) (body : A → M retval) g :
  for_each (l1 ++ l2) body g =
  match for_each l1 body g with
  | Returns ret g' =>
      if decide (ret = GTM_SUCCESS) then for_each l2 body g' else Returns ret g'
  | Aborts g' => Aborts g'
  end.
Proof.
  revert g. induction l1 as [|x l1 IH]; intros g; simpl.
  - done.
  - unfold mbind, M_bind. destruct (body x g) as [ret g'|g']; [|done].
    destruct (decide (ret = GTM_SUCCESS)) as [->|Hne].
    + apply IH.
    + run. by rewrite decide_False.
Qed.

(** ** Reading arrays *)

Lemma arr_get_set_eq {A : Type} (d : A) (a : list A) (i : Z) (v : A) :
  0 ≤ i < Z.of_nat (length a) → arr_get d (arr_set a i v) i = v.
Proof.
  intros Hi. unfold arr_get, arr_set. rewrite !decide_True by lia.
  rewrite list_lookup_insert_eq by lia. done.
Qed.

Lemma arr_get_set_ne {A : Type} (d : A) (a : list A) (i j : Z) (v : A) :
  i ≠ j → arr_get d (arr_set a i v) j = arr_get d a j.
Proof.
  intros Hne. unfold arr_get, arr_set.
  destruct (decide (0 ≤ j)); [|done].
  destruct (decide (0 ≤ i)); [|done].
  rewrite list_lookup_insert_ne by lia. done.
Qed.

Lemma arr_set_length {A : Type} (a : list A) (i : Z) (v : A) :
  length (arr_set a i v) = length a.
Proof. unfold arr_set. case_decide; [apply length_insert|done]. Qed.

Lemma arr_get_outside {A : Type} (d : A) (a : list A) (i : Z) :
  ¬ 0 ≤ i < Z.of_nat (length a) → arr_get d a i = d.
Proof.
  intros Hi. unfold arr_get. case_decide; [|done].
  rewrite lookup_ge_None_2 by lia. done.
Qed.

(** ** Arithmetic of [int] *)

Lemma wrap_int_fits x : fits_int x → wrap_int x = x.
Proof.
  unfold fits_int, INT_MIN, INT_MAX, wrap_int. intros H.
  rewrite Z.mod_small by lia. lia.
Qed.

Lemma wrap_int_range x : fits_int (wrap_int x).
Proof.
  unfold fits_int, INT_MIN, INT_MAX, wrap_int.
  pose proof (Z.mod_pos_bound (x + 2147483648) 4294967296). lia.
Qed.

Lemma int_add_fits a b : fits_int (a + b) → int_add a b = a + b.
Proof. apply wrap_int_fits. Qed.

Lemma int_sub_fits a b : fits_int (a - b) → int_sub a b = a - b.
Proof. apply wrap_int_fits. Qed.

Lemma int_mul_fits a b : fits_int (a * b) → int_mul a b = a * b.
Proof. apply wrap_int_fits. Qed.

Lemma int_mul_zero a b : a = 0 ∨ b = 0 → int_mul a b = 0.
Proof.
  intros [-> | ->]; unfold int_mul; by rewrite ?Z.mul_0_l, ?Z.mul_0_r.
Qed.

(** ** Validation (C5) *)

(** What the outer validation refuses whether or not a sum overflows. *)
Lemma rect_refused_intro gtm row_start row_num col_start col_num :
  row_start < 0 ∨ col_start < 0 ∨
  (fits_int (row_start + row_num) ∧ row_start + row_num > nrows gtm) ∨
  (fits_int (col_start + col_num) ∧ col_start + col_num > ncols gtm) ∨
  row_num = 0 ∨ col_num = 0 →
  rect_refused gtm row_start row_num col_start col_num = true.
Proof.
  unfold rect_refused.
  rewrite !orb_true_iff, !Z.ltb_lt, !Z.gtb_gt, Z.eqb_eq.
  intros [H|[H|[[Hf H]|[[Hf H]|H]]]].
  - tauto.
  - tauto.
  - rewrite (int_add_fits row_start) by done. tauto.
  - rewrite (int_add_fits col_start) by done. tauto.
  - right. by apply int_mul_zero.
Qed.

(** Without overflow the outer validation refuses these rectangles only. *)
Lemma rect_refused_true gtm row_start row_num col_start col_num :
  fits_int (row_start + row_num) → fits_int (col_start + col_num) →
  fits_int (row_num * col_num) →
  rect_refused gtm row_start row_num col_start col_num = true ↔
  row_start < 0 ∨ col_start < 0 ∨ row_start + row_num > nrows gtm ∨
  col_start + col_num > ncols gtm ∨ row_num = 0 ∨ col_num = 0.
Proof.
  intros Hr Hc Hm. unfold rect_refused.
  rewrite !int_add_fits, int_mul_fits by done.
  rewrite !orb_true_iff, !Z.ltb_lt, !Z.gtb_gt, Z.eqb_eq.
  rewrite Z.mul_eq_0. tauto.
Qed.

Lemma block_refused_intro gtm dst_rank row_start row_num col_start col_num :
  row_start < (r_displs gtm).[Z.quot dst_rank (c_blocks gtm)] ∨
  col_start < (c_displs gtm).[Z.rem dst_rank (c_blocks gtm)] ∨
  (fits_int (row_start + row_num) ∧
   row_start + row_num > (r_displs gtm).[Z.quot dst_rank (c_blocks gtm) + 1]) ∨
  (fits_int (col_start + col_num) ∧
   col_start + col_num > (c_displs gtm).[Z.rem dst_rank (c_blocks gtm) + 1]) ∨
  row_num = 0 ∨ col_num = 0 →
  block_refused gtm dst_rank row_start row_num col_start col_num = true.
Proof.
  unfold block_refused. cbv zeta.
  rewrite !orb_true_iff, !Z.ltb_lt, !Z.gtb_gt, Z.eqb_eq.
  intros [H|[H|[[Hf H]|[[Hf H]|H]]]].
  - tauto.
  - tauto.
  - rewrite (int_add_fits row_start) by done. tauto.
  - rewrite (int_add_fits col_start) by done. tauto.
  - right. by apply int_mul_zero.
Qed.

Lemma block_refused_true gtm dst_rank row_start row_num col_start col_num :
  fits_int (row_start + row_num) → fits_int (col_start + col_num) →
  fits_int (row_num * col_num) →
  block_refused gtm dst_rank row_start row_num col_start col_num = true ↔
  row_start < (r_displs gtm).[Z.quot dst_rank (c_blocks gtm)] ∨
  col_start < (c_displs gtm).[Z.rem dst_rank (c_blocks gtm)] ∨
  row_start + row_num > (r_displs gtm).[Z.quot dst_rank (c_blocks gtm) + 1] ∨
  col_start + col_num > (c_displs gtm).[Z.rem dst_rank (c_blocks gtm) + 1] ∨
  row_num = 0 ∨ col_num = 0.
Proof.
  intros Hr Hc Hm. unfold block_refused. cbv zeta.
  rewrite !int_add_fits, int_mul_fits by done.
  rewrite !orb_true_iff, !Z.ltb_lt, !Z.gtb_gt, Z.eqb_eq.
  rewrite Z.mul_eq_0. tauto.
Qed.

Lemma updateBlockToProcess_refused dst_rank op row_start row_num col_start col_num
    src_buf src_buf_ld g :
  block_refused g dst_rank row_start row_num col_start col_num = true →
  GTM_updateBlockToProcess dst_rank op row_start row_num col_start col_num
    src_buf src_buf_ld g = Returns GTM_INVALID_BLOCK g.
Proof. intros E. unfold GTM_updateBlockToProcess. run. by rewrite E. Qed.

Lemma updateBlockToProcess_accepted dst_rank op row_start row_num col_start col_num
    src_buf src_buf_ld g :
  block_refused g dst_rank row_start row_num col_start col_num = false →
  GTM_updateBlockToProcess dst_rank op row_start row_num col_start col_num
    src_buf src_buf_ld g =
  Returns GTM_SUCCESS
    (set_mpi_log (mpi_log g ++ transfer_calls g dst_rank op row_start row_num
                                 col_start col_num src_buf src_buf_ld) g).
Proof. intros E. unfold GTM_updateBlockToProcess. run. by rewrite E. Qed.

(** C5 (amended). [GTM_updateBlock] returns [GTM_NULL_PTR] on a null
    handle and [GTM_INVALID_BLOCK], leaving the handle as it was, when
    the rectangle has a negative origin, has no row or no column, or
    extends past the matrix with an end [row_start + row_num] (or
    [col_start + col_num]) that is the value of an [int];
    [GTM_updateBlockToProcess] returns [GTM_INVALID_BLOCK] again when the
    block starts before the tile of [dst_rank], has no row or no column,
    or ends after the tile with an end that is the value of an [int]. *)
Theorem updateBlock_error_codes :
  (∀ op row_start row_num col_start col_num src_buf src_buf_ld mode,
     GTM_updateBlock None op row_start row_num col_start col_num
       src_buf src_buf_ld mode = Returns GTM_NULL_PTR None) ∧
  (∀ g op row_start row_num col_start col_num src_buf src_buf_ld mode,
     row_start < 0 ∨ col_start < 0 ∨
     (fits_int (row_start + row_num) ∧ row_start + row_num > nrows g) ∨
     (fits_int (col_start + col_num) ∧ col_start + col_num > ncols g) ∨
     row_num = 0 ∨ col_num = 0 →
     GTM_updateBlock (Some g) op row_start row_num col_start col_num
       src_buf src_buf_ld mode = Returns GTM_INVALID_BLOCK (Some g)) ∧
  (∀ g dst_rank op row_start row_num col_start col_num src_buf src_buf_ld,
     let dst_rowblk := Z.quot dst_rank (c_blocks g) in
     let dst_colblk := Z.rem dst_rank (c_blocks g) in
     row_start < (r_displs g).[dst_rowblk] ∨
     col_start < (c_displs g).[dst_colblk] ∨
     (fits_int (row_start + row_num) ∧
      row_start + row_num > (r_displs g).[dst_rowblk + 1]) ∨
     (fits_int (col_start + col_num) ∧
      col_start + col_num > (c_displs g).[dst_colblk + 1]) ∨
     row_num = 0 ∨ col_num = 0 →
     GTM_updateBlockToProcess dst_rank op row_start row_num col_start col_num
       src_buf src_buf_ld g = Returns GTM_INVALID_BLOCK g).
Proof.
  split; [done|]. split.
  - intros g op rs rn cs cn buf ld mode H.
    apply rect_refused_intro in H.
    unfold GTM_updateBlock. run. by rewrite H.
  - intros g dst op rs rn cs cn buf ld dst_rowblk dst_colblk H.
    apply updateBlockToProcess_refused, block_refused_intro. exact H.
Qed.

(** ** Address translation (C6) *)

Lemma accumulate_targets_app l1 l2 :
  accumulate_targets (l1 ++ l2) = accumulate_targets l1 ++ accumulate_targets l2.
Proof. unfold accumulate_targets. apply omap_app. Qed.

Lemma transfer_calls_targets g dst_rank op row_start row_num col_start col_num
    src_buf src_buf_ld :
  accumulate_targets (transfer_calls g dst_rank op row_start row_num
                        col_start col_num src_buf src_buf_ld) =
  [(dst_rank, dst_pos_of g dst_rank row_start col_start)].
Proof.
  unfold transfer_calls. cbv zeta.
  destruct (_ && _); [|done].
  destruct (decide (col_num = src_buf_ld)); [done|].
  destruct (decide (ld_local g = src_buf_ld)); done.
Qed.

(** Inside a tile whose rows fit the stride and whose exposed region
    has no more than [INT_MAX] elements, no operation of the offset
    overflows. *)
Lemma dst_pos_of_exact g dst_rank r c :
  let tile_row_start := (r_displs g).[Z.quot dst_rank (c_blocks g)] in
  let tile_row_end := (r_displs g).[Z.quot dst_rank (c_blocks g) + 1] in
  let tile_col_start := (c_displs g).[Z.rem dst_rank (c_blocks g)] in
  let tile_col_end := (c_displs g).[Z.rem dst_rank (c_blocks g) + 1] in
  let offset := (r - tile_row_start) * ld_local g + (c - tile_col_start) in
  tile_fits_stride g dst_rank = true →
  ld_local g * (tile_row_end - tile_row_start) ≤ INT_MAX →
  tile_row_start ≤ r < tile_row_end →
  tile_col_start ≤ c < tile_col_end →
  dst_pos_of g dst_rank r c = offset ∧
  0 ≤ offset < ld_local g * (tile_row_end - tile_row_start).
Proof.
  intros trs tre tcs tce offset Hld Hsize Hr Hc.
  apply Z.leb_le in Hld. fold tcs tce in Hld.
  assert (Hoff : 0 ≤ offset < ld_local g * (tre - trs)) by (subst offset; nia).
  split; [|done].
  unfold dst_pos_of. cbv zeta. fold trs tcs.
  unfold INT_MAX in Hsize.
  rewrite (int_sub_fits r), (int_sub_fits c), int_mul_fits, int_add_fits;
    unfold fits_int, INT_MIN, INT_MAX; subst offset; try done; nia.
Qed.

(** C6 (amended). For a non-empty block inside the tile of [dst_rank],
    in a region whose stride holds a row of that tile and which has no
    more than [INT_MAX] elements, the bounds of the tile being [int]s:
    [GTM_updateBlockToProcess] issues exactly one one-sided operation, at
    offset
    [(row_start - tile_row_start) * ld_local + (col_start - tile_col_start)],
    and that offset is in [[0, ld_local * tile_row_count)]. *)
Theorem updateBlockToProcess_offset g dst_rank op row_start row_num col_start
    col_num src_buf src_buf_ld :
  let tile_row_start := (r_displs g).[Z.quot dst_rank (c_blocks g)] in
  let tile_row_end := (r_displs g).[Z.quot dst_rank (c_blocks g) + 1] in
  let tile_col_start := (c_displs g).[Z.rem dst_rank (c_blocks g)] in
  let tile_col_end := (c_displs g).[Z.rem dst_rank (c_blocks g) + 1] in
  let offset :=
    (row_start - tile_row_start) * ld_local g + (col_start - tile_col_start) in
  tile_fits_stride g dst_rank = true →
  fits_int tile_row_start → fits_int tile_row_end →
  fits_int tile_col_start → fits_int tile_col_end →
  ld_local g * (tile_row_end - tile_row_start) ≤ INT_MAX →
  0 < row_num → 0 < col_num →
  tile_row_start ≤ row_start → row_start + row_num ≤ tile_row_end →
  tile_col_start ≤ col_start → col_start + col_num ≤ tile_col_end →
  ∃ g',
    GTM_updateBlockToProcess dst_rank op row_start row_num col_start col_num
      src_buf src_buf_ld g = Returns GTM_SUCCESS g' ∧
    accumulate_targets (mpi_log g') =
      accumulate_targets (mpi_log g) ++ [(dst_rank, offset)] ∧
    0 ≤ offset < ld_local g * (tile_row_end - tile_row_start).
Proof.
  intros trs tre tcs tce offset Hld Htrs Htre Htcs Htce Hsize Hrn Hcn
    Hr1 Hr2 Hc1 Hc2.
  destruct (dst_pos_of_exact g dst_rank row_start col_start Hld Hsize)
    as [Hpos Hoff]; [fold trs tre; lia|fold tcs tce; lia|].
  fold trs tre tcs tce offset in Hpos, Hoff.
  apply Z.leb_le in Hld. fold tcs tce in Hld.
  unfold fits_int, INT_MIN, INT_MAX in *.
  eexists. split; [|split].
  - apply updateBlockToProcess_accepted.
    apply not_true_is_false. rewrite block_refused_true.
    + fold trs tre tcs tce. lia.
    + unfold fits_int, INT_MIN, INT_MAX. lia.
    + unfold fits_int, INT_MIN, INT_MAX. lia.
    + unfold fits_int, INT_MIN, INT_MAX. nia.
  - simpl. rewrite accumulate_targets_app, transfer_calls_targets, Hpos. done.
  - done.
Qed.

(** ** Descriptor selection (C4) *)

(** C4. When the block passes the sanity check, the calls appended to the
    log are the ones of the priority policy: within the small-block bound
    the destination side uses the cached descriptor
    [(row_num - 1) * bound + (col_num - 1)], and the source side uses the
    cached no-stride descriptor when [src_buf_ld = col_num], else the same
    cached descriptor when [src_buf_ld = ld_local], else a one-off vector
    freed right after the operation; beyond the bound both sides use
    one-off vectors, both freed right after the operation. *)
Theorem updateBlockToProcess_descriptors g dst_rank op row_start row_num
    col_start col_num src_buf src_buf_ld :
  block_refused g dst_rank row_start row_num col_start col_num = false →
  let id := (row_num - 1) * MPI_DT_SB_DIM_MAX + (col_num - 1) in
  let dst_pos := dst_pos_of g dst_rank row_start col_start in
  let one_off_src := type_vector row_num col_num src_buf_ld in
  let one_off_dst := type_vector row_num col_num (ld_local g) in
  ∃ calls,
    GTM_updateBlockToProcess dst_rank op row_start row_num col_start col_num
      src_buf src_buf_ld g =
      Returns GTM_SUCCESS (set_mpi_log (mpi_log g ++ calls) g) ∧
    (row_num ≤ MPI_DT_SB_DIM_MAX ∧ col_num ≤ MPI_DT_SB_DIM_MAX →
       (src_buf_ld = col_num →
          calls = [MPI_Accumulate src_buf (sb_nostride id) dst_rank dst_pos
                                  (sb_stride id) op]) ∧
       (src_buf_ld ≠ col_num → src_buf_ld = ld_local g →
          calls = [MPI_Accumulate src_buf (sb_stride id) dst_rank dst_pos
                                  (sb_stride id) op]) ∧
       (src_buf_ld ≠ col_num → src_buf_ld ≠ ld_local g →
          calls = [MPI_Type_vector row_num col_num src_buf_ld;
                   MPI_Type_commit one_off_src;
                   MPI_Accumulate src_buf one_off_src dst_rank dst_pos
                                  (sb_stride id) op;
                   MPI_Type_free one_off_src])) ∧
    (row_num > MPI_DT_SB_DIM_MAX ∨ col_num > MPI_DT_SB_DIM_MAX →
       calls = [MPI_Type_vector row_num col_num (ld_local g);
                MPI_Type_vector row_num col_num src_buf_ld;
                MPI_Type_commit one_off_dst;
                MPI_Type_commit one_off_src;
                MPI_Accumulate src_buf one_off_src dst_rank dst_pos
                               one_off_dst op;
                MPI_Type_free one_off_dst;
                MPI_Type_free one_off_src]).
Proof.
  intros Hok id dst_pos one_off_src one_off_dst.
  eexists. split; [by apply updateBlockToProcess_accepted|].
  unfold transfer_calls. cbv zeta. fold id dst_pos one_off_src one_off_dst.
  destruct (Z.leb_spec row_num MPI_DT_SB_DIM_MAX) as [Hr|Hr];
    destruct (Z.leb_spec col_num MPI_DT_SB_DIM_MAX) as [Hc|Hc]; simpl;
    (split; [intros [? ?]|intros [?|?]]); try lia; try done.
  repeat split; intros; repeat case_decide; congruence.
Qed.

(** ** The batch epoch state machine (C9) *)

Lemma arr_get_set_default {A : Type} (d : A) (a : list A) (i : Z) :
  arr_get d (arr_set a i d) i = d.
Proof.
  destruct (decide (0 ≤ i < Z.of_nat (length a))).
  - by apply arr_get_set_eq.
  - apply arr_get_outside. by rewrite arr_set_length.
Qed.

Lemma reset_all_get (l : list Z) (vecs : list GTM_Req_Vector) (i : Z) :
  arr_get [] (foldl (λ vecs i, arr_set vecs i
                       (GTM_resetReqVector (arr_get [] vecs i))) vecs l) i =
  if decide (i ∈ l) then [] else arr_get [] vecs i.
Proof.
  revert vecs. induction l as [|x l IH]; intros vecs.
  - destruct (decide (i ∈ [])) as [H|_]; [by apply elem_of_nil in H|done].
  - change (foldl ?f vecs (x :: l)) with (foldl f (f vecs x) l).
    rewrite IH. unfold GTM_resetReqVector.
    destruct (decide (i ∈ l)) as [Hin|Hin].
    + rewrite decide_True; [done|]. by right.
    + destruct (decide (i = x)) as [->|Hne].
      * rewrite decide_True by left. apply arr_get_set_default.
      * rewrite decide_False.
        -- by apply arr_get_set_ne.
        -- rewrite elem_of_cons. tauto.
Qed.

Lemma reset_all_length (l : list Z) (vecs : list GTM_Req_Vector) :
  length (foldl (λ vecs i, arr_set vecs i
                   (GTM_resetReqVector (arr_get [] vecs i))) vecs l) =
  length vecs.
Proof.
  revert vecs. induction l as [|x l IH]; intros vecs; simpl; [done|].
  by rewrite IH, arr_set_length.
Qed.

(** C9. [GTM_startBatchUpdate] fails with the code of the batch that is
    already active and otherwise empties the queue of every rank below
    [comm_size] and sets the put and accumulate flags together;
    [GTM_execBatchUpdate] and [GTM_stopBatchUpdate] fail with
    [GTM_NO_BATCHED_PUT] or [GTM_NO_BATCHED_ACC] when the corresponding
    flag is clear; [GTM_stopBatchUpdate] otherwise clears both flags and
    touches neither the queues nor MPI. *)
Theorem batch_epoch_state_machine (g : GTMatrix) :
  (in_batch_get g ≠ 0 →
     GTM_startBatchUpdate (Some g) = Returns GTM_IN_BATCHED_GET (Some g)) ∧
  (in_batch_get g = 0 → in_batch_put g ≠ 0 →
     GTM_startBatchUpdate (Some g) = Returns GTM_IN_BATCHED_PUT (Some g)) ∧
  (in_batch_get g = 0 → in_batch_put g = 0 → in_batch_acc g ≠ 0 →
     GTM_startBatchUpdate (Some g) = Returns GTM_IN_BATCHED_ACC (Some g)) ∧
  (in_batch_get g = 0 → in_batch_put g = 0 → in_batch_acc g = 0 →
     ∃ g', GTM_startBatchUpdate (Some g) = Returns GTM_SUCCESS (Some g') ∧
       in_batch_put g' = 1 ∧ in_batch_acc g' = 1 ∧
       in_batch_get g' = 0 ∧
       length (req_vec g') = length (req_vec g) ∧
       (∀ i, 0 ≤ i < comm_size g → arr_get [] (req_vec g') i = []) ∧
       mpi_log g' = mpi_log g) ∧
  (in_batch_put g = 0 →
     GTM_execBatchUpdate g = Returns GTM_NO_BATCHED_PUT g ∧
     GTM_stopBatchUpdate (Some g) = Returns GTM_NO_BATCHED_PUT (Some g)) ∧
  (in_batch_put g ≠ 0 → in_batch_acc g = 0 →
     GTM_execBatchUpdate g = Returns GTM_NO_BATCHED_ACC g ∧
     GTM_stopBatchUpdate (Some g) = Returns GTM_NO_BATCHED_ACC (Some g)) ∧
  (in_batch_put g ≠ 0 → in_batch_acc g ≠ 0 →
     ∃ g', GTM_stopBatchUpdate (Some g) = Returns GTM_SUCCESS (Some g') ∧
       in_batch_put g' = 0 ∧ in_batch_acc g' = 0 ∧
       req_vec g' = req_vec g ∧ mpi_log g' = mpi_log g).
Proof.
  unfold GTM_startBatchUpdate, GTM_stopBatchUpdate, GTM_execBatchUpdate.
  repeat split; intros; run; repeat case_decide; try done.
  - eexists. split; [reflexivity|]. simpl.
    repeat split; try done.
    + apply reset_all_length.
    + intros i Hi. rewrite reset_all_get.
      rewrite decide_True; [done|]. apply elem_of_seqZ. lia.
  - eexists. split; [reflexivity|]. done.
Qed.

(** ** The block searches *)

Lemma find_blocks_pair displs first last l s e :
  foldl (λ '(s_blk, e_blk) i,
           (if holds displs first i then i else s_blk,
            if holds displs last i then i else e_blk)) (s, e) l =
  (last_match (holds displs first) s l, last_match (holds displs last) e l).
Proof.
  revert s e. induction l as [|i l IH]; intros s e; [done|].
  simpl. by rewrite IH.
Qed.

Lemma find_blocks_split displs blocks first last :
  find_blocks displs blocks first last =
  (last_match (holds displs first) 0 (seqZ 0 blocks),
   last_match (holds displs last) (-1) (seqZ 0 blocks)).
Proof. apply find_blocks_pair. Qed.

Lemma last_match_snoc p init l i :
  last_match p init (l ++ [i]) = if p i then i else last_match p init l.
Proof. unfold last_match. by rewrite foldl_app. Qed.

Lemma last_match_cases p init l :
  (last_match p init l = init ∧ ∀ i, i ∈ l → p i = false) ∨
  (last_match p init l ∈ l ∧ p (last_match p init l) = true).
Proof.
  induction l as [|i l IH] using rev_ind.
  - left. split; [done|]. intros i Hi. by apply elem_of_nil in Hi.
  - rewrite last_match_snoc. destruct (p i) eqn:Hp.
    + right. split; [|done]. apply elem_of_app. right. by left.
    + destruct IH as [[-> Hall]|[Hin Ht]].
      * left. split; [done|]. intros j Hj.
        apply elem_of_app in Hj as [Hj|Hj]; [by apply Hall|].
        apply list_elem_of_singleton in Hj. by subst.
      * right. split; [|done]. apply elem_of_app. by left.
Qed.

Lemma last_match_unique p init l k :
  k ∈ l → p k = true → (∀ i, i ∈ l → p i = true → i = k) →
  last_match p init l = k.
Proof.
  intros Hk Hpk Huniq.
  destruct (last_match_cases p init l) as [[_ Hall]|[Hin Ht]].
  - rewrite Hall in Hpk by done. done.
  - by apply Huniq.
Qed.

Lemma displs_valid_spec displs blocks total :
  displs_valid displs blocks total = true ↔
  0 < blocks ∧ displs.[0] = 0 ∧ displs.[blocks] = total ∧
  ∀ i, 0 ≤ i < blocks → displs.[i] < displs.[i + 1].
Proof.
  unfold displs_valid.
  rewrite !andb_true_iff, Z.ltb_lt, !Z.eqb_eq, forallb_forall.
  setoid_rewrite <- list_elem_of_In. setoid_rewrite elem_of_seqZ.
  setoid_rewrite Z.ltb_lt.
  split; intros H; repeat split; try tauto;
    intros i Hi; apply H; lia.
Qed.

Section table.
Variables (displs : list Z) (blocks : Z).
Hypothesis step : ∀ i, 0 ≤ i < blocks → displs.[i] < displs.[i + 1].

Lemma displs_mono i j : 0 ≤ i → i ≤ j → j ≤ blocks → displs.[i] ≤ displs.[j].
Proof using step.
  intros Hi Hij Hj.
  assert (Hn : ∀ n : nat, i + Z.of_nat n ≤ blocks →
                 displs.[i] ≤ displs.[i + Z.of_nat n]).
  { induction n as [|n IH]; intros Hle.
    - replace (i + Z.of_nat 0) with i by lia. lia.
    - replace (i + Z.of_nat (S n)) with (i + Z.of_nat n + 1) by lia.
      pose proof (step (i + Z.of_nat n)). lia. }
  replace j with (i + Z.of_nat (Z.to_nat (j - i))) by lia.
  apply Hn. lia.
Qed.

Lemma holds_exists x :
  displs.[0] ≤ x < displs.[blocks] → 0 ≤ blocks →
  ∃ k, 0 ≤ k < blocks ∧ holds displs x k = true.
Proof using step.
  intros Hx Hb.
  assert (Hn : ∀ n : nat, Z.of_nat n ≤ blocks → x < displs.[Z.of_nat n] →
                 ∃ k, 0 ≤ k < Z.of_nat n ∧ holds displs x k = true).
  { induction n as [|n IH]; intros Hle Hlt;
      [change (Z.of_nat 0) with 0 in Hlt; lia|].
    destruct (decide (x < displs.[Z.of_nat n])) as [Hlt'|Hge].
    - destruct IH as (k & Hk & Hh); [lia|done|].
      exists k. split; [lia|done].
    - exists (Z.of_nat n). split; [lia|].
      unfold holds. replace (Z.of_nat n + 1) with (Z.of_nat (S n)) by lia.
      apply andb_true_iff. rewrite Z.leb_le, Z.ltb_lt. lia. }
  destruct (Hn (Z.to_nat blocks)) as (k & Hk & Hh).
  - lia.
  - replace (Z.of_nat (Z.to_nat blocks)) with blocks by lia. lia.
  - exists k. split; [lia|done].
Qed.

Lemma holds_unique x k j :
  0 ≤ k < blocks → 0 ≤ j < blocks →
  holds displs x k = true → holds displs x j = true → k = j.
Proof using step.
  unfold holds. rewrite !andb_true_iff, !Z.leb_le, !Z.ltb_lt.
  intros Hk Hj [Hk1 Hk2] [Hj1 Hj2].
  destruct (Z.lt_trichotomy k j) as [Hlt|[Heq|Hgt]]; [|done|].
  - pose proof (displs_mono (k + 1) j). lia.
  - pose proof (displs_mono (j + 1) k). lia.
Qed.

(** On a table with non-empty blocks the scan finds the one block that
    holds [x]. *)
Lemma last_match_holds x init k :
  0 ≤ k < blocks → holds displs x k = true →
  last_match (holds displs x) init (seqZ 0 blocks) = k.
Proof using step.
  intros Hk Hh. apply last_match_unique; [apply elem_of_seqZ; lia|done|].
  intros i Hi Hhi. apply elem_of_seqZ in Hi.
  apply (holds_unique x); [lia|lia|done|done].
Qed.
End table.

(** ** Rectangles with two negative dimensions (C10) *)

Lemma last_match_below displs blocks x init :
  (∀ i, 0 ≤ i < blocks → x < displs.[i]) →
  last_match (holds displs x) init (seqZ 0 blocks) = init.
Proof.
  intros Hlow.
  destruct (last_match_cases (holds displs x) init (seqZ 0 blocks))
    as [[E _]|[Hin Ht]]; [done|].
  set (k := last_match (holds displs x) init (seqZ 0 blocks)) in *.
  apply elem_of_seqZ in Hin. specialize (Hlow k). 
  unfold holds in Ht. apply andb_true_iff in Ht as [Ht _].
  apply Z.leb_le in Ht. lia.
Qed.

Lemma last_match_nonneg p l : 0 ≤ last_match p 0 (seqZ 0 l).
Proof.
  destruct (last_match_cases p 0 (seqZ 0 l)) as [[-> _]|[Hin _]]; [done|].
  apply elem_of_seqZ in Hin. lia.
Qed.

(** C10. On a handle with valid tables the rectangle with origin (0, 0),
    -1 rows and -1 columns passes the validation (the product of its
    dimensions is 1), no block holds its last row, and
    [GTM_updateBlock] returns [GTM_SUCCESS] having changed nothing: no
    queue, no counter, no MPI call. *)
Theorem updateBlock_negative_dims g op src_buf src_buf_ld mode :
  tables_valid g = true →
  rect_refused g 0 (-1) 0 (-1) = false ∧
  GTM_updateBlock (Some g) op 0 (-1) 0 (-1) src_buf src_buf_ld mode =
    Returns GTM_SUCCESS (Some g).
Proof.
  intros Hv. apply andb_true_iff in Hv as [Hr Hc].
  apply displs_valid_spec in Hr as (Hrb & Hr0 & Hrn & Hrs).
  apply displs_valid_spec in Hc as (Hcb & Hc0 & Hcn & Hcs).
  assert (Hnr : 0 ≤ nrows g).
  { pose proof (displs_mono _ _ Hrs 0 (r_blocks g)). lia. }
  assert (Hnc : 0 ≤ ncols g).
  { pose proof (displs_mono _ _ Hcs 0 (c_blocks g)). lia. }
  assert (Hok : rect_refused g 0 (-1) 0 (-1) = false).
  { apply not_true_is_false.
    rewrite rect_refused_true by (unfold fits_int, INT_MIN, INT_MAX; lia).
    lia. }
  split; [done|].
  unfold GTM_updateBlock. run. rewrite Hok.
  rewrite !find_blocks_split.
  rewrite (last_match_below (r_displs g) (r_blocks g) (0 + -1 - 1) (-1)).
  - unfold for_range. rewrite seqZ_nil; [done|].
    pose proof (last_match_nonneg (holds (r_displs g) 0) (r_blocks g)). lia.
  - intros i Hi.
    pose proof (displs_mono _ _ Hrs 0 i). lia.
Qed.

(** ** Loops over the enumerated sub-updates *)

Lemma for_each_ext {A : Type} (l : list A) (body1 body2 : A → M retval) g :
  (∀ x g', x ∈ l → body1 x g' = body2 x g') →
  for_each l body1 g = for_each l body2 g.
Proof.
  revert g. induction l as [|x l IH]; intros g Hext; [done|].
  simpl. unfold mbind, M_bind. rewrite Hext by left.
  destruct (body2 x g) as [ret g'|g']; [|done].
  case_decide; [|done]. apply IH. intros y g'' Hy. apply Hext. by right.
Qed.

Lemma for_each_bind {A B : Type} (f : A → list B) (l : list A)
    (body : B → M retval) g :
  for_each (l ≫= f) body g = for_each l (λ x, for_each (f x) body) g.
Proof.
  revert g. induction l as [|x l IH]; intros g; [done|].
  rewrite bind_cons, for_each_app. simpl. unfold mbind at 2, M_bind.
  destruct (for_each (f x) body g) as [ret g'|g']; [|done].
  case_decide; [apply IH|done].
Qed.

Lemma assert_true {A : Type} (b : bool) (m : M A) g :
  b = true → (assert b;; m) g = m g.
Proof. intros ->. done. Qed.

(** ** Counting the sub-rectangles that cover an element *)

Lemma count_app {A : Type} (p : A → bool) l1 l2 :
  count p (l1 ++ l2) = (count p l1 + count p l2)%nat.
Proof. unfold count. by rewrite List.filter_app, length_app. Qed.

Lemma count_ext {A : Type} (p q : A → bool) l :
  (∀ x, x ∈ l → p x = q x) → count p l = count q l.
Proof.
  unfold count. intros Hext. f_equal. apply List.filter_ext_in.
  intros x Hx. apply Hext. by apply list_elem_of_In.
Qed.

Lemma count_false {A : Type} (p : A → bool) l :
  (∀ x, x ∈ l → p x = false) → count p l = 0%nat.
Proof.
  induction l as [|x l IH]; intros Hall; [done|].
  unfold count in *. simpl. rewrite Hall by left. apply IH.
  intros y Hy. apply Hall. by right.
Qed.

Lemma count_cons {A : Type} (p : A → bool) x l :
  count p (x :: l) = ((if p x then 1 else 0) + count p l)%nat.
Proof. unfold count. simpl. by destruct (p x). Qed.

Lemma count_fmap {A B : Type} (h : A → B) (p : B → bool) l :
  count p (h <$> l) = count (λ x, p (h x)) l.
Proof.
  induction l as [|x l IH]; [done|].
  by rewrite fmap_cons, !count_cons, IH.
Qed.

Lemma count_andb_l {A : Type} (b : bool) (p : A → bool) l :
  count (λ x, b && p x) l = if b then count p l else 0%nat.
Proof.
  destruct b; simpl.
  - by apply count_ext.
  - by apply count_false.
Qed.

Lemma count_product {A B C : Type} (mk : A → B → C) (p : A → bool) (q : B → bool)
    (t : C → bool) (la : list A) (lb : list B) :
  (∀ a b, t (mk a b) = p a && q b) →
  count t (a ← la; b ← lb; [mk a b]) = (count p la * count q lb)%nat.
Proof.
  intros Ht. induction la as [|a la IH]; [done|].
  rewrite bind_cons, count_app, IH.
  replace (lb ≫= λ b, [mk a b]) with (mk a <$> lb).
  - rewrite count_fmap.
    rewrite (count_ext _ (λ b, p a && q b)) by (intros; apply Ht).
    rewrite count_andb_l, count_cons.
    destruct (p a); simpl; lia.
  - clear. induction lb as [|b lb IH]; [done|].
    rewrite bind_cons, fmap_cons. simpl. by rewrite IH.
Qed.

Lemma count_unique (p : Z → bool) (l : list Z) (k : Z) :
  NoDup l → (∀ x, x ∈ l → p x = true ↔ x = k) →
  count p l = if decide (k ∈ l) then 1%nat else 0%nat.
Proof.
  intros Hnd Hp. induction Hnd as [|x l Hx Hnd IH].
  - rewrite decide_False; [done|]. apply not_elem_of_nil.
  - rewrite count_cons.
    rewrite IH by (intros y Hy; apply Hp; by right).
    destruct (p x) eqn:Hpx.
    + apply Hp in Hpx; [|left]. subst x.
      rewrite decide_False by done. rewrite decide_True; [done|by left].
    + destruct (decide (k ∈ l)) as [Hk|Hk].
      * rewrite decide_True; [done|by right].
      * rewrite decide_False; [done|].
        rewrite elem_of_cons. intros [->|?]; [|done].
        assert (p x = true) by (apply Hp; [left|done]). congruence.
Qed.

(** ** One dimension of the decomposition *)

Section one_dimension.
Variables (displs : list Z) (blocks total : Z).
Hypothesis valid : displs_valid displs blocks total = true.
Variables (first num : Z).
Hypothesis first_nonneg : 0 ≤ first.
Hypothesis num_pos : 0 < num.
Hypothesis inside : first + num ≤ total.

Let last := first + num - 1.
Let s_blk := last_match (holds displs first) 0 (seqZ 0 blocks).
Let e_blk := last_match (holds displs last) (-1) (seqZ 0 blocks).

Lemma valid_step : ∀ i, 0 ≤ i < blocks → displs.[i] < displs.[i + 1].
Proof using valid. apply displs_valid_spec in valid. tauto. Qed.

Lemma found_blocks :
  0 ≤ s_blk ∧ s_blk ≤ e_blk ∧ e_blk < blocks ∧
  holds displs first s_blk = true ∧ holds displs last e_blk = true.
Proof using valid first_nonneg num_pos inside.
  pose proof valid_step as Hstep.
  apply displs_valid_spec in valid as (Hb & H0 & Hn & _).
  destruct (holds_exists displs blocks Hstep first) as (ks & Hks & Hhs);
    [lia|lia|].
  destruct (holds_exists displs blocks Hstep last) as (ke & Hke & Hhe);
    [subst last; lia|lia|].
  subst s_blk e_blk.
  rewrite (last_match_holds displs blocks Hstep first 0 ks) by done.
  rewrite (last_match_holds displs blocks Hstep last (-1) ke) by done.
  repeat split; try lia; try done.
  destruct (decide (ks ≤ ke)) as [|Hgt]; [done|].
  unfold holds in Hhs, Hhe.
  apply andb_true_iff in Hhs as [Hs1 Hs2], Hhe as [He1 He2].
  apply Z.leb_le in Hs1, He1. apply Z.ltb_lt in Hs2, He2.
  pose proof (displs_mono displs blocks Hstep (ke + 1) ks).
  subst last. lia.
Qed.

(** Every block between the two found blocks meets the segment, and
    the common part stays inside the block. *)
Lemma block_meets blk :
  s_blk ≤ blk ≤ e_blk →
  0 ≤ blk < blocks ∧
  Z.max displs.[blk] first ≤ Z.min (displs.[blk + 1] - 1) last ∧
  displs.[blk] ≤ Z.max displs.[blk] first ∧
  Z.min (displs.[blk + 1] - 1) last < displs.[blk + 1].
Proof using valid first_nonneg num_pos inside.
  intros Hblk. pose proof valid_step as Hstep.
  destruct found_blocks as (Hs & Hse & He & Hhs & Hhe).
  unfold holds in Hhs, Hhe.
  apply andb_true_iff in Hhs as [Hs1 Hs2], Hhe as [He1 He2].
  apply Z.leb_le in Hs1, He1. apply Z.ltb_lt in Hs2, He2.
  pose proof (displs_mono displs blocks Hstep (s_blk + 1) (blk + 1)).
  pose proof (displs_mono displs blocks Hstep blk e_blk).
  pose proof (Hstep blk).
  subst last. lia.
Qed.

(** Each element of the segment is covered by exactly one of the
    common parts, and no other element is covered. *)
Lemma segment_tiled x :
  count (λ blk, seg_covers (Z.max displs.[blk] first)
                  (Z.min (displs.[blk + 1] - 1) last) x)
        (seqZ s_blk (e_blk - s_blk + 1)) =
  if (first <=? x) && (x <? first + num) then 1%nat else 0%nat.
Proof using valid first_nonneg num_pos inside.
  pose proof valid_step as Hstep.
  destruct found_blocks as (Hs & Hse & He & Hhs & Hhe).
  destruct ((first <=? x) && (x <? first + num)) eqn:Hx.
  - apply andb_true_iff in Hx as [Hx1 Hx2].
    apply Z.leb_le in Hx1. apply Z.ltb_lt in Hx2.
    unfold holds in Hhs, Hhe.
    apply andb_true_iff in Hhs as [Hs1 Hs2], Hhe as [He1 He2].
    apply Z.leb_le in Hs1, He1. apply Z.ltb_lt in Hs2, He2.
    pose proof valid as Hv.
    apply displs_valid_spec in Hv as (Hb & H0 & Hn & _).
    destruct (holds_exists displs blocks Hstep x) as (k & Hk & Hhk);
      [lia|lia|].
    assert (Hk' := Hhk). unfold holds in Hk'.
    apply andb_true_iff in Hk' as [Hk1 Hk2].
    apply Z.leb_le in Hk1. apply Z.ltb_lt in Hk2.
    assert (Hrange : s_blk ≤ k ≤ e_blk).
    { pose proof (displs_mono displs blocks Hstep (k + 1) s_blk).
      pose proof (displs_mono displs blocks Hstep (e_blk + 1) k).
      subst last. lia. }
    rewrite (count_unique _ _ k).
    + rewrite decide_True; [done|]. apply elem_of_seqZ. lia.
    + apply NoDup_seqZ.
    + intros blk Hblk. apply elem_of_seqZ in Hblk.
      destruct (block_meets blk) as (Hb1 & Hb2 & Hb3 & Hb4); [lia|].
      split.
      * intros Hc. apply (holds_unique displs blocks Hstep x); [lia|lia| |done].
        unfold seg_covers in Hc. apply andb_true_iff in Hc as [Hc1 Hc2].
        apply Z.leb_le in Hc1. apply Z.ltb_lt in Hc2.
        unfold holds. apply andb_true_iff.
        rewrite Z.leb_le, Z.ltb_lt. lia.
      * intros ->. unfold seg_covers. apply andb_true_iff.
        rewrite Z.leb_le, Z.ltb_lt. subst last. lia.
  - apply count_false. intros blk Hblk. apply elem_of_seqZ in Hblk.
    destruct (block_meets blk) as (Hb1 & Hb2 & Hb3 & Hb4); [lia|].
    apply not_true_is_false. intros Hc.
    unfold seg_covers in Hc. apply andb_true_iff in Hc as [Hc1 Hc2].
    apply Z.leb_le in Hc1. apply Z.ltb_lt in Hc2.
    apply not_true_iff_false in Hx. apply Hx.
    apply andb_true_iff. rewrite Z.leb_le, Z.ltb_lt. subst last. lia.
Qed.
End one_dimension.

(** ** The decomposition of a rectangle (C1) *)

Lemma for_each_singleton {A : Type} (x : A) (body : A → M retval) g :
  for_each [x] body g = body x g.
Proof.
  simpl. unfold mbind, M_bind. destruct (body x g) as [ret g'|g']; [|done].
  case_decide; [by subst|done].
Qed.

Lemma covers_resolve_block g row_start row_num col_start col_num src_buf
    src_buf_ld blk_r blk_c r c :
  covers r c (resolve_block g row_start row_num col_start col_num
                            src_buf src_buf_ld blk_r blk_c) =
  seg_covers (Z.max (r_displs g).[blk_r] row_start)
             (Z.min ((r_displs g).[blk_r + 1] - 1) (row_start + row_num - 1)) r &&
  seg_covers (Z.max (c_displs g).[blk_c] col_start)
             (Z.min ((c_displs g).[blk_c + 1] - 1) (col_start + col_num - 1)) c.
Proof. unfold covers, seg_covers, resolve_block. simpl. by rewrite andb_assoc. Qed.

(** The owner of a tile finds its block row and block column again, so
    a sub-rectangle inside the tile passes its sanity check. *)
Lemma in_tile_accepted g blk_r blk_c u :
  0 ≤ blk_r → 0 ≤ blk_c < c_blocks g →
  0 < blk_r_num u → 0 < blk_c_num u →
  fits_int (blk_r_s u + blk_r_num u) → fits_int (blk_c_s u + blk_c_num u) →
  fits_int (blk_r_num u * blk_c_num u) →
  in_tile_of g blk_r blk_c u →
  block_refused g (dst_rank u) (blk_r_s u) (blk_r_num u)
                (blk_c_s u) (blk_c_num u) = false.
Proof.
  intros Hr Hc Hrn Hcn Hfr Hfc Hfm (Hrank & H1 & H2 & H3 & H4).
  apply not_true_is_false. rewrite block_refused_true by done. rewrite Hrank.
  assert (Hq : Z.quot (blk_r * c_blocks g + blk_c) (c_blocks g) = blk_r).
  { rewrite Z.quot_div_nonneg by nia. symmetry.
    apply (Z.div_unique_pos _ _ blk_r blk_c); lia. }
  assert (Hm : Z.rem (blk_r * c_blocks g + blk_c) (c_blocks g) = blk_c).
  { rewrite Z.rem_mod_nonneg by nia. symmetry.
    apply (Z.mod_unique_pos _ _ blk_r blk_c); lia. }
  rewrite Hq, Hm. lia.
Qed.

Section decomposition.
Variables (g : GTMatrix) (row_start row_num col_start col_num : Z).
Variables (src_buf src_buf_ld : Z).
Hypothesis valid : tables_valid g = true.
Hypothesis row_start_nonneg : 0 ≤ row_start.
Hypothesis col_start_nonneg : 0 ≤ col_start.
Hypothesis row_num_pos : 0 < row_num.
Hypothesis col_num_pos : 0 < col_num.
Hypothesis rows_inside : row_start + row_num ≤ nrows g.
Hypothesis cols_inside : col_start + col_num ≤ ncols g.
Hypothesis rows_fit : nrows g ≤ INT_MAX.
Hypothesis cols_fit : ncols g ≤ INT_MAX.
Hypothesis area_fits : row_num * col_num ≤ INT_MAX.

Let row_end := row_start + row_num - 1.
Let col_end := col_start + col_num - 1.
Let s_blk_r := last_match (holds (r_displs g) row_start) 0 (seqZ 0 (r_blocks g)).
Let e_blk_r := last_match (holds (r_displs g) row_end) (-1) (seqZ 0 (r_blocks g)).
Let s_blk_c := last_match (holds (c_displs g) col_start) 0 (seqZ 0 (c_blocks g)).
Let e_blk_c := last_match (holds (c_displs g) col_end) (-1) (seqZ 0 (c_blocks g)).

Lemma valid_rows : displs_valid (r_displs g) (r_blocks g) (nrows g) = true.
Proof using valid. unfold tables_valid in valid. by apply andb_true_iff in valid as [? ?]. Qed.

Lemma valid_cols : displs_valid (c_displs g) (c_blocks g) (ncols g) = true.
Proof using valid. unfold tables_valid in valid. by apply andb_true_iff in valid as [? ?]. Qed.

Lemma rect_accepted : rect_refused g row_start row_num col_start col_num = false.
Proof using row_start_nonneg col_start_nonneg row_num_pos col_num_pos
            rows_inside cols_inside rows_fit cols_fit area_fits.
  apply not_true_is_false.
  rewrite rect_refused_true by (unfold fits_int, INT_MIN, INT_MAX in *; nia).
  lia.
Qed.

Lemma subUpdates_unfold :
  GTM_subUpdates g row_start row_num col_start col_num src_buf src_buf_ld =
  blk_r ← seqZ s_blk_r (e_blk_r - s_blk_r + 1);
  blk_c ← seqZ s_blk_c (e_blk_c - s_blk_c + 1);
  [resolve_block g row_start row_num col_start col_num
                 src_buf src_buf_ld blk_r blk_c].
Proof. unfold GTM_subUpdates. cbv zeta. by rewrite !find_blocks_split. Qed.

Lemma resolve_block_ok blk_r blk_c :
  s_blk_r ≤ blk_r ≤ e_blk_r → s_blk_c ≤ blk_c ≤ e_blk_c →
  let u := resolve_block g row_start row_num col_start col_num
                         src_buf src_buf_ld blk_r blk_c in
  need_to_fetch u = 1 ∧ 0 < blk_r_num u ∧ 0 < blk_c_num u ∧
  0 ≤ blk_r < r_blocks g ∧ 0 ≤ blk_c < c_blocks g ∧
  in_tile_of g blk_r blk_c u.
Proof using valid row_start_nonneg col_start_nonneg row_num_pos col_num_pos
            rows_inside cols_inside.
  intros Hr Hc.
  destruct (block_meets _ _ _ valid_rows row_start row_num
              row_start_nonneg row_num_pos rows_inside blk_r Hr)
    as (Hr1 & Hr2 & Hr3 & Hr4).
  destruct (block_meets _ _ _ valid_cols col_start col_num
              col_start_nonneg col_num_pos cols_inside blk_c Hc)
    as (Hc1 & Hc2 & Hc3 & Hc4).
  unfold in_tile_of, resolve_block, getRectIntersection. simpl.
  rewrite (proj2 (Z.leb_le _ _) Hr2), (proj2 (Z.leb_le _ _) Hc2). simpl.
  repeat split; lia.
Qed.

(** A sub-rectangle lies inside the rectangle. *)
Lemma resolve_block_inside blk_r blk_c :
  let u := resolve_block g row_start row_num col_start col_num
                         src_buf src_buf_ld blk_r blk_c in
  row_start ≤ blk_r_s u ∧ blk_r_s u + blk_r_num u ≤ row_start + row_num ∧
  col_start ≤ blk_c_s u ∧ blk_c_s u + blk_c_num u ≤ col_start + col_num.
Proof. unfold resolve_block, getRectIntersection. simpl. lia. Qed.

Lemma subUpdates_loop op mode :
  GTM_updateBlock (Some g) op row_start row_num col_start col_num
    src_buf src_buf_ld mode =
  with_handle (Some g)
    (for_each (GTM_subUpdates g row_start row_num col_start col_num
                              src_buf src_buf_ld)
              (λ u, dispatch op u src_buf_ld mode)).
Proof using valid row_start_nonneg col_start_nonneg row_num_pos col_num_pos
            rows_inside cols_inside rows_fit cols_fit area_fits.
  rewrite subUpdates_unfold.
  unfold GTM_updateBlock, with_handle.
  unfold mbind at 1, M_bind at 1, get at 1.
  rewrite rect_accepted, !find_blocks_split.
  fold row_end col_end s_blk_r e_blk_r s_blk_c e_blk_c.
  unfold for_range. rewrite for_each_bind.
  erewrite for_each_ext; [reflexivity|].
  intros blk_r g' Hr. cbv beta. rewrite for_each_bind.
  apply for_each_ext. intros blk_c g'' Hc. cbv beta.
  rewrite for_each_singleton.
  apply elem_of_seqZ in Hr, Hc.
  destruct (resolve_block_ok blk_r blk_c) as (Hn & _); [lia|lia|].
  apply assert_true. by apply Z.eqb_eq.
Qed.

Lemma subUpdates_tile r c :
  count (covers r c)
        (GTM_subUpdates g row_start row_num col_start col_num
                        src_buf src_buf_ld) =
  if in_rect row_start row_num col_start col_num r c then 1%nat else 0%nat.
Proof using valid row_start_nonneg col_start_nonneg row_num_pos col_num_pos
            rows_inside cols_inside.
  rewrite subUpdates_unfold.
  rewrite (count_product _
             (λ blk, seg_covers (Z.max (r_displs g).[blk] row_start)
                       (Z.min ((r_displs g).[blk + 1] - 1)
                              (row_start + row_num - 1)) r)
             (λ blk, seg_covers (Z.max (c_displs g).[blk] col_start)
                       (Z.min ((c_displs g).[blk + 1] - 1)
                              (col_start + col_num - 1)) c))
    by (intros; apply covers_resolve_block).
  unfold s_blk_r, e_blk_r, s_blk_c, e_blk_c, row_end, col_end.
  rewrite (segment_tiled _ _ _ valid_rows row_start row_num
             row_start_nonneg row_num_pos rows_inside r).
  rewrite (segment_tiled _ _ _ valid_cols col_start col_num
             col_start_nonneg col_num_pos cols_inside c).
  unfold in_rect. rewrite <- andb_assoc.
  destruct (_ && _); destruct (_ && _); done.
Qed.

Lemma subUpdates_owned :
  Forall (λ u, need_to_fetch u = 1 ∧ 0 < blk_r_num u ∧ 0 < blk_c_num u ∧
               (∃ blk_r blk_c,
                  0 ≤ blk_r < r_blocks g ∧ 0 ≤ blk_c < c_blocks g ∧
                  in_tile_of g blk_r blk_c u) ∧
               block_refused g (dst_rank u) (blk_r_s u) (blk_r_num u)
                             (blk_c_s u) (blk_c_num u) = false)
         (GTM_subUpdates g row_start row_num col_start col_num
                         src_buf src_buf_ld).
Proof using valid row_start_nonneg col_start_nonneg row_num_pos col_num_pos
            rows_inside cols_inside rows_fit cols_fit area_fits.
  rewrite subUpdates_unfold. apply Forall_forall. intros u Hu.
  apply list_elem_of_bind in Hu as (blk_r & Hu & Hr).
  apply list_elem_of_bind in Hu as (blk_c & Hu & Hc).
  apply list_elem_of_singleton in Hu. subst u.
  apply elem_of_seqZ in Hr, Hc.
  destruct (resolve_block_ok blk_r blk_c) as (H1 & H2 & H3 & H4 & H5 & H6);
    [lia|lia|].
  split_and!; try done; [by exists blk_r, blk_c|].
  pose proof (resolve_block_inside blk_r blk_c) as (I1 & I2 & I3 & I4).
  cbv zeta in I1, I2, I3, I4.
  apply (in_tile_accepted g blk_r blk_c); try done; try lia;
    unfold fits_int, INT_MIN, INT_MAX in *; nia.
Qed.
End decomposition.

(** C1 (amended). On a handle whose boundary tables are valid and whose
    sizes are [int]s, for a non-empty rectangle inside the matrix that
    has no more than [INT_MAX] elements: [GTM_updateBlock] dispatches
    exactly the sub-updates of [GTM_subUpdates], in order and without
    failing its assertion; every element of the rectangle is covered by exactly one
    of their sub-rectangles and no element outside is covered by any;
    every sub-rectangle is non-empty and lies in the tile of block row
    [blk_r] and block column [blk_c] whose owner,
    [blk_r * c_blocks + blk_c], is its destination, and so passes the
    sanity check of [GTM_updateBlockToProcess]. *)
Theorem updateBlock_partition g row_start row_num col_start col_num
    src_buf src_buf_ld :
  tables_valid g = true →
  0 ≤ row_start → 0 ≤ col_start → 0 < row_num → 0 < col_num →
  row_start + row_num ≤ nrows g → col_start + col_num ≤ ncols g →
  nrows g ≤ INT_MAX → ncols g ≤ INT_MAX → row_num * col_num ≤ INT_MAX →
  let subs := GTM_subUpdates g row_start row_num col_start col_num
                             src_buf src_buf_ld in
  (∀ op mode,
     GTM_updateBlock (Some g) op row_start row_num col_start col_num
       src_buf src_buf_ld mode =
     with_handle (Some g) (for_each subs (λ u, dispatch op u src_buf_ld mode))) ∧
  (∀ r c, count (covers r c) subs =
          if in_rect row_start row_num col_start col_num r c
          then 1%nat else 0%nat) ∧
  Forall (λ u, need_to_fetch u = 1 ∧ 0 < blk_r_num u ∧ 0 < blk_c_num u ∧
               (∃ blk_r blk_c,
                  0 ≤ blk_r < r_blocks g ∧ 0 ≤ blk_c < c_blocks g ∧
                  in_tile_of g blk_r blk_c u) ∧
               block_refused g (dst_rank u) (blk_r_s u) (blk_r_num u)
                             (blk_c_s u) (blk_c_num u) = false) subs.
Proof.
  intros Hv Hrs Hcs Hrn Hcn Hri Hci Hrf Hcf Haf subs. subst subs.
  split; [|split].
  - intros op mode. by apply subUpdates_loop.
  - intros r c. by apply subUpdates_tile.
  - by apply subUpdates_owned.
Qed.

(** ** Batched mode (C2) *)

Lemma set_req_vec_id g : set_req_vec (req_vec g) g = g.
Proof. by destruct g. Qed.

(** The batch branch: the code of the push is returned as it is, and
    the queue of the destination is the only thing that may change. *)
Lemma dispatch_batch_eq op u src_buf_ld g :
  dispatch op u src_buf_ld BATCH_ACCESS g =
  let vec := arr_get [] (req_vec g) (dst_rank u) in
  let ret := push_result vec (req_of op src_buf_ld u) in
  Returns ret
    (set_req_vec (arr_set (req_vec g) (dst_rank u)
                    (if decide (ret = GTM_SUCCESS)
                     then vec ++ [req_of op src_buf_ld u] else vec)) g).
Proof. done. Qed.

Lemma dispatch_batch op u src_buf_ld g :
  push_result (arr_get [] (req_vec g) (dst_rank u)) (req_of op src_buf_ld u)
    = GTM_SUCCESS →
  dispatch op u src_buf_ld BATCH_ACCESS g =
  Returns GTM_SUCCESS
    (set_req_vec (arr_set (req_vec g) (dst_rank u)
                    (arr_get [] (req_vec g) (dst_rank u)
                       ++ [req_of op src_buf_ld u])) g).
Proof.
  intros E. rewrite dispatch_batch_eq. cbv zeta. rewrite E.
  by rewrite decide_True.
Qed.

(** In batched mode, while the pushes are accepted, the sub-updates are
    appended to the queues of their destinations, in order; nothing else
    changes, and no flag is read. *)
Lemma for_each_batch op src_buf_ld us g :
  (∀ vec req, push_result vec req = GTM_SUCCESS) →
  for_each us (λ u, dispatch op u src_buf_ld BATCH_ACCESS) g =
  Returns GTM_SUCCESS (set_req_vec (push_all op src_buf_ld (req_vec g) us) g).
Proof.
  intros Hpush. revert g. induction us as [|u us IH]; intros g.
  - simpl. unfold mret, M_ret. by rewrite set_req_vec_id.
  - rewrite for_each_cons, dispatch_batch by done.
    rewrite decide_True by done. rewrite IH. by destruct g.
Qed.

Lemma updateBlock_batch g op row_start row_num col_start col_num
    src_buf src_buf_ld :
  (∀ vec req, push_result vec req = GTM_SUCCESS) →
  tables_valid g = true →
  0 ≤ row_start → 0 ≤ col_start → 0 < row_num → 0 < col_num →
  row_start + row_num ≤ nrows g → col_start + col_num ≤ ncols g →
  nrows g ≤ INT_MAX → ncols g ≤ INT_MAX → row_num * col_num ≤ INT_MAX →
  GTM_updateBlock (Some g) op row_start row_num col_start col_num
    src_buf src_buf_ld BATCH_ACCESS =
  Returns GTM_SUCCESS
    (Some (set_req_vec
       (push_all op src_buf_ld (req_vec g)
          (GTM_subUpdates g row_start row_num col_start col_num
                          src_buf src_buf_ld)) g)).
Proof.
  intros. rewrite subUpdates_loop by done.
  unfold with_handle. by rewrite for_each_batch.
Qed.

(** C2 (as the code behaves). With both batch flags clear, and request
    vectors that accept every push, [GTM_addPutBlockRequest] and
    [GTM_addAccBlockRequest] of the whole 4 x 4 matrix return
    [GTM_SUCCESS] and append one request to the queue of each of the
    four destinations; no MPI call is made. *)
Theorem addRequest_outside_epoch :
  (∀ vec req, push_result vec req = GTM_SUCCESS) →
  in_batch_put gtm_4x4 = 0 ∧ in_batch_acc gtm_4x4 = 0 ∧
  GTM_addPutBlockRequest (Some gtm_4x4) 0 4 0 4 1000 4 =
    Returns GTM_SUCCESS (Some (set_req_vec
      [[mkReq MPI_REPLACE 0 2 0 2 1000 4]; [mkReq MPI_REPLACE 0 2 2 2 1016 4];
       [mkReq MPI_REPLACE 2 2 0 2 1064 4]; [mkReq MPI_REPLACE 2 2 2 2 1080 4]]
      gtm_4x4)) ∧
  GTM_addAccBlockRequest (Some gtm_4x4) 0 4 0 4 1000 4 =
    Returns GTM_SUCCESS (Some (set_req_vec
      [[mkReq MPI_SUM 0 2 0 2 1000 4]; [mkReq MPI_SUM 0 2 2 2 1016 4];
       [mkReq MPI_SUM 2 2 0 2 1064 4]; [mkReq MPI_SUM 2 2 2 2 1080 4]]
      gtm_4x4)).
Proof.
  intros Hpush. split; [done|]. split; [done|].
  unfold GTM_addPutBlockRequest, GTM_addAccBlockRequest.
  rewrite !updateBlock_batch by first [done | by vm_compute].
  split; reflexivity.
Qed.

(** ** Non-blocking mode (C7) *)

Lemma epoch_open_app log calls r :
  epoch_open (log ++ calls) r = foldl (epoch_step r) (epoch_open log r) calls.
Proof. unfold epoch_open. by rewrite foldl_app. Qed.

Lemma epoch_step_transfer g dst_rank op row_start row_num col_start col_num
    src_buf src_buf_ld r held :
  foldl (epoch_step r) held
    (transfer_calls g dst_rank op row_start row_num col_start col_num
                    src_buf src_buf_ld) = held.
Proof.
  unfold transfer_calls. cbv zeta.
  destruct (_ && _); [|done].
  destruct (decide (col_num = src_buf_ld)); [done|].
  destruct (decide (ld_local g = src_buf_ld)); done.
Qed.

Lemma epoch_step_unlocks r held (l : list Z) :
  foldl (epoch_step r) held (MPI_Win_unlock <$> l) =
  if decide (r ∈ l) then false else held.
Proof.
  revert held. induction l as [|x l IH]; intros held.
  - destruct (decide (r ∈ [])) as [H|_]; [by apply elem_of_nil in H|done].
  - rewrite fmap_cons. simpl. rewrite IH.
    destruct (decide (r ∈ l)) as [Hin|Hin].
    + rewrite decide_True; [done|by right].
    + destruct (decide (x = r)) as [->|Hne].
      * rewrite decide_True; [done|by left].
      * rewrite decide_False; [done|].
        rewrite elem_of_cons. intros [?|?]; [by subst|done].
Qed.

Lemma arr_get_zeros (cnt : list Z) r : ((λ _, 0) <$> cnt).[r] = 0.
Proof.
  unfold arr_get. case_decide; [|done].
  rewrite list_lookup_fmap. by destruct (cnt !! Z.to_nat r).
Qed.

(** The flush closes every epoch and zeroes every counter. *)
Lemma waitNB_flushes g :
  nb_consistent g →
  ∃ g', GTM_waitNB g = Returns GTM_SUCCESS g' ∧
    nb_op_cnt g' = 0 ∧
    (∀ r, (nb_op_proc_cnt g').[r] = 0) ∧
    (∀ r, epoch_open (mpi_log g') r = false) ∧
    max_nb_acc g' = max_nb_acc g ∧ req_vec g' = req_vec g.
Proof.
  intros Hc. eexists. split; [unfold GTM_waitNB; run; reflexivity|]. simpl.
  repeat split; try done.
  - intros r. apply arr_get_zeros.
  - intros r. rewrite epoch_open_app, epoch_step_unlocks.
    case_decide as Hin; [done|].
    destruct (Hc r) as [_ ->].
    apply negb_false_iff, Z.eqb_eq.
    destruct (decide ((nb_op_proc_cnt g).[r] = 0)) as [|Hne]; [done|].
    exfalso. apply Hin. apply list_elem_of_filter. split; [done|].
    apply elem_of_seqZ.
    destruct (decide (0 ≤ r < Z.of_nat (length (nb_op_proc_cnt g)))); [lia|].
    by rewrite arr_get_outside in Hne.
Qed.

Lemma block_refused_log log g dst_rank row_start row_num col_start col_num :
  block_refused (set_mpi_log log g) dst_rank row_start row_num col_start col_num =
  block_refused g dst_rank row_start row_num col_start col_num.
Proof. done. Qed.

Lemma transfer_calls_log log g dst_rank op row_start row_num col_start col_num
    src_buf src_buf_ld :
  transfer_calls (set_mpi_log log g) dst_rank op row_start row_num
                 col_start col_num src_buf src_buf_ld =
  transfer_calls g dst_rank op row_start row_num col_start col_num
                 src_buf src_buf_ld.
Proof. done. Qed.

Lemma nb_issue_eq g op u src_buf_ld :
  let d := dst_rank u in
  let cnt := nb_op_proc_cnt g in
  let refused :=
    block_refused g d (blk_r_s u) (blk_r_num u) (blk_c_s u) (blk_c_num u) in
  let lock :=
    if decide (cnt.[d] = 0) then [MPI_Win_lock (acc_lock_type g) d] else [] in
  let calls :=
    if refused then []
    else transfer_calls g d op (blk_r_s u) (blk_r_num u) (blk_c_s u)
                        (blk_c_num u) (blk_ptr u) src_buf_ld in
  nb_issue op u src_buf_ld g =
  Returns (if refused then GTM_INVALID_BLOCK else GTM_SUCCESS)
    (set_nb_op_cnt (nb_op_cnt g + 1)
       (set_nb_op_proc_cnt (arr_set cnt d (cnt.[d] + 1))
          (set_mpi_log (mpi_log g ++ lock ++ calls) g))).
Proof.
  intros d cnt refused lock calls. subst lock calls refused.
  unfold nb_issue, GTM_updateBlockToProcess. run. fold d cnt.
  destruct (decide (cnt.[d] = 0));
    rewrite ?block_refused_log, ?transfer_calls_log;
    destruct (block_refused g d _ _ _ _); simpl;
    rewrite ?app_nil_r, <- ?app_assoc; reflexivity.
Qed.

Lemma nb_throttle_eq g :
  nb_throttle g =
  if decide (max_nb_acc g ≤ nb_op_cnt g)
  then match GTM_waitNB g with
       | Returns _ g' => Returns tt g'
       | Aborts g' => Aborts g'
       end
  else Returns tt g.
Proof. unfold nb_throttle. run. by case_decide. Qed.

Lemma dispatch_nonblocking_eq g op u src_buf_ld :
  dispatch op u src_buf_ld NONBLOCKING_ACCESS g =
  match nb_issue op u src_buf_ld g with
  | Returns ret g1 =>
      match nb_throttle g1 with
      | Returns _ g2 => Returns ret g2
      | Aborts g2 => Aborts g2
      end
  | Aborts g1 => Aborts g1
  end.
Proof.
  unfold dispatch. run.
  destruct (nb_issue op u src_buf_ld g) as [ret g1|g1]; [|done].
  by destruct (nb_throttle g1).
Qed.

(** C7. One sub-update in non-blocking mode, on a handle whose
    bookkeeping is consistent: the issue step locks the destination
    exactly when its counter is zero, then raises its counter and the
    global counter by one; if the global counter has then reached
    [max_nb_acc] the flush zeroes every counter and leaves no epoch open,
    otherwise nothing more happens; the bookkeeping stays consistent. *)
Theorem nonblocking_throttle g op u src_buf_ld :
  nb_consistent g →
  0 ≤ dst_rank u < Z.of_nat (length (nb_op_proc_cnt g)) →
  let d := dst_rank u in
  let cnt := nb_op_proc_cnt g in
  let refused :=
    block_refused g d (blk_r_s u) (blk_r_num u) (blk_c_s u) (blk_c_num u) in
  let lock :=
    if decide (cnt.[d] = 0) then [MPI_Win_lock (acc_lock_type g) d] else [] in
  let calls :=
    if refused then []
    else transfer_calls g d op (blk_r_s u) (blk_r_num u) (blk_c_s u)
                        (blk_c_num u) (blk_ptr u) src_buf_ld in
  ∃ ret g1 g2,
    nb_issue op u src_buf_ld g = Returns ret g1 ∧
    dispatch op u src_buf_ld NONBLOCKING_ACCESS g = Returns ret g2 ∧
    mpi_log g1 = mpi_log g ++ lock ++ calls ∧
    (∀ t r, MPI_Win_lock t r ∈ lock ++ calls ↔
            t = acc_lock_type g ∧ r = d ∧ cnt.[d] = 0) ∧
    (nb_op_proc_cnt g1).[d] = cnt.[d] + 1 ∧
    (∀ r, r ≠ d → (nb_op_proc_cnt g1).[r] = cnt.[r]) ∧
    nb_op_cnt g1 = nb_op_cnt g + 1 ∧
    nb_consistent g1 ∧
    (nb_op_cnt g1 < max_nb_acc g → g2 = g1) ∧
    (max_nb_acc g ≤ nb_op_cnt g1 →
       nb_op_cnt g2 = 0 ∧
       (∀ r, (nb_op_proc_cnt g2).[r] = 0) ∧
       (∀ r, epoch_open (mpi_log g2) r = false)) ∧
    nb_consistent g2.
Proof.
  intros Hc Hd d cnt refused lock calls.
  pose proof (nb_issue_eq g op u src_buf_ld) as Hissue. cbv zeta in Hissue.
  fold d cnt refused lock calls in Hissue.
  set (g1 := set_nb_op_cnt _ _) in Hissue.
  assert (Hlock : ∀ t r, MPI_Win_lock t r ∈ lock ++ calls ↔
                         t = acc_lock_type g ∧ r = d ∧ cnt.[d] = 0).
  { intros t r. subst lock calls. rewrite elem_of_app.
    assert (Hno : ¬ MPI_Win_lock t r ∈
              (if refused then []
               else transfer_calls g d op (blk_r_s u) (blk_r_num u) (blk_c_s u)
                      (blk_c_num u) (blk_ptr u) src_buf_ld)).
    { destruct refused; [apply not_elem_of_nil|].
      unfold transfer_calls. cbv zeta.
      destruct (_ && _); repeat case_decide; intros Hin;
        repeat (apply elem_of_cons in Hin as [Hin|Hin]; [discriminate|]);
        by apply elem_of_nil in Hin. }
    destruct (decide (cnt.[d] = 0)) as [Hz|Hnz].
    - rewrite list_elem_of_singleton. split.
      + intros [[= -> ->]|?]; done.
      + intros (-> & -> & _). by left.
    - rewrite elem_of_nil. split; [intros [[]|?]; done|].
      intros (_ & _ & ?). done. }
  assert (Hc1 : nb_consistent g1).
  { intros r. subst g1. simpl. fold cnt.
    destruct (Hc r) as [Hnn Hopen]. fold cnt in Hnn, Hopen.
    rewrite (app_assoc (mpi_log g)), !epoch_open_app.
    assert (foldl (epoch_step r) (foldl (epoch_step r) (epoch_open (mpi_log g) r) lock)
              calls = foldl (epoch_step r) (epoch_open (mpi_log g) r) lock) as ->.
    { subst calls. destruct refused; [done|apply epoch_step_transfer]. }
    destruct (decide (r = d)) as [->|Hne].
    - rewrite arr_get_set_eq by done. split; [lia|].
      subst lock. destruct (decide (cnt.[d] = 0)) as [Hz|Hnz]; simpl.
      + rewrite decide_True by done. rewrite Hz. done.
      + rewrite Hopen. f_equal.
        destruct (Z.eqb_spec cnt.[d] 0); [done|].
        symmetry. apply Z.eqb_neq. lia.
    - rewrite arr_get_set_ne by done. split; [done|].
      rewrite <- Hopen. subst lock. case_decide; [|done].
      simpl. by rewrite decide_False. }
  assert (Hthr := nb_throttle_eq g1).
  pose proof (dispatch_nonblocking_eq g op u src_buf_ld) as Hdisp.
  rewrite Hissue in Hdisp.
  destruct (decide (max_nb_acc g1 ≤ nb_op_cnt g1)) as [Hmax|Hmax].
  - destruct (waitNB_flushes g1 Hc1) as (g2 & Hw & Hz & Hcz & Hopen & _ & _).
    rewrite Hw in Hthr. rewrite Hthr in Hdisp.
    exists (if refused then GTM_INVALID_BLOCK else GTM_SUCCESS), g1, g2.
    split_and!; try done.
    + subst g1. simpl. fold cnt. by apply arr_get_set_eq.
    + intros r Hne. subst g1. simpl. fold cnt. by apply arr_get_set_ne.
    + intros Hlt. subst g1. simpl in *. lia.
    + intros r. rewrite Hopen, Hcz. done.
  - rewrite Hthr in Hdisp.
    exists (if refused then GTM_INVALID_BLOCK else GTM_SUCCESS), g1, g1.
    split_and!; try done.
    + subst g1. simpl. fold cnt. by apply arr_get_set_eq.
    + intros r Hne. subst g1. simpl. fold cnt. by apply arr_get_set_ne.
Qed.

(** ** Execution of a batch (C3, C8) *)

Lemma accepted_prefix_log log g d vec :
  accepted_prefix (set_mpi_log log g) d vec = accepted_prefix g d vec.
Proof.
  induction vec as [|req vec IH]; [done|]. simpl. rewrite IH.
  by change (req_refused (set_mpi_log log g) d req) with (req_refused g d req).
Qed.

Lemma replay_requests d vec g :
  for_each vec (λ req,
      GTM_updateBlockToProcess d (req_op req)
        (req_row_start req) (req_row_num req)
        (req_col_start req) (req_col_num req)
        (req_src_buf req) (req_src_buf_ld req)) g =
  Returns (if forallb (λ req, negb (req_refused g d req)) vec
           then GTM_SUCCESS else GTM_INVALID_BLOCK)
    (set_mpi_log (mpi_log g ++ concat (replay_calls g d <$> accepted_prefix g d vec)) g).
Proof.
  revert g. induction vec as [|req vec IH]; intros g.
  - simpl. unfold mret, M_ret. rewrite app_nil_r. by destruct g.
  - rewrite for_each_cons. simpl. unfold req_refused at 1 3.
    destruct (block_refused g d _ _ _ _) eqn:Hr.
    + rewrite updateBlockToProcess_refused by done. simpl.
      rewrite app_nil_r. by destruct g.
    + rewrite updateBlockToProcess_accepted by done.
      rewrite decide_True by done. rewrite IH.
      rewrite accepted_prefix_log. simpl.
      rewrite <- app_assoc. reflexivity.
Qed.

Lemma arr_set_default {A : Type} (d : A) (a : list A) (i : Z) :
  arr_get d a i = d → arr_set a i d = a.
Proof.
  intros E. unfold arr_set, arr_get in *. case_decide; [|done].
  destruct (a !! Z.to_nat i) as [v|] eqn:El.
  - simpl in E. subst v. by apply list_insert_id.
  - apply list_insert_ge. by apply lookup_ge_None.
Qed.

(** One visit: a destination whose queue is empty is skipped; a queue
    whose requests are all accepted is replayed between a lock and an
    unlock and then cleared; at the first refused request the function
    returns, with the lock held and the queue as it was. *)
Lemma exec_destination_eq _d g :
  let d := Z.rem _d (comm_size g) in
  exec_destination _d g =
  if accepted g d
  then Returns GTM_SUCCESS
         (set_req_vec (arr_set (req_vec g) d [])
            (set_mpi_log (mpi_log g ++ visit_calls g d) g))
  else Returns GTM_INVALID_BLOCK
         (set_mpi_log (mpi_log g ++ [MPI_Win_lock (acc_lock_type g) d]
                         ++ concat (replay_calls g d
                                      <$> accepted_prefix g d (queue g d))) g).
Proof.
  intros d. unfold exec_destination, replay_queue, accepted, visit_calls.
  unfold mbind at 1, M_bind at 1, get at 1. fold d. fold (queue g d).
  destruct (queue g d) as [|req vec] eqn:Hq.
  - simpl. rewrite app_nil_r. by destruct g.
  - rewrite decide_True by (unfold curr_size; simpl; lia).
    unfold mbind at 1, M_bind at 1.
    unfold mbind at 1, M_bind at 1, get at 1.
    unfold mbind at 1, M_bind at 1, mpi at 1, modify at 1.
    unfold mbind at 1, M_bind at 1.
    rewrite replay_requests, accepted_prefix_log.
    change (forallb _ (req :: vec))
      with (forallb (λ r, negb (req_refused g d r)) (req :: vec)).
    destruct (forallb _ (req :: vec)) eqn:Hall.
    + assert (Hpre : ∀ v, forallb (λ r, negb (req_refused g d r)) v = true →
                accepted_prefix g d v = v).
      { intros v. induction v as [|r v IHv]; [done|]. simpl.
        destruct (req_refused g d r); [done|].
        simpl. intros Hv. by rewrite IHv. }
      rewrite Hpre by done.
      rewrite decide_True by done. run. unfold GTM_resetReqVector.
      cbn [mpi_log set_mpi_log req_vec set_req_vec].
      rewrite <- !app_assoc. reflexivity.
    + rewrite decide_False by done. run.
      cbn [mpi_log set_mpi_log req_vec set_req_vec].
      rewrite <- !app_assoc. reflexivity.
Qed.

Lemma clear_queues_get (ds : list Z) (vecs : list GTM_Req_Vector) (i : Z) :
  arr_get [] (clear_queues vecs ds) i =
  if decide (i ∈ ds) then [] else arr_get [] vecs i.
Proof. apply reset_all_get. Qed.

Lemma queue_other g d v log r :
  d ≠ r → queue (set_req_vec (arr_set (req_vec g) d v) (set_mpi_log log g)) r =
          queue g r.
Proof. intros Hne. unfold queue. simpl. by apply arr_get_set_ne. Qed.

Lemma accepted_other g d v log r :
  d ≠ r → accepted (set_req_vec (arr_set (req_vec g) d v) (set_mpi_log log g)) r =
          accepted g r.
Proof. intros Hne. unfold accepted. by rewrite queue_other. Qed.

Lemma visit_calls_other g d v log r :
  d ≠ r → visit_calls (set_req_vec (arr_set (req_vec g) d v) (set_mpi_log log g)) r =
          visit_calls g r.
Proof. intros Hne. unfold visit_calls. by rewrite queue_other. Qed.

Lemma accepted_prefix_queues vecs log g d vec :
  accepted_prefix (set_req_vec vecs (set_mpi_log log g)) d vec =
  accepted_prefix g d vec.
Proof.
  induction vec as [|req vec IH]; [done|]. simpl. rewrite IH. reflexivity.
Qed.

(** The loop over destinations whose queued requests are all accepted. *)
Lemma exec_loop_ok ds : ∀ g,
  NoDup ((λ x, Z.rem x (comm_size g)) <$> ds) →
  (∀ x, x ∈ ds → accepted g (Z.rem x (comm_size g)) = true) →
  for_each ds exec_destination g =
  Returns GTM_SUCCESS
    (set_req_vec (clear_queues (req_vec g) ((λ x, Z.rem x (comm_size g)) <$> ds))
       (set_mpi_log
          (mpi_log g ++
           concat (visit_calls g <$> ((λ x, Z.rem x (comm_size g)) <$> ds))) g)).
Proof.
  induction ds as [|x ds IH]; intros g Hnd Hacc.
  - simpl. unfold mret, M_ret. rewrite app_nil_r. by destruct g.
  - pose proof (exec_destination_eq x g) as E. cbv zeta in E.
    rewrite for_each_cons, E.
    rewrite Hacc by left. rewrite decide_True by done.
    rewrite fmap_cons in Hnd. apply NoDup_cons in Hnd as [Hx Hnd].
    set (d := Z.rem x (comm_size g)) in *.
    set (g1 := set_req_vec _ _).
    assert (Hother : ∀ y, y ∈ ds → d ≠ Z.rem y (comm_size g)).
    { intros y Hy ->. apply Hx. apply list_elem_of_fmap. by exists y. }
    rewrite IH.
    + change (comm_size g1) with (comm_size g).
      rewrite fmap_cons. fold d.
      assert (visit_calls g1 <$> ((λ y, Z.rem y (comm_size g)) <$> ds) =
              visit_calls g <$> ((λ y, Z.rem y (comm_size g)) <$> ds)) as ->.
      { rewrite <- !list_fmap_compose. apply list_fmap_ext.
        intros i y Hy. apply list_elem_of_lookup_2 in Hy.
        apply visit_calls_other. by apply Hother. }
      subst g1. simpl. rewrite <- app_assoc. reflexivity.
    + exact Hnd.
    + intros y Hy. change (comm_size g1) with (comm_size g).
      subst g1. rewrite accepted_other by (by apply Hother).
      apply Hacc. by right.
Qed.

(** The loop up to a destination with a refused request. *)
Lemma exec_loop_fail pre x post g :
  NoDup ((λ x, Z.rem x (comm_size g)) <$> (pre ++ [x])) →
  (∀ y, y ∈ pre → accepted g (Z.rem y (comm_size g)) = true) →
  accepted g (Z.rem x (comm_size g)) = false →
  let d := Z.rem x (comm_size g) in
  for_each (pre ++ x :: post) exec_destination g =
  Returns GTM_INVALID_BLOCK
    (set_req_vec (clear_queues (req_vec g) ((λ x, Z.rem x (comm_size g)) <$> pre))
       (set_mpi_log
          (mpi_log g ++
           concat (visit_calls g <$> ((λ x, Z.rem x (comm_size g)) <$> pre)) ++
           [MPI_Win_lock (acc_lock_type g) d] ++
           concat (replay_calls g d <$> accepted_prefix g d (queue g d))) g)).
Proof.
  intros Hnd Hacc Hrej d.
  rewrite fmap_app in Hnd. apply NoDup_app in Hnd as (Hnd & Hdis & _).
  rewrite for_each_app, exec_loop_ok by done.
  rewrite decide_True by done.
  set (g1 := set_req_vec _ _).
  pose proof (exec_destination_eq x g1) as E. cbv zeta in E.
  rewrite for_each_cons, E.
  change (comm_size g1) with (comm_size g). fold d.
  assert (Hq : queue g1 d = queue g d).
  { unfold queue. subst g1. simpl. rewrite clear_queues_get.
    rewrite decide_False; [done|].
    intros Hin. apply (Hdis d Hin). simpl. by left. }
  assert (Ha : accepted g1 d = accepted g d).
  { unfold accepted. by rewrite Hq. }
  fold d in Hrej. rewrite Ha, Hrej, Hq.
  subst g1. rewrite accepted_prefix_queues. simpl. rewrite <- !app_assoc. reflexivity.
Qed.

Lemma round_robin_ranks g :
  0 ≤ my_rank g < comm_size g →
  (λ x, Z.rem x (comm_size g)) <$> seqZ (my_rank g) (comm_size g) = round_robin g.
Proof.
  intros Hr. unfold round_robin.
  assert (seqZ (my_rank g) (comm_size g) =
          seqZ (my_rank g) (comm_size g - my_rank g)
          ++ (Z.add (comm_size g) <$> seqZ 0 (my_rank g))) as ->.
  { rewrite fmap_add_seqZ.
    replace (comm_size g + 0) with (my_rank g + (comm_size g - my_rank g)) by lia.
    rewrite <- seqZ_app by lia. f_equal. lia. }
  rewrite fmap_app. f_equal.
  - rewrite <- (list_fmap_id (seqZ (my_rank g) _)) at 2.
    apply list_fmap_ext. intros i x Hx.
    apply list_elem_of_lookup_2, elem_of_seqZ in Hx.
    unfold id. apply Z.rem_small. lia.
  - rewrite <- list_fmap_compose.
    rewrite <- (list_fmap_id (seqZ 0 _)) at 2.
    apply list_fmap_ext. intros i x Hx.
    apply list_elem_of_lookup_2, elem_of_seqZ in Hx. unfold id, compose.
    replace (comm_size g + x) with (x + 1 * comm_size g) by lia.
    rewrite Z.rem_add; [|lia|nia]. apply Z.rem_small. lia.
Qed.

Lemma round_robin_NoDup g : 0 ≤ my_rank g → NoDup (round_robin g).
Proof.
  intros Hr. unfold round_robin. apply NoDup_app. split; [apply NoDup_seqZ|].
  split; [|apply NoDup_seqZ].
  intros x H1 H2. apply elem_of_seqZ in H1, H2. lia.
Qed.

Lemma round_robin_elem g r :
  0 ≤ my_rank g < comm_size g → r ∈ round_robin g ↔ 0 ≤ r < comm_size g.
Proof.
  intros Hr. unfold round_robin. rewrite elem_of_app, !elem_of_seqZ. lia.
Qed.

Lemma first_refusal (p : Z → bool) (l : list Z) :
  (∀ x, x ∈ l → p x = true) ∨
  ∃ pre x post, l = pre ++ x :: post ∧ (∀ y, y ∈ pre → p y = true) ∧ p x = false.
Proof.
  induction l as [|x l IH].
  - left. intros x Hx. by apply elem_of_nil in Hx.
  - destruct (p x) eqn:Hpx.
    + destruct IH as [Hall|(pre & y & post & -> & Hpre & Hy)].
      * left. intros z Hz. apply elem_of_cons in Hz as [->|Hz]; auto.
      * right. exists (x :: pre), y, post. split; [done|]. split; [|done].
        intros z Hz. apply elem_of_cons in Hz as [->|Hz]; auto.
    + right. exists [], x, l. split; [done|]. split; [|done].
      intros z Hz. by apply elem_of_nil in Hz.
Qed.

Lemma accepted_prefix_is_prefix g d vec : accepted_prefix g d vec `prefix_of` vec.
Proof.
  induction vec as [|req vec IH]; [done|]. simpl.
  destruct (req_refused g d req); [apply prefix_nil|by apply prefix_cons].
Qed.

Lemma refused_queue_nonempty g d : accepted g d = false → queue g d ≠ [].
Proof. unfold accepted. intros H E. by rewrite E in H. Qed.

Lemma refused_visit_prefix g d :
  accepted g d = false →
  ([MPI_Win_lock (acc_lock_type g) d]
   ++ concat (replay_calls g d <$> accepted_prefix g d (queue g d)))
  `prefix_of` visit_calls g d.
Proof.
  intros Hd. pose proof (refused_queue_nonempty _ _ Hd) as Hne.
  unfold visit_calls. destruct (queue g d) as [|req vec]; [done|].
  apply prefix_app, prefix_app_r.
  destruct (accepted_prefix_is_prefix g d (req :: vec)) as [k Hk].
  rewrite Hk at 2. rewrite fmap_app, concat_app. by apply prefix_app_r.
Qed.

Lemma exec_epoch_open g :
  in_batch_put g ≠ 0 → in_batch_acc g ≠ 0 →
  GTM_execBatchUpdate g =
  for_each (seqZ (my_rank g) (comm_size g)) exec_destination g.
Proof.
  intros Hp Ha. unfold GTM_execBatchUpdate.
  unfold mbind at 1, M_bind at 1, get at 1.
  by rewrite !decide_False.
Qed.

(** The epoch executed in full. *)
Lemma execBatchUpdate_round_robin_aux g :
  in_batch_put g ≠ 0 → in_batch_acc g ≠ 0 → 0 ≤ my_rank g < comm_size g →
  (∀ r, 0 ≤ r < comm_size g → accepted g r = true) →
  ∃ g', GTM_execBatchUpdate g = Returns GTM_SUCCESS g' ∧
        ∀ r, 0 ≤ r < comm_size g → queue g' r = [].
Proof.
  intros Hp Ha Hr Hall. rewrite exec_epoch_open by done.
  pose proof (round_robin_ranks g Hr) as Hrr.
  pose proof (round_robin_NoDup g (proj1 Hr)) as Hnd.
  rewrite exec_loop_ok.
  - eexists. split; [reflexivity|].
    intros r Hrange. unfold queue. simpl. rewrite clear_queues_get.
    rewrite Hrr. rewrite decide_True; [done|]. by apply round_robin_elem.
  - by rewrite Hrr.
  - intros x Hx. apply Hall. apply (round_robin_elem g); [done|].
    rewrite <- Hrr. apply list_elem_of_fmap. by exists x.
Qed.

(** C8. In an active epoch, on a rank inside the group, the calls made
    by [GTM_execBatchUpdate] are a prefix of the round-robin schedule:
    the destinations from the caller's rank to the last rank and then
    from rank 0 to the rank before the caller's, nothing for a
    destination whose queue is empty, and for the others a lock, the
    queued requests from the first enqueued to the last, and an unlock.
    When every queued request passes the sanity check of its destination
    the calls are the whole schedule, the result is [GTM_SUCCESS] and
    every queue is empty afterwards. *)
Theorem execBatchUpdate_round_robin g :
  in_batch_put g ≠ 0 → in_batch_acc g ≠ 0 → 0 ≤ my_rank g < comm_size g →
  ∃ ret g' calls,
    GTM_execBatchUpdate g = Returns ret g' ∧
    mpi_log g' = mpi_log g ++ calls ∧
    calls `prefix_of` concat (visit_calls g <$> round_robin g) ∧
    ((∀ r, 0 ≤ r < comm_size g → accepted g r = true) →
       ret = GTM_SUCCESS ∧
       calls = concat (visit_calls g <$> round_robin g) ∧
       ∀ r, 0 ≤ r < comm_size g → queue g' r = []).
Proof.
  intros Hp Ha Hr. rewrite exec_epoch_open by done.
  pose proof (round_robin_ranks g Hr) as Hrr.
  pose proof (round_robin_NoDup g (proj1 Hr)) as Hnd.
  destruct (first_refusal (λ x, accepted g (Z.rem x (comm_size g)))
              (seqZ (my_rank g) (comm_size g)))
    as [Hall|(pre & x & post & Hl & Hpre & Hx)].
  - rewrite exec_loop_ok by (by rewrite ?Hrr).
    rewrite Hrr. do 3 eexists. split; [reflexivity|].
    split; [reflexivity|]. split; [done|].
    intros _. split; [done|]. split; [done|].
    intros r Hrange. unfold queue. simpl. rewrite clear_queues_get.
    rewrite decide_True; [done|]. by apply round_robin_elem.
  - rewrite Hl in Hrr |- *.
    assert (Hnd' : NoDup ((λ x, Z.rem x (comm_size g)) <$> (pre ++ [x]))).
    { rewrite <- Hrr in Hnd. rewrite fmap_app, fmap_cons in Hnd.
      rewrite fmap_app. simpl.
      apply NoDup_app in Hnd as (H1 & H2 & H3).
      apply NoDup_app. split; [done|]. split.
      - intros y Hy Hy'. apply (H2 y Hy).
        apply list_elem_of_singleton in Hy'. subst y. by left.
      - apply NoDup_singleton. }
    pose proof (exec_loop_fail pre x post g Hnd' Hpre Hx) as E.
    cbv zeta in E. rewrite E.
    do 3 eexists. split; [reflexivity|]. split; [reflexivity|]. split.
    + rewrite <- Hrr, fmap_app, fmap_cons, fmap_app, fmap_cons.
      rewrite concat_app. apply prefix_app.
      rewrite concat_cons. apply prefix_app_r.
      by apply refused_visit_prefix.
    + intros Hall. rewrite Hall in Hx; [done|].
      apply (round_robin_elem g); [done|]. rewrite <- Hrr.
      rewrite fmap_app, fmap_cons. apply elem_of_app. right. by left.
Qed.

(** C3 (amended). In an active epoch, on a rank inside the group: when
    every queued request is accepted the call returns [GTM_SUCCESS] and
    every queue is empty afterwards; when [d] is the first destination of
    the round-robin order with a refused request, the call returns
    [GTM_INVALID_BLOCK] at that request: the destinations before [d] have
    been replayed in full and their queues cleared, and for the
    destinations after [d] no call is made and the queues are as they
    were. *)
Theorem execBatchUpdate_failure g :
  in_batch_put g ≠ 0 → in_batch_acc g ≠ 0 → 0 ≤ my_rank g < comm_size g →
  ((∀ r, 0 ≤ r < comm_size g → accepted g r = true) →
     ∃ g', GTM_execBatchUpdate g = Returns GTM_SUCCESS g' ∧
           ∀ r, 0 ≤ r < comm_size g → queue g' r = []) ∧
  (∀ pre d post,
     round_robin g = pre ++ d :: post →
     (∀ r, r ∈ pre → accepted g r = true) →
     accepted g d = false →
     ∃ g', GTM_execBatchUpdate g = Returns GTM_INVALID_BLOCK g' ∧
       (∀ r, r ∈ pre → queue g' r = []) ∧
       (∀ r, r ∈ post → queue g' r = queue g r) ∧
       mpi_log g' =
         mpi_log g ++ concat (visit_calls g <$> pre)
         ++ [MPI_Win_lock (acc_lock_type g) d]
         ++ concat (replay_calls g d <$> accepted_prefix g d (queue g d))).
Proof.
  intros Hp Ha Hr. split.
  - intros Hall.
    destruct (execBatchUpdate_round_robin_aux g Hp Ha Hr Hall) as (g' & E & Hq).
    by exists g'.
  - intros pre d post Hrr Hpre Hd.
    rewrite exec_epoch_open by done.
    pose proof (round_robin_ranks g Hr) as Hl.
    pose proof (round_robin_NoDup g (proj1 Hr)) as Hnd.
    rewrite Hrr in Hl.
    apply fmap_app_inv in Hl as (lpre & l2 & Hlpre & Hl2 & Hl).
    symmetry in Hl2. apply fmap_cons_inv in Hl2 as (x & lpost & Hx & Hlpost & ->).
    rewrite Hl. subst pre d post.
    rewrite Hrr in Hnd.
    assert (Hnd' : NoDup ((λ x, Z.rem x (comm_size g)) <$> (lpre ++ [x]))).
    { rewrite fmap_app. simpl.
      apply NoDup_app in Hnd as (H1 & H2 & H3).
      apply NoDup_app. split; [done|]. split.
      - intros y Hy Hy'. apply (H2 y Hy).
        apply list_elem_of_singleton in Hy'. subst y. by left.
      - apply NoDup_singleton. }
    assert (Hpre' : ∀ y, y ∈ lpre → accepted g (Z.rem y (comm_size g)) = true).
    { intros y Hy. apply Hpre. apply list_elem_of_fmap. by exists y. }
    pose proof (exec_loop_fail lpre x lpost g Hnd' Hpre' Hd) as E.
    cbv zeta in E. rewrite E.
    eexists. split; [reflexivity|]. simpl. split_and!.
    + intros r Hin. unfold queue. simpl. rewrite clear_queues_get.
      by rewrite decide_True.
    + intros r Hin. unfold queue. simpl. rewrite clear_queues_get.
      rewrite decide_False; [done|].
      apply NoDup_app in Hnd as (_ & H2 & _).
      intros Hin'. apply (H2 r Hin'). by right.
    + done.
Qed.

(** ** Further properties of the decomposition *)

Lemma holds_spec displs x i :
  holds displs x i = true ↔ displs.[i] ≤ x < displs.[i + 1].
Proof. unfold holds. rewrite andb_true_iff, Z.leb_le, Z.ltb_lt. done. Qed.

(** X1. On a valid boundary table, for a non-empty segment inside the
    matrix, the scanning loop of [GTM_updateBlock] returns the block that
    holds the first row (or column) and the block that holds the last
    one; the first is not after the last, both are blocks of the table,
    and no other block holds those rows. *)
Theorem find_blocks_correct displs blocks total first num :
  displs_valid displs blocks total = true →
  0 ≤ first → 0 < num → first + num ≤ total →
  ∃ s_blk e_blk,
    find_blocks displs blocks first (first + num - 1) = (s_blk, e_blk) ∧
    0 ≤ s_blk ∧ s_blk ≤ e_blk ∧ e_blk < blocks ∧
    displs.[s_blk] ≤ first < displs.[s_blk + 1] ∧
    displs.[e_blk] ≤ first + num - 1 < displs.[e_blk + 1] ∧
    (∀ k, 0 ≤ k < blocks → displs.[k] ≤ first < displs.[k + 1] → k = s_blk) ∧
    (∀ k, 0 ≤ k < blocks →
          displs.[k] ≤ first + num - 1 < displs.[k + 1] → k = e_blk).
Proof.
  intros Hv Hf Hn Hin.
  destruct (found_blocks displs blocks total Hv first num Hf Hn Hin)
    as (Hs & Hse & He & Hhs & Hhe).
  pose proof (valid_step displs blocks total Hv) as Hstep.
  do 2 eexists. split; [apply find_blocks_split|].
  pose proof Hhs as Hhs'. pose proof Hhe as Hhe'.
  apply holds_spec in Hhs', Hhe'.
  split_and!; try done; try lia.
  - intros k Hk Hh. apply (holds_unique displs blocks Hstep first);
      [done|lia| |done]. by apply holds_spec.
  - intros k Hk Hh. apply (holds_unique displs blocks Hstep (first + num - 1));
      [done|lia| |done]. by apply holds_spec.
Qed.

Lemma fmap_product {A B C D : Type} (t : C → D) (mk : A → B → C)
    (la : list A) (lb : list B) :
  t <$> (a ← la; b ← lb; [mk a b]) = a ← la; b ← lb; [t (mk a b)].
Proof.
  induction la as [|a la IH]; [done|].
  rewrite !bind_cons, fmap_app, IH. f_equal. clear IH.
  induction lb as [|b lb IH]; [done|].
  rewrite !bind_cons, fmap_app, IH. done.
Qed.

Lemma subUpdates_ranks g row_start row_num col_start col_num src_buf src_buf_ld :
  dst_rank <$> GTM_subUpdates g row_start row_num col_start col_num
                              src_buf src_buf_ld =
  let '(s_blk_r, e_blk_r) :=
    find_blocks (r_displs g) (r_blocks g) row_start (row_start + row_num - 1) in
  let '(s_blk_c, e_blk_c) :=
    find_blocks (c_displs g) (c_blocks g) col_start (col_start + col_num - 1) in
  blk_r ← seqZ s_blk_r (e_blk_r - s_blk_r + 1);
  blk_c ← seqZ s_blk_c (e_blk_c - s_blk_c + 1);
  [blk_r * c_blocks g + blk_c].
Proof.
  unfold GTM_subUpdates. cbv zeta.
  destruct (find_blocks (r_displs g) _ _ _) as [s_r e_r].
  destruct (find_blocks (c_displs g) _ _ _) as [s_c e_c].
  apply fmap_product.
Qed.

(** X2. On a handle with valid tables, for a non-empty rectangle inside
    the matrix, the destinations of the sub-updates are pairwise
    different ranks of the process grid: one call addresses a
    destination at most once, and never a rank outside
    [[0, r_blocks * c_blocks)]. *)
Theorem subUpdates_destinations g row_start row_num col_start col_num
    src_buf src_buf_ld :
  tables_valid g = true →
  0 ≤ row_start → 0 ≤ col_start → 0 < row_num → 0 < col_num →
  row_start + row_num ≤ nrows g → col_start + col_num ≤ ncols g →
  let ranks := dst_rank <$> GTM_subUpdates g row_start row_num col_start col_num
                                           src_buf src_buf_ld in
  NoDup ranks ∧ ∀ d, d ∈ ranks → 0 ≤ d < r_blocks g * c_blocks g.
Proof.
  intros Hv Hrs Hcs Hrn Hcn Hri Hci ranks. subst ranks.
  rewrite subUpdates_ranks.
  destruct (found_blocks _ _ _ (valid_rows g Hv) row_start row_num Hrs Hrn Hri)
    as (Hsr & Hser & Her & _).
  destruct (found_blocks _ _ _ (valid_cols g Hv) col_start col_num Hcs Hcn Hci)
    as (Hsc & Hsec & Hec & _).
  rewrite !find_blocks_split.
  set (s_r := last_match _ 0 (seqZ 0 (r_blocks g))) in *.
  set (e_r := last_match _ (-1) (seqZ 0 (r_blocks g))) in *.
  set (s_c := last_match _ 0 (seqZ 0 (c_blocks g))) in *.
  set (e_c := last_match _ (-1) (seqZ 0 (c_blocks g))) in *.
  split.
  - apply NoDup_bind; [| |apply NoDup_seqZ].
    + intros r1 r2 d Hr1 Hr2 Hd1 Hd2.
      apply list_elem_of_bind in Hd1 as (c1 & Hd1 & Hc1).
      apply list_elem_of_bind in Hd2 as (c2 & Hd2 & Hc2).
      apply list_elem_of_singleton in Hd1, Hd2.
      apply elem_of_seqZ in Hr1, Hr2, Hc1, Hc2.
      destruct (Z.lt_trichotomy r1 r2) as [Hlt|[Heq|Hgt]]; [|done|]; nia.
    + intros r Hr. apply NoDup_bind; [| |apply NoDup_seqZ].
      * intros c1 c2 d Hc1 Hc2 Hd1 Hd2.
        apply list_elem_of_singleton in Hd1, Hd2. lia.
      * intros c Hc. apply NoDup_singleton.
  - intros d Hd.
    apply list_elem_of_bind in Hd as (r & Hd & Hr).
    apply list_elem_of_bind in Hd as (c & Hd & Hc).
    apply list_elem_of_singleton in Hd.
    apply elem_of_seqZ in Hr, Hc. nia.
Qed.

(** X3. In a source buffer whose leading dimension is not negative,
    whose elements have a positive size and in which the last element
    of the rectangle lies no more than [INT_MAX] bytes after the first,
    a sub-update that passes the assertion of [GTM_updateBlock] reads
    every matrix element from the address at which the caller's buffer
    holds it: its own source pointer, origin and the caller's leading
    dimension address element [(r, c)] exactly as the caller's pointer
    and origin do. *)
Theorem subUpdates_source_address g row_start row_num col_start col_num
    src_buf src_buf_ld u r c :
  0 ≤ src_buf_ld → 0 < unit_size g →
  ((row_num - 1) * src_buf_ld + (col_num - 1)) * unit_size g ≤ INT_MAX →
  u ∈ GTM_subUpdates g row_start row_num col_start col_num src_buf src_buf_ld →
  need_to_fetch u = 1 →
  src_addr g (blk_ptr u) src_buf_ld (blk_r_s u) (blk_c_s u) r c =
  src_addr g src_buf src_buf_ld row_start col_start r c.
Proof.
  intros Hld Hunit Hsize.
  unfold GTM_subUpdates. cbv zeta.
  destruct (find_blocks (r_displs g) _ _ _) as [s_r e_r].
  destruct (find_blocks (c_displs g) _ _ _) as [s_c e_c].
  intros Hu.
  apply list_elem_of_bind in Hu as (blk_r & Hu & _).
  apply list_elem_of_bind in Hu as (blk_c & Hu & _).
  apply list_elem_of_singleton in Hu. subst u.
  unfold src_addr, resolve_block, getRectIntersection. simpl.
  set (r_s := Z.max (r_displs g).[blk_r] row_start).
  set (r_e := Z.min ((r_displs g).[blk_r + 1] - 1) (row_start + row_num - 1)).
  set (c_s := Z.max (c_displs g).[blk_c] col_start).
  set (c_e := Z.min ((c_displs g).[blk_c + 1] - 1) (col_start + col_num - 1)).
  destruct (Z.leb_spec r_s r_e) as [Hr|Hr]; [|done].
  destruct (Z.leb_spec c_s c_e) as [Hc|Hc]; [|done].
  intros _.
  assert (Hrd : 0 ≤ r_s - row_start ≤ row_num - 1) by lia.
  assert (Hcd : 0 ≤ c_s - col_start ≤ col_num - 1) by lia.
  assert (Hshift : (r_s - row_start) * src_buf_ld + (c_s - col_start)
                   ≤ (row_num - 1) * src_buf_ld + (col_num - 1)) by nia.
  unfold INT_MAX in Hsize.
  rewrite (int_mul_fits (r_s - row_start)), int_add_fits, int_mul_fits;
    [ring|unfold fits_int, INT_MIN, INT_MAX; nia..].
Qed.

(** X4. In a region whose stride holds a row of the tile and which has
    no more than [INT_MAX] elements, two elements of the tile of
    [dst_rank] with the same offset are the same element: the address
    translation never maps two elements of a tile to one place. *)
Theorem dst_pos_injective g dst_rank r1 c1 r2 c2 :
  tile_fits_stride g dst_rank = true →
  let tile_row_start := (r_displs g).[Z.quot dst_rank (c_blocks g)] in
  let tile_row_end := (r_displs g).[Z.quot dst_rank (c_blocks g) + 1] in
  let tile_col_start := (c_displs g).[Z.rem dst_rank (c_blocks g)] in
  let tile_col_end := (c_displs g).[Z.rem dst_rank (c_blocks g) + 1] in
  ld_local g * (tile_row_end - tile_row_start) ≤ INT_MAX →
  tile_row_start ≤ r1 < tile_row_end → tile_col_start ≤ c1 < tile_col_end →
  tile_row_start ≤ r2 < tile_row_end → tile_col_start ≤ c2 < tile_col_end →
  dst_pos_of g dst_rank r1 c1 = dst_pos_of g dst_rank r2 c2 →
  r1 = r2 ∧ c1 = c2.
Proof.
  intros Hld trs tre tcs tce Hsize Hr1 Hc1 Hr2 Hc2.
  destruct (dst_pos_of_exact g dst_rank r1 c1 Hld Hsize Hr1 Hc1) as [-> _].
  destruct (dst_pos_of_exact g dst_rank r2 c2 Hld Hsize Hr2 Hc2) as [-> _].
  fold trs tcs.
  apply Z.leb_le in Hld. fold tcs tce in Hld.
  intros Heq.
  destruct (Z.lt_trichotomy r1 r2) as [Hlt|[->|Hgt]]; [nia|lia|nia].
Qed.

Lemma sum_cnt_app l1 l2 : sum_cnt (l1 ++ l2) = sum_cnt l1 + sum_cnt l2.
Proof. unfold sum_cnt. induction l1 as [|x l1 IH]; simpl; lia. Qed.

Lemma sum_cnt_cons x l : sum_cnt (x :: l) = x + sum_cnt l.
Proof. done. Qed.

Lemma sum_cnt_product {A B C : Type} (mk : A → B → C) (f : A → Z) (h : B → Z)
    (t : C → Z) (la : list A) (lb : list B) :
  (∀ a b, t (mk a b) = f a * h b) →
  sum_cnt (t <$> (a ← la; b ← lb; [mk a b])) =
  sum_cnt (f <$> la) * sum_cnt (h <$> lb).
Proof.
  intros Ht. induction la as [|a la IH]; [done|].
  rewrite bind_cons, fmap_app, sum_cnt_app, IH, fmap_cons, sum_cnt_cons.
  assert (sum_cnt (t <$> (lb ≫= λ b, [mk a b])) = f a * sum_cnt (h <$> lb)) as ->.
  { clear IH. induction lb as [|b lb IHb].
    - change (sum_cnt (h <$> [])) with 0. change (sum_cnt _) with 0. lia.
    - rewrite bind_cons, fmap_app, sum_cnt_app, IHb, !fmap_cons, !sum_cnt_cons.
      rewrite Ht. change (sum_cnt (t <$> [])) with 0. lia. }
  lia.
Qed.

(** The lengths of the common parts of a segment with the blocks it
    meets add up to the length of the segment. *)
Lemma segment_lengths displs blocks total first num :
  displs_valid displs blocks total = true →
  0 ≤ first → 0 < num → first + num ≤ total →
  let last := first + num - 1 in
  let s_blk := last_match (holds displs first) 0 (seqZ 0 blocks) in
  let e_blk := last_match (holds displs last) (-1) (seqZ 0 blocks) in
  sum_cnt ((λ blk, Z.min (displs.[blk + 1] - 1) last
                   - Z.max displs.[blk] first + 1)
           <$> seqZ s_blk (e_blk - s_blk + 1)) = num.
Proof.
  intros Hv Hf Hn Hin last s_blk e_blk.
  destruct (found_blocks displs blocks total Hv first num Hf Hn Hin)
    as (Hs & Hse & He & Hhs & Hhe).
  fold last s_blk e_blk in Hs, Hse, He, Hhs, Hhe.
  apply holds_spec in Hhs, Hhe.
  pose proof (valid_step displs blocks total Hv) as Hstep.
  assert (Hpart : ∀ n : nat, s_blk + Z.of_nat n ≤ e_blk →
    sum_cnt ((λ blk, Z.min (displs.[blk + 1] - 1) last
                     - Z.max displs.[blk] first + 1)
             <$> seqZ s_blk (Z.of_nat (S n))) =
    Z.min (displs.[s_blk + Z.of_nat n + 1] - 1) last - first + 1).
  { induction n as [|n IH]; intros Hle.
    - change (Z.of_nat 1) with 1. rewrite seqZ_cons, seqZ_nil by lia.
      rewrite fmap_cons, sum_cnt_cons. change (sum_cnt _) with 0.
      change (Z.of_nat 0) with 0.
      replace (s_blk + 0) with s_blk by lia. lia.
    - rewrite seqZ_S, fmap_app, sum_cnt_app, IH by lia.
      rewrite fmap_cons, sum_cnt_cons. change (sum_cnt (_ <$> [])) with 0.
      pose proof (displs_mono displs blocks Hstep (s_blk + 1) (s_blk + Z.of_nat (S n))).
      pose proof (displs_mono displs blocks Hstep (s_blk + Z.of_nat n + 1) e_blk).
      replace (s_blk + Z.of_nat (S n)) with (s_blk + Z.of_nat n + 1) in * by lia.
      lia. }
  replace (e_blk - s_blk + 1) with (Z.of_nat (S (Z.to_nat (e_blk - s_blk)))) by lia.
  rewrite Hpart by lia.
  replace (s_blk + Z.of_nat (Z.to_nat (e_blk - s_blk)) + 1) with (e_blk + 1) by lia.
  subst last. lia.
Qed.

(** X5. On a handle with valid tables, for a non-empty rectangle inside
    the matrix, the sub-rectangles hold together as many elements as the
    rectangle: nothing is transferred twice and nothing is left out. *)
Theorem subUpdates_area g row_start row_num col_start col_num
    src_buf src_buf_ld :
  tables_valid g = true →
  0 ≤ row_start → 0 ≤ col_start → 0 < row_num → 0 < col_num →
  row_start + row_num ≤ nrows g → col_start + col_num ≤ ncols g →
  sum_cnt (area <$> GTM_subUpdates g row_start row_num col_start col_num
                                   src_buf src_buf_ld) = row_num * col_num.
Proof.
  intros Hv Hrs Hcs Hrn Hcn Hri Hci.
  unfold GTM_subUpdates. cbv zeta. rewrite !find_blocks_split.
  rewrite (sum_cnt_product _
    (λ blk, Z.min ((r_displs g).[blk + 1] - 1) (row_start + row_num - 1)
            - Z.max (r_displs g).[blk] row_start + 1)
    (λ blk, Z.min ((c_displs g).[blk + 1] - 1) (col_start + col_num - 1)
            - Z.max (c_displs g).[blk] col_start + 1)) by done.
  rewrite (segment_lengths _ _ _ _ _ (valid_rows g Hv) Hrs Hrn Hri).
  rewrite (segment_lengths _ _ _ _ _ (valid_cols g Hv) Hcs Hcn Hci).
  done.
Qed.

(** ** Invariants of the loops *)

Lemma for_each_final_inv {A : Type} (P : GTMatrix → Prop) (l : list A)
    (body : A → M retval) :
  (∀ x g, P g → P (final (body x g))) →
  ∀ g, P g → P (final (for_each l body g)).
Proof.
  intros Hbody. induction l as [|x l IH]; intros g Hg; [done|].
  rewrite for_each_cons. specialize (Hbody x g Hg).
  destruct (body x g) as [ret g'|g']; [|done].
  case_decide; [by apply IH|done].
Qed.

Lemma for_each_returns {A : Type} (Q : retval → Prop) (l : list A)
    (body : A → M retval) :
  Q GTM_SUCCESS →
  (∀ x g ret g', body x g = Returns ret g' → Q ret) →
  ∀ g ret g', for_each l body g = Returns ret g' → Q ret.
Proof.
  intros Hok Hbody. induction l as [|x l IH]; intros g ret g' E.
  - injection E as <- _. done.
  - rewrite for_each_cons in E.
    destruct (body x g) as [r1 g1|g1] eqn:Eb; [|done].
    case_decide; [by eapply IH|].
    injection E as <- _. by eapply Hbody.
Qed.

Lemma final_with_handle g (body : M retval) :
  final (with_handle (Some g) body) = Some (final (body g)).
Proof. unfold with_handle. by destruct (body g). Qed.

(** What every sub-update keeps, the whole call keeps. *)
Lemma updateBlock_final_inv (P : GTMatrix → Prop) g op row_start row_num
    col_start col_num src_buf src_buf_ld mode :
  P g →
  (∀ u g1, P g1 → P (final (dispatch op u src_buf_ld mode g1))) →
  ∃ g', final (GTM_updateBlock (Some g) op row_start row_num col_start col_num
                 src_buf src_buf_ld mode) = Some g' ∧ P g'.
Proof.
  intros Hg Hstep. unfold GTM_updateBlock. rewrite final_with_handle.
  eexists. split; [reflexivity|].
  unfold mbind at 1, M_bind at 1, get at 1.
  destruct (rect_refused g _ _ _ _); [done|].
  destruct (find_blocks (r_displs g) _ _ _) as [s_r e_r].
  destruct (find_blocks (c_displs g) _ _ _) as [s_c e_c].
  unfold for_range. apply for_each_final_inv; [|done].
  intros blk_r g1 Hg1. apply for_each_final_inv; [|done].
  intros blk_c g2 Hg2. unfold mbind, M_bind, assert.
  destruct (_ =? 1); [by apply Hstep|done].
Qed.

Lemma updateBlock_returns (Q : retval → Prop) g op row_start row_num
    col_start col_num src_buf src_buf_ld mode ret g' :
  Q GTM_SUCCESS → Q GTM_INVALID_BLOCK →
  (∀ u g1 r g2, dispatch op u src_buf_ld mode g1 = Returns r g2 → Q r) →
  GTM_updateBlock (Some g) op row_start row_num col_start col_num
    src_buf src_buf_ld mode = Returns ret g' → Q ret.
Proof.
  intros Hok Hinv Hstep. unfold GTM_updateBlock, with_handle.
  unfold mbind at 1, M_bind at 1, get at 1.
  destruct (rect_refused g _ _ _ _).
  { intros [= <- _]. done. }
  destruct (find_blocks (r_displs g) _ _ _) as [s_r e_r].
  destruct (find_blocks (c_displs g) _ _ _) as [s_c e_c].
  destruct (for_range s_r e_r _ g) as [r1 g1|g1] eqn:E; [|done].
  intros [= <- _]. revert E. unfold for_range.
  apply for_each_returns; [done|].
  intros blk_r g2 r2 g3. apply for_each_returns; [done|].
  intros blk_c g4 r4 g5. unfold mbind, M_bind, assert.
  destruct (_ =? 1); [apply Hstep|done].
Qed.

(** ** The three modes, one sub-update at a time *)

Lemma dispatch_blocking_eq g op u src_buf_ld :
  let refused :=
    block_refused g (dst_rank u) (blk_r_s u) (blk_r_num u)
                  (blk_c_s u) (blk_c_num u) in
  dispatch op u src_buf_ld BLOCKING_ACCESS g =
  Returns (if refused then GTM_INVALID_BLOCK else GTM_SUCCESS)
    (set_mpi_log
       (mpi_log g ++ [MPI_Win_lock (acc_lock_type g) (dst_rank u)]
        ++ (if refused then []
            else transfer_calls g (dst_rank u) op (blk_r_s u) (blk_r_num u)
                   (blk_c_s u) (blk_c_num u) (blk_ptr u) src_buf_ld)
        ++ [MPI_Win_unlock (dst_rank u)]) g).
Proof.
  intros refused. subst refused.
  unfold dispatch, GTM_updateBlockToProcess. run.
  rewrite block_refused_log, transfer_calls_log.
  destruct (block_refused g _ _ _ _ _); simpl;
    rewrite <- ?app_assoc; reflexivity.
Qed.

Lemma dispatch_nonblocking_final g op u src_buf_ld :
  let d := dst_rank u in
  let cnt := nb_op_proc_cnt g in
  let refused :=
    block_refused g d (blk_r_s u) (blk_r_num u) (blk_c_s u) (blk_c_num u) in
  let lock :=
    if decide (cnt.[d] = 0) then [MPI_Win_lock (acc_lock_type g) d] else [] in
  let calls :=
    if refused then []
    else transfer_calls g d op (blk_r_s u) (blk_r_num u) (blk_c_s u)
                        (blk_c_num u) (blk_ptr u) src_buf_ld in
  let g1 :=
    set_nb_op_cnt (nb_op_cnt g + 1)
      (set_nb_op_proc_cnt (arr_set cnt d (cnt.[d] + 1))
         (set_mpi_log (mpi_log g ++ lock ++ calls) g)) in
  dispatch op u src_buf_ld NONBLOCKING_ACCESS g =
  Returns (if refused then GTM_INVALID_BLOCK else GTM_SUCCESS)
    (if decide (max_nb_acc g ≤ nb_op_cnt g + 1)
     then final (GTM_waitNB g1) else g1).
Proof.
  intros d cnt refused lock calls g1.
  rewrite dispatch_nonblocking_eq.
  pose proof (nb_issue_eq g op u src_buf_ld) as E. cbv zeta in E.
  fold d cnt refused lock calls g1 in E. rewrite E.
  rewrite nb_throttle_eq.
  change (max_nb_acc g1) with (max_nb_acc g).
  change (nb_op_cnt g1) with (nb_op_cnt g + 1).
  by case_decide.
Qed.

(** ** Descriptors *)

Lemma created_app l1 l2 : created (l1 ++ l2) = created l1 ++ created l2.
Proof. apply omap_app. Qed.
Lemma committed_app l1 l2 : committed (l1 ++ l2) = committed l1 ++ committed l2.
Proof. apply omap_app. Qed.
Lemma freed_app l1 l2 : freed (l1 ++ l2) = freed l1 ++ freed l2.
Proof. apply omap_app. Qed.

Lemma transfer_calls_balanced g dst_rank op row_start row_num col_start col_num
    src_buf src_buf_ld :
  let calls := transfer_calls g dst_rank op row_start row_num col_start col_num
                              src_buf src_buf_ld in
  committed calls = created calls ∧ freed calls = created calls.
Proof.
  unfold transfer_calls. cbv zeta.
  destruct (_ && _); [|done].
  destruct (decide (col_num = src_buf_ld)); [done|].
  destruct (decide (ld_local g = src_buf_ld)); done.
Qed.

Lemma unlocks_balanced (l : list Z) :
  created (MPI_Win_unlock <$> l) = [] ∧ committed (MPI_Win_unlock <$> l) = [] ∧
  freed (MPI_Win_unlock <$> l) = [].
Proof. induction l as [|x l IH]; [done|]. rewrite fmap_cons. exact IH. Qed.

Lemma replay_calls_balanced g d (vec : list GTM_Req) :
  let calls := concat (replay_calls g d <$> vec) in
  committed calls = created calls ∧ freed calls = created calls.
Proof.
  induction vec as [|req vec IH]; [done|].
  rewrite fmap_cons. cbv zeta. rewrite concat_cons.
  rewrite created_app, committed_app, freed_app.
  destruct IH as [-> ->].
  destruct (transfer_calls_balanced g d (req_op req) (req_row_start req)
              (req_row_num req) (req_col_start req) (req_col_num req)
              (req_src_buf req) (req_src_buf_ld req)) as [E1 E2].
  unfold replay_calls. by rewrite E1, E2.
Qed.

(** Every sub-update, in every mode, extends the log by calls that free
    and commit the descriptors they create. *)
Lemma dispatch_balanced op u src_buf_ld mode g :
  ∃ calls, mpi_log (final (dispatch op u src_buf_ld mode g)) = mpi_log g ++ calls ∧
           committed calls = created calls ∧ freed calls = created calls.
Proof.
  pose proof (transfer_calls_balanced g (dst_rank u) op (blk_r_s u) (blk_r_num u)
                (blk_c_s u) (blk_c_num u) (blk_ptr u) src_buf_ld) as [E1 E2].
  destruct mode.
  - rewrite dispatch_blocking_eq. eexists. split; [reflexivity|].
    rewrite !created_app, !committed_app, !freed_app.
    destruct (block_refused g _ _ _ _ _); [done|].
    by rewrite E1, E2.
  - pose proof (dispatch_nonblocking_final g op u src_buf_ld) as E.
    cbv zeta in E. rewrite E. clear E.
    case_decide.
    + unfold GTM_waitNB. run. simpl. rewrite <- app_assoc.
      eexists. split; [reflexivity|].
      rewrite !created_app, !committed_app, !freed_app.
      destruct (unlocks_balanced
        (filter (λ i, (arr_set (nb_op_proc_cnt g) (dst_rank u)
                         ((nb_op_proc_cnt g).[dst_rank u] + 1)).[i] ≠ 0)
           (seqZ 0 (Z.of_nat (length (arr_set (nb_op_proc_cnt g) (dst_rank u)
                         ((nb_op_proc_cnt g).[dst_rank u] + 1)))))))
        as (-> & -> & ->).
      destruct (block_refused g _ _ _ _ _), (decide (_ = 0)); simpl;
        rewrite ?app_nil_r; try done; by rewrite ?E1, ?E2.
    + simpl. eexists. split; [reflexivity|].
      rewrite !created_app, !committed_app, !freed_app.
      destruct (block_refused g _ _ _ _ _), (decide (_ = 0)); simpl;
        try done; by rewrite ?E1, ?E2.
  - rewrite dispatch_batch_eq. simpl. exists []. by rewrite app_nil_r.
Qed.

Lemma exec_destination_balanced _d g :
  ∃ calls, mpi_log (final (exec_destination _d g)) = mpi_log g ++ calls ∧
           committed calls = created calls ∧ freed calls = created calls.
Proof.
  pose proof (exec_destination_eq _d g) as E. cbv zeta in E. rewrite E.
  set (d := Z.rem _d (comm_size g)).
  destruct (accepted g d); simpl.
  - eexists. split; [reflexivity|]. unfold visit_calls.
    destruct (queue g d) as [|req vec]; [done|].
    rewrite !created_app, !committed_app, !freed_app.
    destruct (replay_calls_balanced g d (req :: vec)) as [-> ->]. done.
  - eexists. split; [reflexivity|].
    exact (replay_calls_balanced g d (accepted_prefix g d (queue g d))).
Qed.

Lemma created_one_off log dt :
  dt ∈ created log → ∃ count blocklength stride,
                       dt = type_vector count blocklength stride.
Proof.
  unfold created. intros Hin. apply list_elem_of_omap in Hin as (c & _ & Hc).
  destruct c; try done. injection Hc as <-. eauto.
Qed.

(** X6. If the descriptors created so far are the ones committed and the
    ones freed so far, in the same order, they still are after any call
    of [GTM_updateBlock], in any access mode and whether it succeeds,
    fails or aborts, and after any call of [GTM_execBatchUpdate]: a
    one-off descriptor never outlives the call that creates it, and
    nothing else is ever freed, so the cached descriptors stay alive. *)
Theorem descriptors_released g :
  committed (mpi_log g) = created (mpi_log g) →
  freed (mpi_log g) = created (mpi_log g) →
  (∀ op row_start row_num col_start col_num src_buf src_buf_ld mode,
     ∃ g', final (GTM_updateBlock (Some g) op row_start row_num col_start col_num
                    src_buf src_buf_ld mode) = Some g' ∧
           committed (mpi_log g') = created (mpi_log g') ∧
           freed (mpi_log g') = created (mpi_log g') ∧
           ∀ dt, dt ∈ freed (mpi_log g') →
                 ∃ count blocklength stride,
                   dt = type_vector count blocklength stride) ∧
  (let g' := final (GTM_execBatchUpdate g) in
   committed (mpi_log g') = created (mpi_log g') ∧
   freed (mpi_log g') = created (mpi_log g') ∧
   ∀ dt, dt ∈ freed (mpi_log g') →
         ∃ count blocklength stride, dt = type_vector count blocklength stride).
Proof.
  intros Hc Hf.
  set (P := λ g1 : GTMatrix,
         committed (mpi_log g1) = created (mpi_log g1) ∧
         freed (mpi_log g1) = created (mpi_log g1)).
  split.
  - intros op rs rn cs cn buf ld mode.
    destruct (updateBlock_final_inv P g op rs rn cs cn buf ld mode)
      as (g' & E & Hc' & Hf').
    + done.
    + intros u g1 [Hc1 Hf1].
      destruct (dispatch_balanced op u ld mode g1) as (calls & E & E1 & E2).
      unfold P. rewrite E, created_app, committed_app, freed_app.
      by rewrite Hc1, Hf1, E1, E2.
    + exists g'. split_and!; try done.
      intros dt Hdt. rewrite Hf' in Hdt. by eapply created_one_off.
  - assert (HP : P (final (GTM_execBatchUpdate g))).
    { unfold GTM_execBatchUpdate. unfold mbind at 1, M_bind at 1, get at 1.
      case_decide; [done|]. case_decide; [done|].
      apply for_each_final_inv; [|done].
      intros d g1 [Hc1 Hf1].
      destruct (exec_destination_balanced d g1) as (calls & E & E1 & E2).
      unfold P. rewrite E, created_app, committed_app, freed_app.
      by rewrite Hc1, Hf1, E1, E2. }
    destruct HP as [Hc' Hf']. cbv zeta. split_and!; try done.
    intros dt Hdt. rewrite Hf' in Hdt. by eapply created_one_off.
Qed.

(** ** Blocking mode *)

Lemma blocking_calls_log log g op src_buf_ld u :
  blocking_calls (set_mpi_log log g) op src_buf_ld u =
  blocking_calls g op src_buf_ld u.
Proof. done. Qed.

Lemma set_mpi_log_twice log1 log2 g :
  set_mpi_log log2 (set_mpi_log log1 g) = set_mpi_log log2 g.
Proof. done. Qed.

Lemma for_each_blocking op src_buf_ld (us : list SubUpdate) : ∀ g,
  (∀ u, u ∈ us → block_refused g (dst_rank u) (blk_r_s u) (blk_r_num u)
                               (blk_c_s u) (blk_c_num u) = false) →
  for_each us (λ u, dispatch op u src_buf_ld BLOCKING_ACCESS) g =
  Returns GTM_SUCCESS
    (set_mpi_log (mpi_log g ++ concat (blocking_calls g op src_buf_ld <$> us)) g).
Proof.
  induction us as [|u us IH]; intros g Hok.
  - simpl. unfold mret, M_ret. rewrite app_nil_r. by destruct g.
  - rewrite for_each_cons.
    pose proof (dispatch_blocking_eq g op u src_buf_ld) as E. cbv zeta in E.
    rewrite E, (Hok u) by left. rewrite decide_True by done.
    rewrite IH.
    + rewrite fmap_cons, concat_cons.
      assert (blocking_calls (set_mpi_log
                (mpi_log g ++ [MPI_Win_lock (acc_lock_type g) (dst_rank u)] ++
                 transfer_calls g (dst_rank u) op (blk_r_s u) (blk_r_num u)
                   (blk_c_s u) (blk_c_num u) (blk_ptr u) src_buf_ld ++
                 [MPI_Win_unlock (dst_rank u)]) g) op src_buf_ld <$> us =
              blocking_calls g op src_buf_ld <$> us) as ->.
      { apply list_fmap_ext. intros i v _. apply blocking_calls_log. }
      rewrite set_mpi_log_twice. f_equal. f_equal.
      cbn [mpi_log set_mpi_log]. unfold blocking_calls at 2.
      rewrite <- !app_assoc. reflexivity.
    + intros v Hv. rewrite block_refused_log. apply Hok. by right.
Qed.

Lemma one_sided_app l1 l2 : one_sided (l1 ++ l2) = one_sided l1 ++ one_sided l2.
Proof. unfold one_sided. apply List.filter_app. Qed.

Lemma syncs_app l1 l2 : syncs (l1 ++ l2) = syncs l1 ++ syncs l2.
Proof. unfold syncs. apply List.filter_app. Qed.

Lemma transfer_calls_one_op g dst_rank op row_start row_num col_start col_num
    src_buf src_buf_ld :
  ∃ src_dt dst_dt,
    one_sided (transfer_calls g dst_rank op row_start row_num col_start col_num
                              src_buf src_buf_ld) =
    [MPI_Accumulate src_buf src_dt dst_rank
       (dst_pos_of g dst_rank row_start col_start) dst_dt op] ∧
    syncs (transfer_calls g dst_rank op row_start row_num col_start col_num
                          src_buf src_buf_ld) = [].
Proof.
  unfold transfer_calls. cbv zeta.
  destruct (_ && _); [|by eauto].
  destruct (decide (col_num = src_buf_ld)); [by eauto|].
  destruct (decide (ld_local g = src_buf_ld)); by eauto.
Qed.

Lemma blocking_calls_ops g op src_buf_ld (us : list SubUpdate) :
  one_sided (concat (blocking_calls g op src_buf_ld <$> us)) =
  concat (sub_ops g op src_buf_ld <$> us).
Proof.
  induction us as [|u us IH]; [done|].
  rewrite !fmap_cons, !concat_cons, one_sided_app, IH. f_equal.
  unfold blocking_calls. rewrite !one_sided_app. simpl. by rewrite app_nil_r.
Qed.

(** X7. On a handle with valid tables and sizes that are [int]s, a
    blocking put or accumulate of a non-empty rectangle inside the
    matrix that has no more than [INT_MAX] elements returns
    [GTM_SUCCESS]; its MPI
    calls are, for each sub-update in turn, a lock of the destination,
    the transfer and an unlock; each transfer is a single one-sided
    operation, with the operator of the call, from the source pointer of
    the sub-update to its offset at its destination; the counters, the
    queues and the flags are as before. *)
Theorem blocking_update g row_start row_num col_start col_num src_buf src_buf_ld :
  tables_valid g = true →
  0 ≤ row_start → 0 ≤ col_start → 0 < row_num → 0 < col_num →
  row_start + row_num ≤ nrows g → col_start + col_num ≤ ncols g →
  nrows g ≤ INT_MAX → ncols g ≤ INT_MAX → row_num * col_num ≤ INT_MAX →
  let subs := GTM_subUpdates g row_start row_num col_start col_num
                             src_buf src_buf_ld in
  GTM_putBlock (Some g) row_start row_num col_start col_num src_buf src_buf_ld =
    Returns GTM_SUCCESS
      (Some (set_mpi_log
         (mpi_log g ++ concat (blocking_calls g MPI_REPLACE src_buf_ld <$> subs)) g)) ∧
  GTM_accBlock (Some g) row_start row_num col_start col_num src_buf src_buf_ld =
    Returns GTM_SUCCESS
      (Some (set_mpi_log
         (mpi_log g ++ concat (blocking_calls g MPI_SUM src_buf_ld <$> subs)) g)) ∧
  ∀ op u, u ∈ subs →
    ∃ src_dt dst_dt,
      one_sided (blocking_calls g op src_buf_ld u) =
      [MPI_Accumulate (blk_ptr u) src_dt (dst_rank u)
         (dst_pos_of g (dst_rank u) (blk_r_s u) (blk_c_s u)) dst_dt op].
Proof.
  intros Hv Hrs Hcs Hrn Hcn Hri Hci Hrf Hcf Haf subs.
  pose proof (subUpdates_owned g row_start row_num col_start col_num
                src_buf src_buf_ld Hv Hrs Hcs Hrn Hcn Hri Hci Hrf Hcf Haf)
    as Hown.
  fold subs in Hown. rewrite Forall_forall in Hown.
  assert (Hok : ∀ u, u ∈ subs →
            block_refused g (dst_rank u) (blk_r_s u) (blk_r_num u)
                          (blk_c_s u) (blk_c_num u) = false).
  { intros u Hu. by destruct (Hown u Hu) as (_ & _ & _ & _ & ?). }
  unfold GTM_putBlock, GTM_accBlock.
  rewrite !(subUpdates_loop g row_start row_num col_start col_num
              src_buf src_buf_ld Hv Hrs Hcs Hrn Hcn Hri Hci Hrf Hcf Haf).
  fold subs. unfold with_handle. rewrite !for_each_blocking by done.
  split_and!; try done.
  intros op u Hu. unfold blocking_calls. rewrite !one_sided_app. simpl.
  destruct (transfer_calls_one_op g (dst_rank u) op (blk_r_s u) (blk_r_num u)
              (blk_c_s u) (blk_c_num u) (blk_ptr u) src_buf_ld)
    as (src_dt & dst_dt & -> & _).
  by exists src_dt, dst_dt.
Qed.

Lemma epoch_open_blocking g op u src_buf_ld r :
  epoch_open (mpi_log (final (dispatch op u src_buf_ld BLOCKING_ACCESS g))) r =
  if decide (dst_rank u = r) then false else epoch_open (mpi_log g) r.
Proof.
  pose proof (dispatch_blocking_eq g op u src_buf_ld) as E. cbv zeta in E.
  rewrite E. cbn [final mpi_log set_mpi_log].
  rewrite epoch_open_app.
  assert (∀ held, foldl (epoch_step r) held
            (if block_refused g (dst_rank u) (blk_r_s u) (blk_r_num u)
                              (blk_c_s u) (blk_c_num u)
             then [] else transfer_calls g (dst_rank u) op (blk_r_s u)
                            (blk_r_num u) (blk_c_s u) (blk_c_num u)
                            (blk_ptr u) src_buf_ld) = held) as Htr.
  { intros held. destruct (block_refused _ _ _ _ _ _); [done|].
    apply epoch_step_transfer. }
  rewrite !foldl_app, Htr. simpl. by case_decide.
Qed.

(** X8. Whatever the handle and the rectangle, and whether the call
    succeeds, fails or aborts, a blocking update leaves open no epoch
    that was closed before it, and changes neither the counters of the
    non-blocking mode nor the queues. *)
Theorem blocking_update_epochs g op row_start row_num col_start col_num
    src_buf src_buf_ld :
  ∃ g', final (GTM_updateBlock (Some g) op row_start row_num col_start col_num
                 src_buf src_buf_ld BLOCKING_ACCESS) = Some g' ∧
        (∀ r, epoch_open (mpi_log g') r = true →
              epoch_open (mpi_log g) r = true) ∧
        nb_op_cnt g' = nb_op_cnt g ∧ nb_op_proc_cnt g' = nb_op_proc_cnt g ∧
        req_vec g' = req_vec g.
Proof.
  apply (updateBlock_final_inv
    (λ g1, (∀ r, epoch_open (mpi_log g1) r = true →
                 epoch_open (mpi_log g) r = true) ∧
           nb_op_cnt g1 = nb_op_cnt g ∧ nb_op_proc_cnt g1 = nb_op_proc_cnt g ∧
           req_vec g1 = req_vec g)).
  - done.
  - intros u g1 (Hep & H1 & H2 & H3). split.
    + intros r. rewrite epoch_open_blocking. case_decide; [done|apply Hep].
    + pose proof (dispatch_blocking_eq g1 op u src_buf_ld) as E.
      cbv zeta in E. rewrite E. done.
Qed.

(** ** What no call changes *)

Lemma dispatch_frame op u src_buf_ld mode g :
  layout (final (dispatch op u src_buf_ld mode g)) = layout g ∧
  batch_flags (final (dispatch op u src_buf_ld mode g)) = batch_flags g.
Proof.
  destruct mode.
  - pose proof (dispatch_blocking_eq g op u src_buf_ld) as E.
    cbv zeta in E. by rewrite E.
  - pose proof (dispatch_nonblocking_final g op u src_buf_ld) as E.
    cbv zeta in E. rewrite E. simpl. by case_decide.
  - by rewrite dispatch_batch_eq.
Qed.

Lemma dispatch_codes op u src_buf_ld mode g ret g' :
  dispatch op u src_buf_ld mode g = Returns ret g' →
  ret = GTM_SUCCESS ∨ ret = GTM_INVALID_BLOCK ∨
  (mode = BATCH_ACCESS ∧ ∃ vec req, req_op req = op ∧ ret = push_result vec req).
Proof.
  destruct mode.
  - pose proof (dispatch_blocking_eq g op u src_buf_ld) as E.
    cbv zeta in E. rewrite E. intros [= <- _].
    destruct (block_refused _ _ _ _ _ _); auto.
  - pose proof (dispatch_nonblocking_final g op u src_buf_ld) as E.
    cbv zeta in E. rewrite E. intros [= <- _].
    destruct (block_refused _ _ _ _ _ _); auto.
  - rewrite dispatch_batch_eq. cbv zeta. intros [= <- _].
    do 2 right. split; [done|]. by eexists _, (req_of op src_buf_ld u).
Qed.

(** X9. Whatever its arguments, a call of [GTM_updateBlock] on a handle
    changes neither the description of the matrix and of the group
    (sizes, block counts, boundary tables, stride, element size, lock
    type, ranks, threshold) nor the three batch flags; when it returns,
    it returns [GTM_SUCCESS] or [GTM_INVALID_BLOCK] or, in batch mode
    only, the code that a push of a request with the operator of the
    call returned. *)
Theorem updateBlock_frame g op row_start row_num col_start col_num
    src_buf src_buf_ld mode :
  (∃ g', final (GTM_updateBlock (Some g) op row_start row_num col_start col_num
                  src_buf src_buf_ld mode) = Some g' ∧
         layout g' = layout g ∧ batch_flags g' = batch_flags g) ∧
  (∀ ret g', GTM_updateBlock (Some g) op row_start row_num col_start col_num
               src_buf src_buf_ld mode = Returns ret g' →
             ret = GTM_SUCCESS ∨ ret = GTM_INVALID_BLOCK ∨
             (mode = BATCH_ACCESS ∧
              ∃ vec req, req_op req = op ∧ ret = push_result vec req)).
Proof.
  split.
  - apply (updateBlock_final_inv
      (λ g1, layout g1 = layout g ∧ batch_flags g1 = batch_flags g)); [done|].
    intros u g1 [H1 H2].
    destruct (dispatch_frame op u src_buf_ld mode g1) as [-> ->]. done.
  - intros ret g'.
    apply (updateBlock_returns
      (λ r, r = GTM_SUCCESS ∨ r = GTM_INVALID_BLOCK ∨
            (mode = BATCH_ACCESS ∧
             ∃ vec req, req_op req = op ∧ r = push_result vec req))); auto.
    intros u g1 r g2. apply dispatch_codes.
Qed.

(** ** Flow control of the non-blocking mode *)

Lemma layout_block_refused g1 g dst_rank row_start row_num col_start col_num :
  layout g1 = layout g →
  block_refused g1 dst_rank row_start row_num col_start col_num =
  block_refused g dst_rank row_start row_num col_start col_num.
Proof.
  unfold layout. intros [= ? ? ? Hc Hr Hcd ? ? ? ? ? ?].
  unfold block_refused. by rewrite Hc, Hr, Hcd.
Qed.

Lemma layout_transfer_calls g1 g dst_rank op row_start row_num col_start col_num
    src_buf src_buf_ld :
  layout g1 = layout g →
  transfer_calls g1 dst_rank op row_start row_num col_start col_num
                 src_buf src_buf_ld =
  transfer_calls g dst_rank op row_start row_num col_start col_num
                 src_buf src_buf_ld.
Proof.
  unfold layout. intros [= ? ? ? Hc Hr Hcd Hld ? ? ? ? ?].
  unfold transfer_calls, dst_pos_of. by rewrite Hc, Hr, Hcd, Hld.
Qed.

Lemma sum_cnt_incr (cnt : list Z) d :
  0 ≤ d < Z.of_nat (length cnt) →
  sum_cnt (arr_set cnt d (cnt.[d] + 1)) = sum_cnt cnt + 1.
Proof.
  intros Hd. unfold arr_set, arr_get. rewrite !decide_True by lia.
  destruct (cnt !! Z.to_nat d) as [x|] eqn:E.
  - rewrite insert_take_drop by lia.
    rewrite <- (take_drop_middle cnt (Z.to_nat d) x E) at 3.
    rewrite !sum_cnt_app, !sum_cnt_cons. simpl. lia.
  - apply lookup_ge_None in E. lia.
Qed.

Lemma sum_cnt_zeros (cnt : list Z) : sum_cnt ((λ _, 0) <$> cnt) = 0.
Proof.
  induction cnt as [|x cnt IH]; [done|]. by rewrite fmap_cons, sum_cnt_cons, IH.
Qed.

Lemma sum_cnt_nonneg (cnt : list Z) : (∀ r, 0 ≤ cnt.[r]) → 0 ≤ sum_cnt cnt.
Proof.
  intros Hnn.
  assert (Hall : Forall (λ x, 0 ≤ x) cnt).
  { apply Forall_lookup. intros i x Hi. specialize (Hnn (Z.of_nat i)).
    unfold arr_get in Hnn. rewrite decide_True in Hnn by lia.
    by rewrite Nat2Z.id, Hi in Hnn. }
  clear Hnn. induction Hall as [|x l Hx _ IH]; [done|].
  rewrite sum_cnt_cons. lia.
Qed.

Lemma one_sided_unlocks (l : list Z) : one_sided (MPI_Win_unlock <$> l) = [].
Proof. induction l as [|x l IH]; [done|]. by rewrite fmap_cons. Qed.

(** The issue step keeps the bookkeeping consistent. *)
Lemma nb_issue_consistent g op u src_buf_ld ret g1 :
  nb_consistent g →
  0 ≤ dst_rank u < Z.of_nat (length (nb_op_proc_cnt g)) →
  nb_issue op u src_buf_ld g = Returns ret g1 →
  nb_consistent g1.
Proof.
  intros Hc Hd. pose proof (nb_issue_eq g op u src_buf_ld) as E.
  cbv zeta in E. rewrite E. intros [= _ <-]. intros r. simpl.
  set (d := dst_rank u) in *. set (cnt := nb_op_proc_cnt g) in *.
  destruct (Hc r) as [Hnn Hopen]. fold cnt in Hnn, Hopen.
  rewrite (app_assoc (mpi_log g)), !epoch_open_app.
  assert (∀ held, foldl (epoch_step r) held
            (if block_refused g d (blk_r_s u) (blk_r_num u) (blk_c_s u)
                              (blk_c_num u)
             then [] else transfer_calls g d op (blk_r_s u) (blk_r_num u)
                            (blk_c_s u) (blk_c_num u) (blk_ptr u) src_buf_ld)
          = held) as ->.
  { intros held. destruct (block_refused _ _ _ _ _ _); [done|].
    apply epoch_step_transfer. }
  destruct (decide (r = d)) as [->|Hne].
  - rewrite arr_get_set_eq by done. split; [lia|].
    destruct (decide (cnt.[d] = 0)) as [Hz|Hnz]; simpl.
    + rewrite decide_True by done. by rewrite Hz.
    + rewrite Hopen. f_equal.
      destruct (Z.eqb_spec cnt.[d] 0); [done|].
      symmetry. apply Z.eqb_neq. lia.
  - rewrite arr_get_set_ne by done. split; [done|].
    rewrite <- Hopen. case_decide; [|done].
    simpl. by rewrite decide_False.
Qed.

(** One accepted sub-update in non-blocking mode. *)
Lemma nb_step g op u src_buf_ld :
  nb_bounded g →
  0 ≤ dst_rank u < Z.of_nat (length (nb_op_proc_cnt g)) →
  block_refused g (dst_rank u) (blk_r_s u) (blk_r_num u)
                (blk_c_s u) (blk_c_num u) = false →
  ∃ g2, dispatch op u src_buf_ld NONBLOCKING_ACCESS g = Returns GTM_SUCCESS g2 ∧
        nb_bounded g2 ∧ layout g2 = layout g ∧ req_vec g2 = req_vec g ∧
        batch_flags g2 = batch_flags g ∧
        length (nb_op_proc_cnt g2) = length (nb_op_proc_cnt g) ∧
        one_sided (mpi_log g2) =
          one_sided (mpi_log g) ++ sub_ops g op src_buf_ld u.
Proof.
  intros (Hc & Hsum & Hlt) Hd Hok.
  pose proof (dispatch_nonblocking_final g op u src_buf_ld) as E.
  cbv zeta in E. rewrite Hok in E.
  pose proof (nb_issue_eq g op u src_buf_ld) as Ei. cbv zeta in Ei.
  rewrite Hok in Ei.
  pose proof (nb_issue_consistent g op u src_buf_ld _ _ Hc Hd Ei) as Hc1.
  set (g1 := set_nb_op_cnt _ _) in *.
  assert (Hnn : 0 ≤ nb_op_cnt g).
  { rewrite Hsum. apply sum_cnt_nonneg. intros r. apply Hc. }
  assert (Hops : one_sided (mpi_log g1) =
                 one_sided (mpi_log g) ++ sub_ops g op src_buf_ld u).
  { subst g1. cbn [mpi_log set_mpi_log set_nb_op_cnt set_nb_op_proc_cnt].
    rewrite !one_sided_app. unfold sub_ops. by case_decide. }
  rewrite E. case_decide as Hmax.
  - destruct (waitNB_flushes g1 Hc1) as (g2 & Hw & Hz & Hcz & Hopen & _ & Hq).
    assert (Hg2 : g2 = final (GTM_waitNB g1)) by by rewrite Hw.
    rewrite <- Hg2. exists g2. split; [done|]. split.
    { unfold nb_bounded. split_and!.
      - intros r. rewrite Hcz, Hopen. done.
      - rewrite Hz. symmetry.
        rewrite Hg2. unfold GTM_waitNB. run. simpl. apply sum_cnt_zeros.
      - rewrite Hg2. unfold GTM_waitNB. run. simpl. lia. }
    split_and!.
    + rewrite Hg2. unfold GTM_waitNB. run. done.
    + by rewrite Hq.
    + rewrite Hg2. unfold GTM_waitNB. run. done.
    + rewrite Hg2. unfold GTM_waitNB. run. simpl.
      by rewrite length_fmap, arr_set_length.
    + rewrite <- Hops. rewrite Hg2. unfold GTM_waitNB. run.
      cbn [mpi_log set_mpi_log set_nb_op_cnt set_nb_op_proc_cnt final].
      by rewrite one_sided_app, one_sided_unlocks, app_nil_r.
  - exists g1. split; [done|]. split.
    { unfold nb_bounded. split_and!; [done| |].
      - subst g1. simpl. rewrite sum_cnt_incr by done. lia.
      - subst g1. simpl in *. lia. }
    split_and!; try done.
    subst g1. simpl. apply arr_set_length.
Qed.

Lemma for_each_nb g op src_buf_ld (us : list SubUpdate) : ∀ g1,
  layout g1 = layout g → nb_bounded g1 →
  (∀ u, u ∈ us →
     0 ≤ dst_rank u < Z.of_nat (length (nb_op_proc_cnt g1)) ∧
     block_refused g (dst_rank u) (blk_r_s u) (blk_r_num u)
                   (blk_c_s u) (blk_c_num u) = false) →
  ∃ g2, for_each us (λ u, dispatch op u src_buf_ld NONBLOCKING_ACCESS) g1 =
          Returns GTM_SUCCESS g2 ∧
        nb_bounded g2 ∧ layout g2 = layout g ∧ req_vec g2 = req_vec g1 ∧
        batch_flags g2 = batch_flags g1 ∧
        one_sided (mpi_log g2) =
          one_sided (mpi_log g1) ++ concat (sub_ops g op src_buf_ld <$> us).
Proof.
  induction us as [|u us IH]; intros g1 Hl Hb Hus.
  - exists g1. simpl. by rewrite app_nil_r.
  - destruct (Hus u) as [Hd Hok]; [left|].
    destruct (nb_step g1 op u src_buf_ld Hb Hd)
      as (g2 & E & Hb2 & Hl2 & Hq2 & Hf2 & Hlen & Hops).
    { by rewrite (layout_block_refused g1 g). }
    destruct (IH g2) as (g3 & E3 & Hb3 & Hl3 & Hq3 & Hf3 & Hops3).
    + by rewrite Hl2.
    + done.
    + intros v Hv. rewrite Hlen. apply Hus. by right.
    + exists g3. rewrite for_each_cons, E, decide_True by done.
      split; [done|]. split_and!; try done; try congruence.
      rewrite Hops3, Hops, fmap_cons, concat_cons, <- app_assoc.
      unfold sub_ops at 1.
      by rewrite (layout_transfer_calls g1 g).
Qed.

(** X10. On a handle with valid tables and sizes that are [int]s, whose
    counter array covers the process grid, and whose flow control is in
    order (consistent bookkeeping, global counter equal to the sum of
    the per-destination counters and below the threshold), a
    non-blocking put or accumulate of a non-empty rectangle inside the
    matrix that has no more than [INT_MAX] elements returns
    [GTM_SUCCESS],
    issues the one-sided operations of its sub-updates once each and in
    order, leaves the flow control in order (so the number of
    outstanding operations stays below the threshold) and leaves the
    queues and the flags as they were. *)
Theorem nonblocking_update_bounded g row_start row_num col_start col_num
    src_buf src_buf_ld :
  tables_valid g = true →
  0 ≤ row_start → 0 ≤ col_start → 0 < row_num → 0 < col_num →
  row_start + row_num ≤ nrows g → col_start + col_num ≤ ncols g →
  nrows g ≤ INT_MAX → ncols g ≤ INT_MAX → row_num * col_num ≤ INT_MAX →
  r_blocks g * c_blocks g ≤ Z.of_nat (length (nb_op_proc_cnt g)) →
  nb_bounded g →
  let subs := GTM_subUpdates g row_start row_num col_start col_num
                             src_buf src_buf_ld in
  (∃ g', GTM_putBlockNB (Some g) row_start row_num col_start col_num
           src_buf src_buf_ld = Returns GTM_SUCCESS (Some g') ∧
         nb_bounded g' ∧ req_vec g' = req_vec g ∧
         batch_flags g' = batch_flags g ∧
         one_sided (mpi_log g') =
           one_sided (mpi_log g) ++ concat (sub_ops g MPI_REPLACE src_buf_ld <$> subs)) ∧
  (∃ g', GTM_accBlockNB (Some g) row_start row_num col_start col_num
           src_buf src_buf_ld = Returns GTM_SUCCESS (Some g') ∧
         nb_bounded g' ∧ req_vec g' = req_vec g ∧
         batch_flags g' = batch_flags g ∧
         one_sided (mpi_log g') =
           one_sided (mpi_log g) ++ concat (sub_ops g MPI_SUM src_buf_ld <$> subs)).
Proof.
  intros Hv Hrs Hcs Hrn Hcn Hri Hci Hrf Hcf Haf Hgrid Hb subs.
  pose proof (subUpdates_owned g row_start row_num col_start col_num
                src_buf src_buf_ld Hv Hrs Hcs Hrn Hcn Hri Hci Hrf Hcf Haf)
    as Hown.
  fold subs in Hown. rewrite Forall_forall in Hown.
  assert (Hus : ∀ u, u ∈ subs →
            0 ≤ dst_rank u < Z.of_nat (length (nb_op_proc_cnt g)) ∧
            block_refused g (dst_rank u) (blk_r_s u) (blk_r_num u)
                          (blk_c_s u) (blk_c_num u) = false).
  { intros u Hu.
    destruct (Hown u Hu) as (_ & _ & _ & (blk_r & blk_c & Hr & Hc & Ht) & Hok).
    split; [|done]. destruct Ht as (-> & _). nia. }
  unfold GTM_putBlockNB, GTM_accBlockNB.
  rewrite !(subUpdates_loop g row_start row_num col_start col_num
              src_buf src_buf_ld Hv Hrs Hcs Hrn Hcn Hri Hci Hrf Hcf Haf).
  fold subs. unfold with_handle.
  split.
  - destruct (for_each_nb g MPI_REPLACE src_buf_ld subs g eq_refl Hb Hus)
      as (g' & -> & Hb' & _ & Hq & Hf & Hops).
    by exists g'.
  - destruct (for_each_nb g MPI_SUM src_buf_ld subs g eq_refl Hb Hus)
      as (g' & -> & Hb' & _ & Hq & Hf & Hops).
    by exists g'.
Qed.

(** ** Further properties of the batched mode *)

Lemma push_extends (vecs : list GTM_Req_Vector) d (v : GTM_Req_Vector) r :
  arr_get [] vecs d `prefix_of` v →
  arr_get [] vecs r `prefix_of` arr_get [] (arr_set vecs d v) r.
Proof.
  intros Hv. destruct (decide (d = r)) as [->|Hne].
  - destruct (decide (0 ≤ r < Z.of_nat (length vecs))) as [Hin|Hout].
    + by rewrite arr_get_set_eq.
    + rewrite !arr_get_outside; [done| |done]. by rewrite arr_set_length.
  - by rewrite arr_get_set_ne.
Qed.

(** X11. Whatever the handle and the rectangle, and whether the call
    succeeds, fails or aborts, adding a put or an accumulate request
    makes no MPI call and changes no counter, and the requests already
    queued for a destination stay at the head of its queue, in their
    order: a request is never dropped, moved or rewritten by a later
    one. *)
Theorem addRequest_append_only g row_start row_num col_start col_num
    src_buf src_buf_ld :
  let kept g' :=
    mpi_log g' = mpi_log g ∧ nb_op_cnt g' = nb_op_cnt g ∧
    nb_op_proc_cnt g' = nb_op_proc_cnt g ∧
    length (req_vec g') = length (req_vec g) ∧
    ∀ r, queue g r `prefix_of` queue g' r in
  (∃ g', final (GTM_addPutBlockRequest (Some g) row_start row_num col_start
                  col_num src_buf src_buf_ld) = Some g' ∧ kept g') ∧
  (∃ g', final (GTM_addAccBlockRequest (Some g) row_start row_num col_start
                  col_num src_buf src_buf_ld) = Some g' ∧ kept g').
Proof.
  intros kept. unfold GTM_addPutBlockRequest, GTM_addAccBlockRequest.
  assert (Hstep : ∀ op u g1, kept g1 →
            kept (final (dispatch op u src_buf_ld BATCH_ACCESS g1))).
  { intros op u g1 (H1 & H2 & H3 & H4 & H5). rewrite dispatch_batch_eq.
    unfold kept. cbn [final]. split_and!; try done.
    - cbn [req_vec set_req_vec]. by rewrite arr_set_length.
    - intros r. etrans; [apply H5|]. unfold queue.
      cbn [req_vec set_req_vec]. apply push_extends.
      case_decide; [by apply prefix_app_r|done]. }
  split; apply (updateBlock_final_inv kept); try (intros; by apply Hstep);
    by unfold kept.
Qed.

(** ** Further properties of the execution of a batch *)

Lemma for_each_noop {A : Type} (l : list A) (body : A → M retval) g :
  (∀ x, x ∈ l → body x g = Returns GTM_SUCCESS g) →
  for_each l body g = Returns GTM_SUCCESS g.
Proof.
  induction l as [|x l IH]; intros Hbody; [done|].
  rewrite for_each_cons, Hbody by left. rewrite decide_True by done.
  apply IH. intros y Hy. apply Hbody. by right.
Qed.

Lemma exec_destination_empty _d g :
  queue g (Z.rem _d (comm_size g)) = [] →
  exec_destination _d g = Returns GTM_SUCCESS g.
Proof.
  intros Hq. pose proof (exec_destination_eq _d g) as E. cbv zeta in E.
  rewrite E. unfold accepted, visit_calls. rewrite Hq. simpl.
  rewrite arr_set_default by done. rewrite app_nil_r. by destruct g.
Qed.

Lemma exec_empty g :
  0 ≤ my_rank g →
  (∀ r, 0 ≤ r < comm_size g → queue g r = []) →
  for_each (seqZ (my_rank g) (comm_size g)) exec_destination g =
  Returns GTM_SUCCESS g.
Proof.
  intros Hr Hq. apply for_each_noop. intros x Hx.
  apply elem_of_seqZ in Hx. apply exec_destination_empty, Hq.
  split.
  - apply Z.rem_nonneg; lia.
  - apply Z.rem_bound_pos; lia.
Qed.

(** The handle an epoch ends with when a destination refuses a request. *)
Lemma exec_fails_at g pre d post :
  in_batch_put g ≠ 0 → in_batch_acc g ≠ 0 → 0 ≤ my_rank g < comm_size g →
  round_robin g = pre ++ d :: post →
  (∀ r, r ∈ pre → accepted g r = true) →
  accepted g d = false →
  GTM_execBatchUpdate g =
  Returns GTM_INVALID_BLOCK
    (set_req_vec (clear_queues (req_vec g) pre)
       (set_mpi_log
          (mpi_log g ++ concat (visit_calls g <$> pre)
           ++ [MPI_Win_lock (acc_lock_type g) d]
           ++ concat (replay_calls g d <$> accepted_prefix g d (queue g d))) g)).
Proof.
  intros Hp Ha Hr Hrr Hpre Hd.
  rewrite exec_epoch_open by done.
  pose proof (round_robin_ranks g Hr) as Hl.
  pose proof (round_robin_NoDup g (proj1 Hr)) as Hnd.
  rewrite Hrr in Hl.
  apply fmap_app_inv in Hl as (lpre & l2 & Hlpre & Hl2 & Hl).
  symmetry in Hl2. apply fmap_cons_inv in Hl2 as (x & lpost & Hx & Hlpost & ->).
  rewrite Hl. subst pre d post.
  rewrite Hrr in Hnd.
  assert (Hnd' : NoDup ((λ x, Z.rem x (comm_size g)) <$> (lpre ++ [x]))).
  { rewrite fmap_app. simpl.
    apply NoDup_app in Hnd as (H1 & H2 & H3).
    apply NoDup_app. split; [done|]. split.
    - intros y Hy Hy'. apply (H2 y Hy).
      apply list_elem_of_singleton in Hy'. subst y. by left.
    - apply NoDup_singleton. }
  assert (Hpre' : ∀ y, y ∈ lpre → accepted g (Z.rem y (comm_size g)) = true).
  { intros y Hy. apply Hpre. apply list_elem_of_fmap. by exists y. }
  pose proof (exec_loop_fail lpre x lpost g Hnd' Hpre' Hd) as E.
  cbv zeta in E. exact E.
Qed.

(** An epoch that returns [GTM_SUCCESS] leaves every queue empty. *)
Lemma exec_success_empties g g' :
  in_batch_put g ≠ 0 → in_batch_acc g ≠ 0 → 0 ≤ my_rank g < comm_size g →
  GTM_execBatchUpdate g = Returns GTM_SUCCESS g' →
  layout g' = layout g ∧ batch_flags g' = batch_flags g ∧
  (∀ r, 0 ≤ r < comm_size g → queue g' r = []) ∧
  mpi_log g' = mpi_log g ++ concat (visit_calls g <$> round_robin g).
Proof.
  intros Hp Ha Hr E.
  destruct (first_refusal (accepted g) (round_robin g))
    as [Hall|(pre & d & post & Hrr & Hpre & Hd)].
  - rewrite exec_epoch_open in E by done.
    pose proof (round_robin_ranks g Hr) as Hrr.
    pose proof (round_robin_NoDup g (proj1 Hr)) as Hnd.
    rewrite exec_loop_ok in E.
    + injection E as <-. rewrite Hrr. split_and!; try done.
      intros r Hrange. unfold queue. simpl. rewrite clear_queues_get.
      rewrite decide_True; [done|]. by apply round_robin_elem.
    + by rewrite Hrr.
    + intros x Hx. apply Hall. rewrite <- Hrr.
      apply list_elem_of_fmap. by exists x.
  - rewrite (exec_fails_at g pre d post) in E by done. done.
Qed.

(** X12. In an active epoch, on a rank that is not negative, executing
    the batch while the queue of every rank is empty returns
    [GTM_SUCCESS] and changes nothing; and on a rank inside the group an
    execution that returned [GTM_SUCCESS] has emptied every queue, so
    executing again right after it makes no MPI call and changes
    nothing. *)
Theorem execBatch_idempotent g :
  in_batch_put g ≠ 0 → in_batch_acc g ≠ 0 →
  (0 ≤ my_rank g → (∀ r, 0 ≤ r < comm_size g → queue g r = []) →
     GTM_execBatchPut g = Returns GTM_SUCCESS g ∧
     GTM_execBatchAcc g = Returns GTM_SUCCESS g) ∧
  (0 ≤ my_rank g < comm_size g →
     ∀ g', GTM_execBatchPut g = Returns GTM_SUCCESS g' →
           GTM_execBatchAcc g' = Returns GTM_SUCCESS g').
Proof.
  intros Hp Ha. unfold GTM_execBatchPut, GTM_execBatchAcc. split.
  - intros Hr Hq. rewrite exec_epoch_open by done.
    split; by apply exec_empty.
  - intros Hr g' E.
    destruct (exec_success_empties g g' Hp Ha Hr E) as (Hl & Hf & Hq & _).
    unfold layout in Hl. unfold batch_flags in Hf.
    injection Hl as _ _ _ _ _ _ _ _ _ Hmr Hcs _. injection Hf as _ Hfp Hfa.
    rewrite exec_epoch_open by congruence.
    apply exec_empty; [lia|]. intros r Hrange. apply Hq. lia.
Qed.

Lemma epoch_step_replay g d (vec : list GTM_Req) r held :
  foldl (epoch_step r) held (concat (replay_calls g d <$> vec)) = held.
Proof.
  revert held. induction vec as [|req vec IH]; intros held; [done|].
  rewrite fmap_cons, concat_cons, foldl_app, IH.
  apply epoch_step_transfer.
Qed.

Lemma epoch_step_visit g d r :
  foldl (epoch_step r) false (visit_calls g d) = false.
Proof.
  unfold visit_calls. destruct (queue g d) as [|req vec]; [done|].
  rewrite !foldl_app, epoch_step_replay. simpl. by repeat case_decide.
Qed.

Lemma epoch_step_visits g (ds : list Z) r :
  foldl (epoch_step r) false (concat (visit_calls g <$> ds)) = false.
Proof.
  induction ds as [|d ds IH]; [done|].
  by rewrite fmap_cons, concat_cons, foldl_app, epoch_step_visit.
Qed.

(** X13. In an active epoch, on a rank inside the group, with no epoch
    open: an execution that returns [GTM_SUCCESS] leaves no epoch open;
    an execution that stops at a refused request of destination [d]
    returns with the epoch of [d] still open and with the queue of [d]
    as it was, refused request included. *)
Theorem execBatchUpdate_epochs g :
  in_batch_put g ≠ 0 → in_batch_acc g ≠ 0 → 0 ≤ my_rank g < comm_size g →
  (∀ r, epoch_open (mpi_log g) r = false) →
  (∀ g', GTM_execBatchUpdate g = Returns GTM_SUCCESS g' →
         ∀ r, epoch_open (mpi_log g') r = false) ∧
  (∀ pre d post,
     round_robin g = pre ++ d :: post →
     (∀ r, r ∈ pre → accepted g r = true) →
     accepted g d = false →
     ∃ g', GTM_execBatchUpdate g = Returns GTM_INVALID_BLOCK g' ∧
           epoch_open (mpi_log g') d = true ∧
           (∀ r, r ≠ d → epoch_open (mpi_log g') r = false) ∧
           queue g' d = queue g d ∧ queue g' d ≠ []).
Proof.
  intros Hp Ha Hr Hclosed. split.
  - intros g' E r.
    destruct (exec_success_empties g g' Hp Ha Hr E) as (_ & _ & _ & ->).
    by rewrite epoch_open_app, Hclosed, epoch_step_visits.
  - intros pre d post Hrr Hpre Hd.
    rewrite (exec_fails_at g pre d post) by done.
    eexists. split; [reflexivity|].
    cbn [mpi_log set_mpi_log set_req_vec req_vec].
    assert (Hep : ∀ r, epoch_open
              (mpi_log g ++ concat (visit_calls g <$> pre) ++
               [MPI_Win_lock (acc_lock_type g) d] ++
               concat (replay_calls g d <$> accepted_prefix g d (queue g d))) r =
              if decide (d = r) then true else false).
    { intros r. rewrite epoch_open_app, Hclosed, !foldl_app.
      rewrite epoch_step_visits, epoch_step_replay. done. }
    split_and!.
    + by rewrite Hep, decide_True.
    + intros r Hne. by rewrite Hep, decide_False.
    + unfold queue. cbn [req_vec set_req_vec]. rewrite clear_queues_get.
      rewrite decide_False; [done|].
      pose proof (round_robin_NoDup g (proj1 Hr)) as Hnd.
      rewrite Hrr in Hnd. apply NoDup_app in Hnd as (_ & H2 & _).
      intros Hin. apply (H2 d Hin). by left.
    + unfold queue. cbn [req_vec set_req_vec]. rewrite clear_queues_get.
      rewrite decide_False.
      * by apply refused_queue_nonempty.
      * pose proof (round_robin_NoDup g (proj1 Hr)) as Hnd.
        rewrite Hrr in Hnd. apply NoDup_app in Hnd as (_ & H2 & _).
        intros Hin. apply (H2 d Hin). by left.
Qed.

(** ** The two flags of the update epoch *)

Lemma exec_destination_frame _d g :
  layout (final (exec_destination _d g)) = layout g ∧
  batch_flags (final (exec_destination _d g)) = batch_flags g.
Proof.
  pose proof (exec_destination_eq _d g) as E. cbv zeta in E. rewrite E.
  by destruct (accepted g _).
Qed.

Lemma exec_destination_codes _d g ret g' :
  exec_destination _d g = Returns ret g' →
  ret = GTM_SUCCESS ∨ ret = GTM_INVALID_BLOCK.
Proof.
  pose proof (exec_destination_eq _d g) as E. cbv zeta in E. rewrite E.
  destruct (accepted g _); intros [= <- _]; auto.
Qed.

(** X14. The put flag and the accumulate flag move together: if they
    are equal before a call of any function of the update path, they are
    equal after it; and on such a handle starting an epoch never returns
    [GTM_IN_BATCHED_ACC], and executing or stopping one never returns
    [GTM_NO_BATCHED_ACC]: a second start, under either name, is refused
    with [GTM_IN_BATCHED_PUT] or [GTM_IN_BATCHED_GET], and an execution
    or a stop outside an epoch with [GTM_NO_BATCHED_PUT]. *)
Theorem batch_flags_together g :
  in_batch_put g = in_batch_acc g →
  (∀ f, f = GTM_startBatchPut ∨ f = GTM_startBatchAcc ∨
        f = GTM_stopBatchPut ∨ f = GTM_stopBatchAcc →
     ∃ ret g', f (Some g) = Returns ret (Some g') ∧
               in_batch_put g' = in_batch_acc g' ∧
               ret ≠ GTM_IN_BATCHED_ACC ∧ ret ≠ GTM_NO_BATCHED_ACC) ∧
  (∀ f, f = GTM_execBatchPut ∨ f = GTM_execBatchAcc →
     in_batch_put (final (f g)) = in_batch_acc (final (f g)) ∧
     ∀ ret g', f g = Returns ret g' →
               ret = GTM_SUCCESS ∨ ret = GTM_INVALID_BLOCK ∨
               ret = GTM_NO_BATCHED_PUT) ∧
  (∀ op row_start row_num col_start col_num src_buf src_buf_ld mode,
     ∃ g', final (GTM_updateBlock (Some g) op row_start row_num col_start
                    col_num src_buf src_buf_ld mode) = Some g' ∧
           in_batch_put g' = in_batch_acc g').
Proof.
  intros Heq. split_and!.
  - assert (Hstart : ∃ ret g', GTM_startBatchUpdate (Some g) = Returns ret (Some g') ∧
               in_batch_put g' = in_batch_acc g' ∧
               ret ≠ GTM_IN_BATCHED_ACC ∧ ret ≠ GTM_NO_BATCHED_ACC).
    { unfold GTM_startBatchUpdate. run.
      destruct (decide (in_batch_get g ≠ 0)); [by do 2 eexists|].
      destruct (decide (in_batch_put g ≠ 0)); [by do 2 eexists|].
      destruct (decide (in_batch_acc g ≠ 0)); [lia|].
      by do 2 eexists. }
    assert (Hstop : ∃ ret g', GTM_stopBatchUpdate (Some g) = Returns ret (Some g') ∧
               in_batch_put g' = in_batch_acc g' ∧
               ret ≠ GTM_IN_BATCHED_ACC ∧ ret ≠ GTM_NO_BATCHED_ACC).
    { unfold GTM_stopBatchUpdate. run.
      destruct (decide (in_batch_put g = 0)); [by do 2 eexists|].
      destruct (decide (in_batch_acc g = 0)); [lia|].
      by do 2 eexists. }
    intros f [->|[->|[->| ->]]]; done.
  - assert (Hexec :
      in_batch_put (final (GTM_execBatchUpdate g)) =
        in_batch_acc (final (GTM_execBatchUpdate g)) ∧
      ∀ ret g', GTM_execBatchUpdate g = Returns ret g' →
                ret = GTM_SUCCESS ∨ ret = GTM_INVALID_BLOCK ∨
                ret = GTM_NO_BATCHED_PUT).
    { destruct (decide (in_batch_put g = 0)) as [Hp|Hp].
      { assert (E : GTM_execBatchUpdate g = Returns GTM_NO_BATCHED_PUT g).
        { unfold GTM_execBatchUpdate. run. by rewrite decide_True. }
        rewrite E. split; [done|]. intros ret g' [= <- _]. auto. }
      assert (Ha : in_batch_acc g ≠ 0) by lia.
      rewrite exec_epoch_open by done.
      split.
      - apply (for_each_final_inv
          (λ g1, in_batch_put g1 = in_batch_acc g1)); [|done].
        intros d g1 H1.
        destruct (exec_destination_frame d g1) as [_ Hf].
        unfold batch_flags in Hf. injection Hf as _ -> ->. done.
      - intros ret g'.
        apply (for_each_returns
          (λ r, r = GTM_SUCCESS ∨ r = GTM_INVALID_BLOCK ∨
                r = GTM_NO_BATCHED_PUT)); [auto|].
        intros d g1 r g2 E.
        destruct (exec_destination_codes d g1 r g2 E); auto. }
    intros f [->| ->]; done.
  - intros op rs rn cs cn buf ld mode.
    apply (updateBlock_final_inv (λ g1, in_batch_put g1 = in_batch_acc g1));
      [done|].
    intros u g1 H1.
    destruct (dispatch_frame op u ld mode g1) as [_ Hf].
    unfold batch_flags in Hf. injection Hf as _ -> ->. done.
Qed.

(** ** A batch against a blocking update *)

Lemma startBatchUpdate_idle g :
  in_batch_get g = 0 → in_batch_put g = 0 → in_batch_acc g = 0 →
  GTM_startBatchUpdate (Some g) =
  Returns GTM_SUCCESS
    (Some (set_in_batch_acc 1 (set_in_batch_put 1
       (set_req_vec (clear_queues (req_vec g) (seqZ 0 (comm_size g))) g)))).
Proof.
  intros Hg Hp Ha. unfold GTM_startBatchUpdate. run.
  rewrite !decide_False by lia. reflexivity.
Qed.

Lemma stopBatchUpdate_active g :
  in_batch_put g ≠ 0 → in_batch_acc g ≠ 0 →
  GTM_stopBatchUpdate (Some g) =
  Returns GTM_SUCCESS (Some (set_in_batch_acc 0 (set_in_batch_put 0 g))).
Proof.
  intros Hp Ha. unfold GTM_stopBatchUpdate. run.
  by rewrite !decide_False.
Qed.

Lemma clear_queues_length (ds : list Z) (vecs : list GTM_Req_Vector) :
  length (clear_queues vecs ds) = length vecs.
Proof. apply reset_all_length. Qed.

(** The queue of a destination after a run of pushes: what it held,
    then the requests of the sub-updates addressed to it, in order. *)
Lemma push_all_get op src_buf_ld (us : list SubUpdate) :
  ∀ (vecs : list GTM_Req_Vector) r,
  (∀ u, u ∈ us → 0 ≤ dst_rank u < Z.of_nat (length vecs)) →
  arr_get [] (push_all op src_buf_ld vecs us) r =
  arr_get [] vecs r
  ++ (req_of op src_buf_ld <$> filter (λ u, dst_rank u = r) us).
Proof.
  induction us as [|u us IH]; intros vecs r Hin.
  - simpl. by rewrite app_nil_r.
  - change (push_all op src_buf_ld vecs (u :: us))
      with (push_all op src_buf_ld
              (arr_set vecs (dst_rank u)
                 (arr_get [] vecs (dst_rank u) ++ [req_of op src_buf_ld u])) us).
    rewrite IH by (intros v Hv; rewrite arr_set_length; apply Hin; by right).
    rewrite filter_cons.
    destruct (decide (dst_rank u = r)) as [<-|Hne].
    + rewrite arr_get_set_eq by (apply Hin; left).
      rewrite fmap_cons, <- app_assoc. done.
    + by rewrite arr_get_set_ne.
Qed.

(** Grouping by destination, in any order of the destinations, only
    permutes. *)
Lemma group_by_rank {X : Type} (f : SubUpdate → list X)
    (us : list SubUpdate) (ds : list Z) :
  NoDup ds → (∀ u, u ∈ us → dst_rank u ∈ ds) →
  concat ((λ r, concat (f <$> filter (λ u, dst_rank u = r) us)) <$> ds)
  ≡ₚ concat (f <$> us).
Proof.
  intros Hnd. induction us as [|u us IH]; intros Hin.
  - clear. induction ds as [|d ds IH]; [done|]. by rewrite fmap_cons.
  - rewrite fmap_cons, concat_cons.
    rewrite <- IH by (intros v Hv; apply Hin; by right).
    specialize (Hin u ltac:(left)). clear IH.
    induction Hnd as [|d ds Hd Hnd IHd].
    + by apply elem_of_nil in Hin.
    + rewrite !fmap_cons, !concat_cons, filter_cons.
      destruct (decide (dst_rank u = d)) as [Heq|Hne].
      * rewrite fmap_cons, concat_cons, <- app_assoc.
        apply Permutation_app_head, Permutation_app_head.
        assert (Hsame : (λ r, concat (f <$> filter (λ v, dst_rank v = r) (u :: us)))
                        <$> ds =
                        (λ r, concat (f <$> filter (λ v, dst_rank v = r) us))
                        <$> ds).
        { apply list_fmap_ext. intros i r Hr.
          apply list_elem_of_lookup_2 in Hr. rewrite filter_cons.
          rewrite decide_False; [done|]. congruence. }
        by rewrite Hsame.
      * apply elem_of_cons in Hin as [?|Hin]; [done|].
        rewrite (IHd Hin).
        rewrite !app_assoc. apply Permutation_app_tail, Permutation_app_comm.
Qed.

Section round_trip.
Variables (g : GTMatrix) (op : MPI_Op).
Variables (row_start row_num col_start col_num src_buf src_buf_ld : Z).
Hypothesis valid : tables_valid g = true.
Hypothesis row_start_nonneg : 0 ≤ row_start.
Hypothesis col_start_nonneg : 0 ≤ col_start.
Hypothesis row_num_pos : 0 < row_num.
Hypothesis col_num_pos : 0 < col_num.
Hypothesis rows_inside : row_start + row_num ≤ nrows g.
Hypothesis cols_inside : col_start + col_num ≤ ncols g.
Hypothesis rows_fit : nrows g ≤ INT_MAX.
Hypothesis cols_fit : ncols g ≤ INT_MAX.
Hypothesis area_fits : row_num * col_num ≤ INT_MAX.
Hypothesis push_accepts : ∀ vec req, push_result vec req = GTM_SUCCESS.
Hypothesis idle : batch_flags g = (0, 0, 0).
Hypothesis rank_inside : 0 ≤ my_rank g < comm_size g.
Hypothesis grid_inside : r_blocks g * c_blocks g ≤ comm_size g.
Hypothesis queues_cover : comm_size g ≤ Z.of_nat (length (req_vec g)).

Let subs := GTM_subUpdates g row_start row_num col_start col_num
                           src_buf src_buf_ld.
Let g1 := set_in_batch_acc 1 (set_in_batch_put 1
            (set_req_vec (clear_queues (req_vec g) (seqZ 0 (comm_size g))) g)).
Let g2 := set_req_vec (push_all op src_buf_ld (req_vec g1) subs) g1.

Lemma subs_owned u :
  u ∈ subs →
  0 ≤ dst_rank u < comm_size g ∧
  block_refused g (dst_rank u) (blk_r_s u) (blk_r_num u)
                (blk_c_s u) (blk_c_num u) = false.
Proof using valid row_start_nonneg col_start_nonneg row_num_pos col_num_pos
            rows_inside cols_inside rows_fit cols_fit area_fits grid_inside.
  intros Hu.
  pose proof (subUpdates_owned g row_start row_num col_start col_num
                src_buf src_buf_ld valid row_start_nonneg col_start_nonneg
                row_num_pos col_num_pos rows_inside cols_inside
                rows_fit cols_fit area_fits) as Hown.
  rewrite Forall_forall in Hown.
  destruct (Hown u Hu) as (_ & _ & _ & (blk_r & blk_c & Hr & Hc & Ht) & Hok).
  split; [|done]. destruct Ht as (-> & _). nia.
Qed.

Lemma round_trip_start : GTM_startBatchUpdate (Some g) = Returns GTM_SUCCESS (Some g1).
Proof using idle.
  unfold batch_flags in idle. injection idle as Hg Hp Ha.
  by apply startBatchUpdate_idle.
Qed.

Lemma round_trip_add :
  GTM_updateBlock (Some g1) op row_start row_num col_start col_num
    src_buf src_buf_ld BATCH_ACCESS = Returns GTM_SUCCESS (Some g2).
Proof using valid row_start_nonneg col_start_nonneg row_num_pos col_num_pos
            rows_inside cols_inside rows_fit cols_fit area_fits push_accepts.
  by apply (updateBlock_batch g1).
Qed.

Lemma round_trip_queue r :
  0 ≤ r < comm_size g →
  queue g2 r = req_of op src_buf_ld <$> filter (λ u, dst_rank u = r) subs.
Proof using valid row_start_nonneg col_start_nonneg row_num_pos col_num_pos
            rows_inside cols_inside rows_fit cols_fit area_fits push_accepts
            grid_inside queues_cover.
  intros Hr. unfold queue, g2. cbn [req_vec set_req_vec].
  rewrite push_all_get.
  - unfold g1. cbn [req_vec set_req_vec set_in_batch_put set_in_batch_acc].
    rewrite clear_queues_get, decide_True; [done|].
    apply elem_of_seqZ. lia.
  - intros u Hu. destruct (subs_owned u Hu) as [Hd _].
    unfold g1. cbn [req_vec set_req_vec set_in_batch_put set_in_batch_acc].
    rewrite clear_queues_length. lia.
Qed.

Lemma round_trip_accepted r : 0 ≤ r < comm_size g → accepted g2 r = true.
Proof using valid row_start_nonneg col_start_nonneg row_num_pos col_num_pos
            rows_inside cols_inside rows_fit cols_fit area_fits push_accepts
            grid_inside queues_cover.
  intros Hr. unfold accepted. rewrite round_trip_queue by done.
  apply forallb_forall. intros req Hreq.
  apply list_elem_of_In, list_elem_of_fmap in Hreq as (u & -> & Hu).
  apply list_elem_of_filter in Hu as [<- Hu].
  destruct (subs_owned u Hu) as [_ Hok].
  apply negb_true_iff. exact Hok.
Qed.

Lemma round_trip_visit r :
  0 ≤ r < comm_size g →
  one_sided (visit_calls g2 r) =
  concat (sub_ops g op src_buf_ld <$> filter (λ u, dst_rank u = r) subs).
Proof using valid row_start_nonneg col_start_nonneg row_num_pos col_num_pos
            rows_inside cols_inside rows_fit cols_fit area_fits push_accepts
            grid_inside queues_cover.
  intros Hr. unfold visit_calls. rewrite round_trip_queue by done.
  assert (Hreplay : ∀ us : list SubUpdate,
            (∀ u, u ∈ us → dst_rank u = r) →
            one_sided (concat (replay_calls g2 r <$> (req_of op src_buf_ld <$> us))) =
            concat (sub_ops g op src_buf_ld <$> us)).
  { induction us as [|u us IH]; intros Hus; [done|].
    rewrite !fmap_cons, !concat_cons, one_sided_app.
    rewrite IH by (intros v Hv; apply Hus; by right).
    f_equal. unfold sub_ops. rewrite (Hus u) by left. reflexivity. }
  specialize (Hreplay (filter (λ u, dst_rank u = r) subs)).
  destruct (req_of op src_buf_ld <$> filter (λ u, dst_rank u = r) subs)
    as [|req vec] eqn:E.
  - rewrite <- Hreplay; [done|].
    intros u Hu. by apply list_elem_of_filter in Hu as [? _].
  - rewrite !one_sided_app. simpl. rewrite app_nil_r.
    apply Hreplay. intros u Hu. by apply list_elem_of_filter in Hu as [? _].
Qed.

(** The whole epoch, for either operator. *)
Lemma round_trip :
  ∃ g3,
    GTM_execBatchUpdate g2 = Returns GTM_SUCCESS g3 ∧
    GTM_stopBatchUpdate (Some g3) =
      Returns GTM_SUCCESS (Some (set_in_batch_acc 0 (set_in_batch_put 0 g3))) ∧
    batch_flags g3 = (0, 1, 1) ∧
    (∀ r, 0 ≤ r < comm_size g → queue g3 r = []) ∧
    one_sided (mpi_log g3) ≡ₚ
      one_sided (mpi_log g) ++ concat (sub_ops g op src_buf_ld <$> subs).
Proof using valid row_start_nonneg col_start_nonneg row_num_pos col_num_pos
            rows_inside cols_inside rows_fit cols_fit area_fits push_accepts
            idle rank_inside grid_inside queues_cover.
  assert (Hp : in_batch_put g2 ≠ 0) by done.
  assert (Ha : in_batch_acc g2 ≠ 0) by done.
  destruct (execBatchUpdate_round_robin_aux g2 Hp Ha rank_inside)
    as (g3 & E & _).
  { intros r Hr. by apply round_trip_accepted. }
  destruct (exec_success_empties g2 g3 Hp Ha rank_inside E)
    as (Hl & Hf & Hq & Hlog).
  exists g3. split; [done|].
  unfold batch_flags in Hf, idle. injection Hf as Hfg Hfp Hfa.
  injection idle as Hig _ _.
  split_and!.
  - apply stopBatchUpdate_active; by rewrite ?Hfp, ?Hfa.
  - unfold batch_flags. rewrite Hfg, Hfp, Hfa. simpl. by rewrite Hig.
  - exact Hq.
  - rewrite Hlog, one_sided_app. apply Permutation_app_head.
    assert (Hvis : ∀ ds : list Z,
              (∀ r, r ∈ ds → 0 ≤ r < comm_size g) →
              one_sided (concat (visit_calls g2 <$> ds)) =
              concat ((λ r, concat (sub_ops g op src_buf_ld
                                      <$> filter (λ u, dst_rank u = r) subs))
                      <$> ds)).
    { induction ds as [|d ds IH]; intros Hds; [done|].
      rewrite !fmap_cons, !concat_cons, one_sided_app.
      rewrite IH by (intros r Hr; apply Hds; by right).
      rewrite round_trip_visit by (apply Hds; left). done. }
    rewrite Hvis.
    + apply group_by_rank.
      * apply (round_robin_NoDup g2). apply rank_inside.
      * intros u Hu. apply (round_robin_elem g2); [exact rank_inside|].
        by destruct (subs_owned u Hu).
    + intros r Hr. by apply (round_robin_elem g2) in Hr.
Qed.
End round_trip.

(** X15. On an idle handle with valid tables and sizes that are [int]s,
    on a rank inside a group that holds the process grid and has a queue
    for every rank, with request vectors that accept every push:
    starting an epoch, adding one put (or accumulate) request for a
    non-empty rectangle inside the matrix that has no more than
    [INT_MAX] elements, executing and stopping all return
    [GTM_SUCCESS]; the one-sided operations issued are, up to their
    order, those of the blocking put (or accumulate) of the same
    rectangle; and the handle is idle again with empty queues. *)
Theorem batch_round_trip g row_start row_num col_start col_num src_buf src_buf_ld :
  tables_valid g = true →
  0 ≤ row_start → 0 ≤ col_start → 0 < row_num → 0 < col_num →
  row_start + row_num ≤ nrows g → col_start + col_num ≤ ncols g →
  nrows g ≤ INT_MAX → ncols g ≤ INT_MAX → row_num * col_num ≤ INT_MAX →
  (∀ vec req, push_result vec req = GTM_SUCCESS) →
  batch_flags g = (0, 0, 0) →
  0 ≤ my_rank g < comm_size g →
  r_blocks g * c_blocks g ≤ comm_size g →
  comm_size g ≤ Z.of_nat (length (req_vec g)) →
  (∃ g1 g2 g3 g4 gb,
     GTM_startBatchPut (Some g) = Returns GTM_SUCCESS (Some g1) ∧
     GTM_addPutBlockRequest (Some g1) row_start row_num col_start col_num
       src_buf src_buf_ld = Returns GTM_SUCCESS (Some g2) ∧
     GTM_execBatchPut g2 = Returns GTM_SUCCESS g3 ∧
     GTM_stopBatchPut (Some g3) = Returns GTM_SUCCESS (Some g4) ∧
     GTM_putBlock (Some g) row_start row_num col_start col_num
       src_buf src_buf_ld = Returns GTM_SUCCESS (Some gb) ∧
     one_sided (mpi_log g4) ≡ₚ one_sided (mpi_log gb) ∧
     batch_flags g4 = (0, 0, 0) ∧
     ∀ r, 0 ≤ r < comm_size g → queue g4 r = []) ∧
  (∃ g1 g2 g3 g4 gb,
     GTM_startBatchAcc (Some g) = Returns GTM_SUCCESS (Some g1) ∧
     GTM_addAccBlockRequest (Some g1) row_start row_num col_start col_num
       src_buf src_buf_ld = Returns GTM_SUCCESS (Some g2) ∧
     GTM_execBatchAcc g2 = Returns GTM_SUCCESS g3 ∧
     GTM_stopBatchAcc (Some g3) = Returns GTM_SUCCESS (Some g4) ∧
     GTM_accBlock (Some g) row_start row_num col_start col_num
       src_buf src_buf_ld = Returns GTM_SUCCESS (Some gb) ∧
     one_sided (mpi_log g4) ≡ₚ one_sided (mpi_log gb) ∧
     batch_flags g4 = (0, 0, 0) ∧
     ∀ r, 0 ≤ r < comm_size g → queue g4 r = []).
Proof.
  intros Hv Hrs Hcs Hrn Hcn Hri Hci Hrf Hcf Haf Hpush Hidle Hrank Hgrid Hcover.
  assert (Hblock : ∀ op,
    GTM_updateBlock (Some g) op row_start row_num col_start col_num
      src_buf src_buf_ld BLOCKING_ACCESS =
    Returns GTM_SUCCESS (Some (set_mpi_log
      (mpi_log g ++ concat (blocking_calls g op src_buf_ld
         <$> GTM_subUpdates g row_start row_num col_start col_num
                            src_buf src_buf_ld)) g))).
  { intros op.
    rewrite (subUpdates_loop g row_start row_num col_start col_num
               src_buf src_buf_ld Hv Hrs Hcs Hrn Hcn Hri Hci Hrf Hcf Haf).
    unfold with_handle. rewrite for_each_blocking; [done|].
    intros u Hu.
    by destruct (subs_owned g row_start row_num col_start col_num src_buf
                   src_buf_ld Hv Hrs Hcs Hrn Hcn Hri Hci Hrf Hcf Haf
                   Hgrid u Hu). }
  assert (Hall : ∀ op, ∃ g1 g2 g3 g4 gb,
     GTM_startBatchUpdate (Some g) = Returns GTM_SUCCESS (Some g1) ∧
     GTM_updateBlock (Some g1) op row_start row_num col_start col_num
       src_buf src_buf_ld BATCH_ACCESS = Returns GTM_SUCCESS (Some g2) ∧
     GTM_execBatchUpdate g2 = Returns GTM_SUCCESS g3 ∧
     GTM_stopBatchUpdate (Some g3) = Returns GTM_SUCCESS (Some g4) ∧
     GTM_updateBlock (Some g) op row_start row_num col_start col_num
       src_buf src_buf_ld BLOCKING_ACCESS = Returns GTM_SUCCESS (Some gb) ∧
     one_sided (mpi_log g4) ≡ₚ one_sided (mpi_log gb) ∧
     batch_flags g4 = (0, 0, 0) ∧
     ∀ r, 0 ≤ r < comm_size g → queue g4 r = []).
  { intros op.
    destruct (round_trip g op row_start row_num col_start col_num src_buf
                src_buf_ld Hv Hrs Hcs Hrn Hcn Hri Hci Hrf Hcf Haf Hpush
                Hidle Hrank Hgrid Hcover)
      as (g3 & Eexec & Estop & Hf & Hq & Hperm).
    do 5 eexists. split_and!.
    - by apply round_trip_start.
    - by apply round_trip_add.
    - exact Eexec.
    - exact Estop.
    - apply Hblock.
    - cbn [mpi_log set_mpi_log set_in_batch_put set_in_batch_acc].
      rewrite Hperm, one_sided_app, blocking_calls_ops. done.
    - unfold batch_flags in *. injection Hf as Hg3 _ _.
      cbn [in_batch_get in_batch_put in_batch_acc
           set_in_batch_put set_in_batch_acc].
      by rewrite Hg3.
    - intros r Hr. unfold queue.
      cbn [req_vec set_in_batch_put set_in_batch_acc]. by apply Hq. }
  split.
  - destruct (Hall MPI_REPLACE) as (g1 & g2 & g3 & g4 & gb & H).
    by exists g1, g2, g3, g4, gb.
  - destruct (Hall MPI_SUM) as (g1 & g2 & g3 & g4 & gb & H).
    by exists g1, g2, g3, g4, gb.
Qed.

End GTMatrix_Update.

(** ** Scenarios *)

(** The put of the whole 4 x 4 matrix is cut into the four quadrants,
    one per destination, each read from its corner of the row-major
    source buffer. *)
Lemma subUpdates_4x4 :
  GTM_subUpdates gtm_4x4 0 4 0 4 1000 4 =
  [mkSub 1 0 0 2 0 2 1000; mkSub 1 1 0 2 2 2 1016;
   mkSub 1 2 2 2 0 2 1064; mkSub 1 3 2 2 2 2 1080].
Proof. reflexivity. Qed.

(** With an empty block between the first and the last block of the
    rectangle, the intersection with that block is empty and the
    assertion of [GTM_updateBlock] stops the run, after the two
    sub-updates of the first block row. *)
Lemma updateBlock_empty_block_aborts :
  tables_valid gtm_empty_block = false ∧
  GTM_updateBlock 16 push_always (Some gtm_empty_block) MPI_SUM 0 4 0 4 1000 4 BATCH_ACCESS =
    Aborts (Some (set_req_vec
      [[mkReq MPI_SUM 0 2 0 2 1000 4]; [mkReq MPI_SUM 0 2 2 2 1016 4];
       []; []; []; []] gtm_empty_block)).
Proof. split; reflexivity. Qed.

(** Four non-blocking sub-updates with a threshold of three: the third
    one triggers the flush, the fourth one opens a new epoch. *)
Lemma nonblocking_flush_4x4 :
  ∃ g', GTM_updateBlock 16 push_always (Some gtm_4x4) MPI_REPLACE 0 4 0 4 1000 4
          NONBLOCKING_ACCESS = Returns GTM_SUCCESS (Some g') ∧
        nb_op_cnt g' = 1 ∧ nb_op_proc_cnt g' = [0; 0; 0; 1] ∧
        epoch_open (mpi_log g') <$> [0; 1; 2; 3] = [false; false; false; true].
Proof. eexists. split; [vm_compute; reflexivity|]. by vm_compute. Qed.

(** ** The theorems at concrete handles

    The small-block bound is taken to be 16 here. *)

Lemma updateBlock_partition_witness :
  tables_valid gtm_4x4 = true ∧
  (∀ r c, count (covers r c) (GTM_subUpdates gtm_4x4 0 4 0 4 1000 4) =
          if in_rect 0 4 0 4 r c then 1%nat else 0%nat) ∧
  GTM_updateBlock 16 push_always (Some gtm_4x4) MPI_REPLACE 0 4 0 4 1000 4 BLOCKING_ACCESS =
    with_handle (Some gtm_4x4)
      (for_each (GTM_subUpdates gtm_4x4 0 4 0 4 1000 4)
                (λ u, dispatch 16 push_always MPI_REPLACE u 4 BLOCKING_ACCESS)).
Proof.
  destruct (updateBlock_partition 16 push_always gtm_4x4 0 4 0 4 1000 4)
    as (Hloop & Htile & _); [reflexivity|by vm_compute..|].
  split; [reflexivity|]. split; [exact Htile|apply Hloop].
Defined.

Lemma addRequest_outside_epoch_witness :
  (∀ vec req, push_always vec req = GTM_SUCCESS) ∧
  in_batch_put gtm_4x4 = 0 ∧ in_batch_acc gtm_4x4 = 0 ∧
  GTM_addPutBlockRequest 16 push_always (Some gtm_4x4) 0 4 0 4 1000 4 =
    Returns GTM_SUCCESS (Some (set_req_vec
      [[mkReq MPI_REPLACE 0 2 0 2 1000 4]; [mkReq MPI_REPLACE 0 2 2 2 1016 4];
       [mkReq MPI_REPLACE 2 2 0 2 1064 4]; [mkReq MPI_REPLACE 2 2 2 2 1080 4]]
      gtm_4x4)) ∧
  GTM_addAccBlockRequest 16 push_always (Some gtm_4x4) 0 4 0 4 1000 4 =
    Returns GTM_SUCCESS (Some (set_req_vec
      [[mkReq MPI_SUM 0 2 0 2 1000 4]; [mkReq MPI_SUM 0 2 2 2 1016 4];
       [mkReq MPI_SUM 2 2 0 2 1064 4]; [mkReq MPI_SUM 2 2 2 2 1080 4]]
      gtm_4x4)).
Proof.
  split; [done|]. by apply (addRequest_outside_epoch 16 push_always).
Defined.

Lemma execBatchUpdate_failure_witness :
  (∃ g', GTM_execBatchUpdate 16 gtm_queued = Returns GTM_SUCCESS g' ∧
         ∀ r, 0 ≤ r < 4 → queue g' r = []) ∧
  (∃ g', GTM_execBatchUpdate 16 gtm_stuck = Returns GTM_INVALID_BLOCK g' ∧
         queue g' 2 = queue gtm_stuck 2).
Proof.
  split.
  - apply (execBatchUpdate_failure 16 gtm_queued); [done|done|simpl; lia|].
    intros r Hr. simpl in Hr.
    assert (r = 0 ∨ r = 1 ∨ r = 2 ∨ r = 3) as [->|[->|[->| ->]]] by lia;
      reflexivity.
  - destruct (execBatchUpdate_failure 16 gtm_stuck) as [_ H];
      [done|done|simpl; lia|].
    destruct (H [] 1 [2; 3; 0]) as (g' & E & _ & Hpost & _).
    + reflexivity.
    + intros r Hin. by apply elem_of_nil in Hin.
    + reflexivity.
    + exists g'. split; [exact E|]. apply Hpost. by left.
Defined.

Lemma updateBlockToProcess_descriptors_witness :
  block_refused gtm_4x4 3 2 2 2 2 = false ∧
  GTM_updateBlockToProcess 16 3 MPI_SUM 2 2 2 2 1000 5 gtm_4x4 =
    Returns GTM_SUCCESS
      (set_mpi_log
         [MPI_Type_vector 2 2 5; MPI_Type_commit (type_vector 2 2 5);
          MPI_Accumulate 1000 (type_vector 2 2 5) 3 0 (sb_stride 17) MPI_SUM;
          MPI_Type_free (type_vector 2 2 5)] gtm_4x4).
Proof.
  split; [reflexivity|].
  destruct (updateBlockToProcess_descriptors 16 gtm_4x4 3 MPI_SUM 2 2 2 2 1000 5)
    as (calls & E & Hsmall & _); [reflexivity|].
  destruct Hsmall as (_ & _ & Hone); [lia|].
  rewrite (Hone ltac:(lia) ltac:(simpl; lia)) in E. exact E.
Defined.

Lemma updateBlock_error_codes_witness :
  GTM_updateBlock 16 push_always (Some gtm_4x4) MPI_SUM 3 2 0 1 1000 1 BLOCKING_ACCESS =
    Returns GTM_INVALID_BLOCK (Some gtm_4x4) ∧
  GTM_updateBlockToProcess 16 0 MPI_SUM 0 3 0 1 1000 1 gtm_4x4 =
    Returns GTM_INVALID_BLOCK gtm_4x4.
Proof.
  destruct (updateBlock_error_codes 16 push_always) as (_ & Hrect & Hblock).
  split.
  - apply Hrect. do 2 right. left. by vm_compute.
  - apply Hblock. do 2 right. left. by vm_compute.
Defined.

Lemma updateBlockToProcess_offset_witness :
  ∃ g', GTM_updateBlockToProcess 16 3 MPI_SUM 3 1 2 2 1000 2 gtm_4x4 =
          Returns GTM_SUCCESS g' ∧
        accumulate_targets (mpi_log g') = [(3, 2)] ∧ 0 ≤ 2 < 2 * (4 - 2).
Proof.
  apply (updateBlockToProcess_offset 16 gtm_4x4 3 MPI_SUM 3 1 2 2 1000 2);
    vm_compute; done.
Defined.

Lemma gtm_busy_consistent : nb_consistent gtm_busy.
Proof.
  intros r.
  destruct (decide (r = 0)) as [->|Hr0]; [by vm_compute|].
  destruct (decide (r = 1)) as [->|Hr1]; [by vm_compute|].
  unfold epoch_open, arr_get. simpl.
  rewrite (decide_False (P := 1 = r)) by done.
  rewrite (decide_False (P := 0 = r)) by done.
  destruct (decide (0 ≤ r)); [|done].
  destruct (Z.to_nat r) as [|[|[|[|n]]]] eqn:E; simpl; try done; lia.
Defined.

Lemma nonblocking_throttle_witness :
  ∃ g2, dispatch 16 push_always MPI_SUM (mkSub 1 2 2 2 0 2 1000) 2 NONBLOCKING_ACCESS gtm_busy =
          Returns GTM_SUCCESS g2 ∧
        nb_op_cnt g2 = 0 ∧
        (∀ r, (nb_op_proc_cnt g2).[r] = 0) ∧
        (∀ r, epoch_open (mpi_log g2) r = false).
Proof.
  destruct (nonblocking_throttle 16 push_always gtm_busy MPI_SUM (mkSub 1 2 2 2 0 2 1000) 2
              gtm_busy_consistent)
    as (ret & g1 & g2 & Hissue & Hdisp & _ & _ & _ & _ & Hcnt & _ & _ & Hflush & _);
    [simpl; lia|].
  assert (ret = GTM_SUCCESS) as -> by (vm_compute in Hissue; congruence).
  exists g2. split; [exact Hdisp|].
  apply Hflush. rewrite Hcnt. simpl. lia.
Defined.

Lemma execBatchUpdate_round_robin_witness :
  GTM_execBatchUpdate 16 gtm_queued =
    Returns GTM_SUCCESS
      (set_req_vec [[]; []; []; []]
         (set_mpi_log
            [MPI_Win_lock 1 3;
             MPI_Type_vector 2 2 4; MPI_Type_commit (type_vector 2 2 4);
             MPI_Accumulate 1080 (type_vector 2 2 4) 3 0 (sb_stride 17) MPI_REPLACE;
             MPI_Type_free (type_vector 2 2 4);
             MPI_Win_unlock 3;
             MPI_Win_lock 1 0;
             MPI_Type_vector 2 2 4; MPI_Type_commit (type_vector 2 2 4);
             MPI_Accumulate 1000 (type_vector 2 2 4) 0 0 (sb_stride 17) MPI_REPLACE;
             MPI_Type_free (type_vector 2 2 4);
             MPI_Accumulate 2000 (sb_nostride 0) 0 3 (sb_stride 0) MPI_SUM;
             MPI_Win_unlock 0] gtm_queued)) ∧
  ∃ ret g' calls,
    GTM_execBatchUpdate 16 gtm_queued = Returns ret g' ∧
    mpi_log g' = mpi_log gtm_queued ++ calls ∧
    calls `prefix_of` concat (visit_calls 16 gtm_queued <$> [1; 2; 3; 0]).
Proof.
  split; [reflexivity|].
  destruct (execBatchUpdate_round_robin 16 gtm_queued)
    as (ret & g' & calls & E & Hlog & Hpre & _); [done|done|simpl; lia|].
  exists ret, g', calls. split; [exact E|]. split; [exact Hlog|exact Hpre].
Defined.

Lemma batch_epoch_state_machine_witness :
  (∃ g', GTM_startBatchUpdate (Some gtm_4x4) = Returns GTM_SUCCESS (Some g') ∧
         in_batch_put g' = 1 ∧ in_batch_acc g' = 1) ∧
  GTM_startBatchUpdate (Some gtm_queued) =
    Returns GTM_IN_BATCHED_PUT (Some gtm_queued) ∧
  GTM_execBatchUpdate 16 gtm_4x4 = Returns GTM_NO_BATCHED_PUT gtm_4x4 ∧
  GTM_stopBatchUpdate (Some gtm_4x4) = Returns GTM_NO_BATCHED_PUT (Some gtm_4x4) ∧
  (∃ g', GTM_stopBatchUpdate (Some gtm_queued) = Returns GTM_SUCCESS (Some g') ∧
         req_vec g' = req_vec gtm_queued ∧ mpi_log g' = mpi_log gtm_queued).
Proof.
  destruct (batch_epoch_state_machine 16 gtm_4x4)
    as (_ & _ & _ & Hstart & Hno & _ & _).
  destruct (batch_epoch_state_machine 16 gtm_queued)
    as (_ & Hput & _ & _ & _ & _ & Hstop).
  split_and!.
  - destruct Hstart as (g' & E & H1 & H2 & _); [reflexivity..|].
    exists g'. done.
  - apply Hput; [reflexivity|done].
  - apply Hno. reflexivity.
  - apply Hno. reflexivity.
  - destruct Hstop as (g' & E & _ & _ & H1 & H2); [done|done|].
    exists g'. done.
Defined.

Lemma updateBlock_negative_dims_witness :
  GTM_updateBlock 16 push_always (Some gtm_4x4) MPI_REPLACE 0 (-1) 0 (-1) 1000 4 BLOCKING_ACCESS =
    Returns GTM_SUCCESS (Some gtm_4x4).
Proof.
  apply (updateBlock_negative_dims 16 push_always gtm_4x4 MPI_REPLACE 1000 4
           BLOCKING_ACCESS).
  reflexivity.
Defined.

(** ** The queue of a destination whose replay failed (C3 as stated)

    The replay of rank 1 is begun (its lock is taken) and fails at the
    second request; the call returns at once, and the queue of rank 1 is
    not cleared. *)
Lemma execBatchUpdate_failed_queue_kept :
  ∃ g', GTM_execBatchUpdate 16 gtm_stuck = Returns GTM_INVALID_BLOCK g' ∧
        MPI_Win_lock 1 1 ∈ mpi_log g' ∧
        queue g' 1 = queue gtm_stuck 1 ∧ queue g' 1 ≠ [].
Proof.
  eexists. split; [reflexivity|]. split; [by left|]. split; done.
Defined.

(** ** A rectangle of [2^32] elements (C1 as stated)

    The whole 65536 x 65536 matrix is a non-empty rectangle inside a
    matrix with valid tables, but the product of its dimensions wraps
    to 0: the validation refuses it and no sub-update is enumerated, in
    any access mode. *)
Lemma updateBlock_large_rectangle_refused :
  tables_valid gtm_65536 = true ∧
  0 + 65536 ≤ nrows gtm_65536 ∧ 0 + 65536 ≤ ncols gtm_65536 ∧
  in_rect 0 65536 0 65536 0 0 = true ∧
  ∀ mode,
    GTM_updateBlock 16 push_always (Some gtm_65536) MPI_REPLACE
      0 65536 0 65536 1000 65536 mode =
    Returns GTM_INVALID_BLOCK (Some gtm_65536).
Proof.
  split; [reflexivity|]. split; [by vm_compute|]. split; [by vm_compute|].
  split; [reflexivity|]. intros mode. reflexivity.
Defined.

(** ** A rectangle that ends past [INT_MAX] (C5 as stated)

    A rectangle that starts at row [INT_MAX] extends past the 4 x 4
    matrix, but the sum [row_start + row_num] wraps below zero: the
    validation accepts it and [GTM_updateBlock] returns [GTM_SUCCESS].
    In the same way [GTM_updateBlockToProcess] accepts a block of
    [INT_MAX] rows that starts inside the tile of rank 3. *)
Lemma updateBlock_past_the_end_accepted :
  2147483647 + 1 > nrows gtm_4x4 ∧
  GTM_updateBlock 16 push_always (Some gtm_4x4) MPI_REPLACE
    2147483647 1 0 1 1000 1 BLOCKING_ACCESS =
    Returns GTM_SUCCESS (Some gtm_4x4) ∧
  2 + 2147483647 > (r_displs gtm_4x4).[Z.quot 3 (c_blocks gtm_4x4) + 1] ∧
  ∃ g', GTM_updateBlockToProcess 16 3 MPI_REPLACE 2 2147483647 2 1 1000 1
          gtm_4x4 = Returns GTM_SUCCESS g'.
Proof.
  split; [by vm_compute|]. split; [reflexivity|]. split; [by vm_compute|].
  eexists. vm_compute. reflexivity.
Defined.

(** ** Offsets outside the exposed region (C6 as stated)

    With a stride of one element the last element of the tile of rank 3
    is inside the tile and gets offset 2, which is not below
    [ld_local * tile_row_count = 2].  In the tile of [2^32] elements the
    offset of the last element, [2^32 - 1], wraps to [-1]. *)
Lemma updateBlockToProcess_offset_outside :
  (let tile_row_start := (r_displs gtm_narrow).[Z.quot 3 (c_blocks gtm_narrow)] in
   let tile_row_end := (r_displs gtm_narrow).[Z.quot 3 (c_blocks gtm_narrow) + 1] in
   let tile_col_start := (c_displs gtm_narrow).[Z.rem 3 (c_blocks gtm_narrow)] in
   let tile_col_end := (c_displs gtm_narrow).[Z.rem 3 (c_blocks gtm_narrow) + 1] in
   tile_row_start ≤ 3 ∧ 3 + 1 ≤ tile_row_end ∧
   tile_col_start ≤ 3 ∧ 3 + 1 ≤ tile_col_end ∧
   ∃ g', GTM_updateBlockToProcess 16 3 MPI_SUM 3 1 3 1 1000 1 gtm_narrow =
           Returns GTM_SUCCESS g' ∧
         accumulate_targets (mpi_log g') = [(3, 2)] ∧
         (3 - tile_row_start) * ld_local gtm_narrow + (3 - tile_col_start) = 2 ∧
         ¬ 0 ≤ 2 < ld_local gtm_narrow * (tile_row_end - tile_row_start)) ∧
  (let tile_row_start := (r_displs gtm_65536).[Z.quot 0 (c_blocks gtm_65536)] in
   let tile_row_end := (r_displs gtm_65536).[Z.quot 0 (c_blocks gtm_65536) + 1] in
   let tile_col_start := (c_displs gtm_65536).[Z.rem 0 (c_blocks gtm_65536)] in
   let tile_col_end := (c_displs gtm_65536).[Z.rem 0 (c_blocks gtm_65536) + 1] in
   tile_row_start ≤ 65535 ∧ 65535 + 1 ≤ tile_row_end ∧
   tile_col_start ≤ 65535 ∧ 65535 + 1 ≤ tile_col_end ∧
   tile_fits_stride gtm_65536 0 = true ∧
   ∃ g', GTM_updateBlockToProcess 16 0 MPI_SUM 65535 1 65535 1 1000 1
           gtm_65536 = Returns GTM_SUCCESS g' ∧
         accumulate_targets (mpi_log g') = [(0, -1)] ∧
         (65535 - tile_row_start) * ld_local gtm_65536
           + (65535 - tile_col_start) = 4294967295).
Proof.
  split; cbv zeta.
  - split_and!; try by vm_compute.
    eexists. split; [vm_compute; reflexivity|].
    split; [reflexivity|]. split; [reflexivity|]. vm_compute. intros [_ H].
    discriminate.
  - split_and!; try by vm_compute.
    eexists. split; [vm_compute; reflexivity|].
    split; reflexivity.
Defined.

(** ** The further properties at concrete handles *)

Lemma find_blocks_correct_witness :
  displs_valid [0; 2; 4] 2 4 = true ∧
  ∃ s_blk e_blk,
    find_blocks [0; 2; 4] 2 1 (1 + 2 - 1) = (s_blk, e_blk) ∧
    0 ≤ s_blk ∧ s_blk ≤ e_blk ∧ e_blk < 2.
Proof.
  split; [reflexivity|].
  destruct (find_blocks_correct [0; 2; 4] 2 4 1 2)
    as (s_blk & e_blk & E & Hs & Hse & He & _); [reflexivity|lia..|].
  by exists s_blk, e_blk.
Defined.

Lemma subUpdates_destinations_witness :
  tables_valid gtm_4x4 = true ∧
  NoDup (dst_rank <$> GTM_subUpdates gtm_4x4 0 4 0 4 1000 4) ∧
  ∀ d, d ∈ dst_rank <$> GTM_subUpdates gtm_4x4 0 4 0 4 1000 4 → 0 ≤ d < 2 * 2.
Proof.
  split; [reflexivity|].
  apply (subUpdates_destinations gtm_4x4 0 4 0 4 1000 4);
    [reflexivity|(simpl; lia)..].
Defined.

Lemma subUpdates_source_address_witness :
  mkSub 1 1 0 2 2 2 1016 ∈ GTM_subUpdates gtm_4x4 0 4 0 4 1000 4 ∧
  src_addr gtm_4x4 1016 4 0 2 1 3 = src_addr gtm_4x4 1000 4 0 0 1 3.
Proof.
  assert (H : mkSub 1 1 0 2 2 2 1016 ∈ GTM_subUpdates gtm_4x4 0 4 0 4 1000 4).
  { vm_compute. right. left. }
  split; [exact H|].
  apply (subUpdates_source_address gtm_4x4 0 4 0 4 1000 4
           (mkSub 1 1 0 2 2 2 1016) 1 3);
    [by vm_compute..|exact H|reflexivity].
Defined.

Lemma dst_pos_injective_witness :
  tile_fits_stride gtm_4x4 1 = true ∧
  (dst_pos_of gtm_4x4 1 0 3 = dst_pos_of gtm_4x4 1 0 3 → 0 = 0 ∧ 3 = 3) ∧
  dst_pos_of gtm_4x4 1 0 3 ≠ dst_pos_of gtm_4x4 1 1 2.
Proof.
  split; [reflexivity|]. split.
  - apply (dst_pos_injective gtm_4x4 1 0 3 0 3);
      [reflexivity|by vm_compute..].
  - intros H.
    destruct (dst_pos_injective gtm_4x4 1 0 3 1 2) as [? _];
      [reflexivity|by vm_compute..|exact H|lia].
Defined.

Lemma subUpdates_area_witness :
  tables_valid gtm_4x4 = true ∧
  sum_cnt (area <$> GTM_subUpdates gtm_4x4 0 4 0 4 1000 4) = 4 * 4.
Proof.
  split; [reflexivity|].
  apply (subUpdates_area gtm_4x4 0 4 0 4 1000 4); [reflexivity|(simpl; lia)..].
Defined.

Lemma descriptors_released_witness :
  committed (mpi_log gtm_busy) = created (mpi_log gtm_busy) ∧
  freed (mpi_log gtm_busy) = created (mpi_log gtm_busy) ∧
  (∃ g', final (GTM_updateBlock 16 push_always (Some gtm_busy) MPI_SUM 0 4 0 4 1000 4
                  NONBLOCKING_ACCESS) = Some g' ∧
         committed (mpi_log g') = created (mpi_log g') ∧
         freed (mpi_log g') = created (mpi_log g')).
Proof.
  split; [reflexivity|]. split; [reflexivity|].
  destruct (descriptors_released 16 push_always gtm_busy) as [H _];
    [reflexivity..|].
  destruct (H MPI_SUM 0 4 0 4 1000 4 NONBLOCKING_ACCESS)
    as (g' & E & Hc & Hf & _).
  by exists g'.
Defined.

Lemma blocking_update_witness :
  tables_valid gtm_4x4 = true ∧
  GTM_putBlock 16 push_always (Some gtm_4x4) 0 4 0 4 1000 4 =
    Returns GTM_SUCCESS
      (Some (set_mpi_log
         (mpi_log gtm_4x4
          ++ concat (blocking_calls 16 gtm_4x4 MPI_REPLACE 4
                       <$> GTM_subUpdates gtm_4x4 0 4 0 4 1000 4)) gtm_4x4)).
Proof.
  split; [reflexivity|].
  destruct (blocking_update 16 push_always gtm_4x4 0 4 0 4 1000 4) as [H _];
    [reflexivity|by vm_compute..|exact H].
Defined.

Lemma blocking_update_epochs_witness :
  ∃ g', final (GTM_updateBlock 16 push_always (Some gtm_busy) MPI_SUM 0 4 0 4 1000 4
                 BLOCKING_ACCESS) = Some g' ∧
        (∀ r, epoch_open (mpi_log g') r = true →
              epoch_open (mpi_log gtm_busy) r = true) ∧
        nb_op_cnt g' = 2.
Proof.
  destruct (blocking_update_epochs 16 push_always gtm_busy MPI_SUM 0 4 0 4
              1000 4)
    as (g' & E & Hopen & Hcnt & _).
  by exists g'.
Defined.

Lemma updateBlock_frame_witness :
  (∃ g', final (GTM_updateBlock 16 push_once (Some gtm_queued) MPI_SUM
                  0 4 0 4 1000 4 BATCH_ACCESS) = Some g' ∧
         layout g' = layout gtm_queued ∧ batch_flags g' = (0, 1, 1)) ∧
  GTM_updateBlock 16 push_once (Some gtm_queued) MPI_SUM 0 4 0 4 1000 4
    BATCH_ACCESS = Returns GTM_NULL_PTR (Some gtm_queued) ∧
  (GTM_NULL_PTR = GTM_SUCCESS ∨ GTM_NULL_PTR = GTM_INVALID_BLOCK ∨
   BATCH_ACCESS = BATCH_ACCESS ∧
   ∃ vec req, req_op req = MPI_SUM ∧ GTM_NULL_PTR = push_once vec req).
Proof.
  destruct (updateBlock_frame 16 push_once gtm_queued MPI_SUM 0 4 0 4 1000 4
              BATCH_ACCESS) as [(g' & E & Hl & Hf) Hcodes].
  split; [by exists g'|]. split; [reflexivity|].
  apply (Hcodes GTM_NULL_PTR (Some gtm_queued)). reflexivity.
Defined.

Lemma gtm_busy_bounded : nb_bounded gtm_busy.
Proof.
  split; [exact gtm_busy_consistent|]. split; [reflexivity|simpl; lia].
Defined.

Lemma nonblocking_update_bounded_witness :
  tables_valid gtm_busy = true ∧ nb_bounded gtm_busy ∧
  ∃ g', GTM_putBlockNB 16 push_always (Some gtm_busy) 0 4 0 4 1000 4 =
          Returns GTM_SUCCESS (Some g') ∧
        nb_bounded g' ∧ req_vec g' = req_vec gtm_busy ∧
        batch_flags g' = batch_flags gtm_busy.
Proof.
  split; [reflexivity|]. split; [exact gtm_busy_bounded|].
  destruct (nonblocking_update_bounded 16 push_always gtm_busy 0 4 0 4 1000 4)
    as [(g' & E & Hb & Hq & Hf & _) _];
    [reflexivity|by vm_compute..|exact gtm_busy_bounded|].
  by exists g'.
Defined.

Lemma addRequest_append_only_witness :
  ∃ g', final (GTM_addAccBlockRequest 16 push_always (Some gtm_queued) 0 4 0 4 1000 4)
        = Some g' ∧
        mpi_log g' = [] ∧
        ∀ r, queue gtm_queued r `prefix_of` queue g' r.
Proof.
  destruct (addRequest_append_only 16 push_always gtm_queued 0 4 0 4 1000 4)
    as [_ (g' & E & Hlog & _ & _ & _ & Hq)].
  by exists g'.
Defined.

Lemma execBatch_idempotent_witness :
  in_batch_put gtm_queued ≠ 0 ∧ in_batch_acc gtm_queued ≠ 0 ∧
  ∃ g', GTM_execBatchPut 16 gtm_queued = Returns GTM_SUCCESS g' ∧
        GTM_execBatchAcc 16 g' = Returns GTM_SUCCESS g'.
Proof.
  split; [done|]. split; [done|].
  destruct (execBatch_idempotent 16 gtm_queued) as [_ H]; [done|done|].
  eexists. split; [vm_compute; reflexivity|].
  apply H; [simpl; lia|vm_compute; reflexivity].
Defined.

Lemma execBatchUpdate_epochs_witness :
  in_batch_put gtm_stuck ≠ 0 ∧ in_batch_acc gtm_stuck ≠ 0 ∧
  (∀ r, epoch_open (mpi_log gtm_stuck) r = false) ∧
  ∃ g', GTM_execBatchUpdate 16 gtm_stuck = Returns GTM_INVALID_BLOCK g' ∧
        epoch_open (mpi_log g') 1 = true ∧
        queue g' 1 = queue gtm_stuck 1 ∧ queue g' 1 ≠ [].
Proof.
  split; [done|]. split; [done|]. split; [reflexivity|].
  destruct (execBatchUpdate_epochs 16 gtm_stuck) as [_ H];
    [done|done|simpl; lia|reflexivity|].
  destruct (H [] 1 [2; 3; 0]) as (g' & E & Hopen & _ & Hq & Hne).
  - reflexivity.
  - intros r Hin. by apply elem_of_nil in Hin.
  - reflexivity.
  - by exists g'.
Defined.

Lemma batch_flags_together_witness :
  in_batch_put gtm_queued = in_batch_acc gtm_queued ∧
  ∃ ret g', GTM_startBatchAcc (Some gtm_queued) = Returns ret (Some g') ∧
            in_batch_put g' = in_batch_acc g' ∧
            ret ≠ GTM_IN_BATCHED_ACC ∧ ret ≠ GTM_NO_BATCHED_ACC.
Proof.
  split; [reflexivity|].
  destruct (batch_flags_together 16 push_always gtm_queued) as [H _];
    [reflexivity|].
  apply (H GTM_startBatchAcc). right. left. reflexivity.
Defined.

Lemma batch_round_trip_witness :
  tables_valid gtm_4x4 = true ∧ batch_flags gtm_4x4 = (0, 0, 0) ∧
  ∃ g1 g2 g3 g4 gb,
    GTM_startBatchPut (Some gtm_4x4) = Returns GTM_SUCCESS (Some g1) ∧
    GTM_addPutBlockRequest 16 push_always (Some g1) 0 4 0 4 1000 4 =
      Returns GTM_SUCCESS (Some g2) ∧
    GTM_execBatchPut 16 g2 = Returns GTM_SUCCESS g3 ∧
    GTM_stopBatchPut (Some g3) = Returns GTM_SUCCESS (Some g4) ∧
    GTM_putBlock 16 push_always (Some gtm_4x4) 0 4 0 4 1000 4 =
      Returns GTM_SUCCESS (Some gb) ∧
    one_sided (mpi_log g4) ≡ₚ one_sided (mpi_log gb) ∧
    batch_flags g4 = (0, 0, 0) ∧
    ∀ r, 0 ≤ r < comm_size gtm_4x4 → queue g4 r = [].
Proof.
  split; [reflexivity|]. split; [reflexivity|].
  destruct (batch_round_trip 16 push_always gtm_4x4 0 4 0 4 1000 4) as [H _];
    [..|exact H]; first [reflexivity|by vm_compute].
Defined.
